(** * auto-wiki: the background job manager ([api/job_manager.py])

    A shallow embedding of [Job], [JobManager] and [RedisStore], and the
    properties of the job table, of its persistence and of the per-repository
    locking that the specification states.

    Conventions of the embedding.
    - Python values are dynamically typed: every attribute of a [Job] is a
      [pyval], and [_update] assigns whatever its keyword arguments carry.
    - [json.dumps] / [json.loads] are modelled at the level of the JSON
      document ([json]); the text of the document is not modelled.
    - Numbers ([VNum], [JNum]) carry their value on a fixed grid; only their
      equality and their order are used (time stamps are finite numbers).
    - [uuid.uuid4()] and [time.time()] are inputs of the operations that
      call them. *)

From Stdlib Require Import ZArith String List Bool Lia Sorted.
From stdpp Require Import base option list strings relations infinite.
Import ListNotations.
Local Open Scope Z_scope.
Local Open Scope string_scope.

(** ** Python values and JSON documents *)

(** The Python values that reach the manager.  Dictionaries have string keys
    (the metadata is a [Dict[str, Any]]) and keep their insertion order.
    [VObject] stands for any value the JSON encoder refuses. *)
#[local] Unset Elimination Schemes.

Inductive pyval : Type :=
  | VNone
  | VBool (b : bool)
  | VNum (z : Z)
  | VStr (s : string)
  | VList (l : list pyval)
  | VTuple (l : list pyval)
  | VDict (d : list (string * pyval))
  | VObject (n : nat).

Inductive json : Type :=
  | JNull
  | JBool (b : bool)
  | JNum (z : Z)
  | JStr (s : string)
  | JArr (l : list json)
  | JObj (l : list (string * json)).

(** The keys of the job table: the hashable values.  [True] and [1] are the
    same key, as are [False] and [0]; an object is its own key. *)
Inductive tkey : Type :=
  | KNone
  | KNum (z : Z)
  | KStr (s : string)
  | KTuple (l : list tkey)
  | KObject (n : nat).

#[local] Set Elimination Schemes.

(** [d[k] = v] on an insertion-ordered dictionary: an existing key keeps its
    place and takes the new value, a new key goes last. *)
Fixpoint dict_set {K V} `{EqDecision K} (k : K) (v : V) (d : list (K * V))
  : list (K * V) :=
  match d with
  | [] => [(k, v)]
  | (k', v') :: r =>
      if decide (k' = k) then (k, v) :: r else (k', v') :: dict_set k v r
  end.

(** [d.get(k)] *)
Fixpoint dict_get {K V} `{EqDecision K} (k : K) (d : list (K * V)) : option V :=
  match d with
  | [] => None
  | (k', v') :: r => if decide (k' = k) then Some v' else dict_get k r
  end.

(** The dictionary built from a sequence of pairs, later pairs winning. *)
Definition dict_of_pairs {K V} `{EqDecision K} (l : list (K * V)) : list (K * V) :=
  fold_left (fun d kv => dict_set (fst kv) (snd kv) d) l [].

(** [json.dumps]: [None] is the [TypeError] of a value that is not
    serializable.  Tuples are written as arrays. *)
Fixpoint dumps (v : pyval) : option json :=
  match v with
  | VNone => Some JNull
  | VBool b => Some (JBool b)
  | VNum z => Some (JNum z)
  | VStr s => Some (JStr s)
  | VList l | VTuple l =>
      JArr <$> (fix go (l : list pyval) : option (list json) :=
                  match l with
                  | [] => Some []
                  | x :: r =>
                      match dumps x, go r with
                      | Some j, Some js => Some (j :: js)
                      | _, _ => None
                      end
                  end) l
  | VDict d =>
      JObj <$> (fix go (d : list (string * pyval)) : option (list (string * json)) :=
                  match d with
                  | [] => Some []
                  | (k, x) :: r =>
                      match dumps x, go r with
                      | Some j, Some js => Some ((k, j) :: js)
                      | _, _ => None
                      end
                  end) d
  | VObject _ => None
  end.

(** [json.loads] on a parsed document: arrays become lists, objects become
    dictionaries (a repeated key keeps its last value). *)
Fixpoint loads (j : json) : pyval :=
  match j with
  | JNull => VNone
  | JBool b => VBool b
  | JNum z => VNum z
  | JStr s => VStr s
  | JArr l => VList (map loads l)
  | JObj l => VDict (dict_of_pairs (map (fun p => (fst p, loads (snd p))) l))
  end.

(** [hash(v)] succeeds: the key a value is looked up under, [None] for the
    [TypeError] of an unhashable value (a list or a dictionary, or a tuple
    holding one). *)
Fixpoint key_of (v : pyval) : option tkey :=
  match v with
  | VNone => Some KNone
  | VBool b => Some (KNum (if b then 1 else 0))
  | VNum z => Some (KNum z)
  | VStr s => Some (KStr s)
  | VTuple l =>
      KTuple <$> (fix go (l : list pyval) : option (list tkey) :=
                    match l with
                    | [] => Some []
                    | x :: r =>
                        match key_of x, go r with
                        | Some k, Some ks => Some (k :: ks)
                        | _, _ => None
                        end
                    end) l
  | VObject n => Some (KObject n)
  | VList _ | VDict _ => None
  end.

Fixpoint tkey_eqb (a b : tkey) {struct a} : bool :=
  match a, b with
  | KNone, KNone => true
  | KNum x, KNum y => Z.eqb x y
  | KStr x, KStr y => String.eqb x y
  | KObject x, KObject y => Nat.eqb x y
  | KTuple l, KTuple l' =>
      (fix go (l l' : list tkey) {struct l} : bool :=
         match l, l' with
         | [], [] => true
         | x :: r, y :: r' => tkey_eqb x y && go r r'
         | _, _ => false
         end) l l'
  | _, _ => false
  end.

Lemma tkey_eqb_eq (a b : tkey) : tkey_eqb a b = true <-> a = b.
Proof.
  revert a b. fix tkey_eqb_eq 1. intros a b.
  destruct a as [|x|x|l|x], b as [|y|y|l'|y]; simpl;
    try (split; [discriminate | intros H; discriminate H]);
    try (split; reflexivity).
  - rewrite Z.eqb_eq. split; [intros ->; reflexivity | intros [= ->]; reflexivity].
  - rewrite String.eqb_eq. split; [intros ->; reflexivity | intros [= ->]; reflexivity].
  - revert l'. induction l as [|x r IH]; intros [|y r']; simpl;
      try (split; [discriminate | intros H; discriminate H]);
      try (split; reflexivity).
    rewrite andb_true_iff, (tkey_eqb_eq x y), (IH r').
    split; [intros [-> [= ->]]; reflexivity | intros [= -> ->]; split; reflexivity].
  - rewrite Nat.eqb_eq. split; [intros ->; reflexivity | intros [= ->]; reflexivity].
Qed.

#[global] Instance tkey_eq_dec : EqDecision tkey.
Proof.
  intros a b. destruct (tkey_eqb a b) eqn:E.
  - left. apply tkey_eqb_eq, E.
  - right. intros H. apply tkey_eqb_eq in H. congruence.
Defined.

(** ** Job records *)

(** [class JobStatus] *)
Module JobStatus.
Definition QUEUED : string := "queued".
Definition RUNNING : string := "running".
Definition SUCCESS : string := "success".
Definition FAILED : string := "failed".
End JobStatus.

(** The instance attributes of a [Job]. *)
Record Job : Type := mkJob {
  id : pyval;
  repo_url : pyval;
  repo_type : pyval;
  status : pyval;
  error : pyval;
  progress : pyval;
  created_at : pyval;
  updated_at : pyval;
  metadata : pyval
}.

(** [Job.__init__]: [new_id] is [str(uuid.uuid4())], [now] is [time.time()]. *)
Definition Job_init (new_id : string) (now : Z) (url type meta : pyval) : Job :=
  {| id := VStr new_id;
     repo_url := url;
     repo_type := type;
     status := VStr JobStatus.QUEUED;
     error := VNone;
     progress := VNone;
     created_at := VNum now;
     updated_at := VNum now;
     metadata := meta |}.

(** [Job.to_dict] *)
Definition to_dict (job : Job) : list (string * pyval) :=
  [ ("id", id job);
    ("repo_url", repo_url job);
    ("repo_type", repo_type job);
    ("status", status job);
    ("error", error job);
    ("progress", progress job);
    ("created_at", created_at job);
    ("updated_at", updated_at job);
    ("metadata", metadata job) ].

Definition job_attributes : list string :=
  [ "id"; "repo_url"; "repo_type"; "status"; "error"; "progress";
    "created_at"; "updated_at"; "metadata" ].

(** [hasattr(job, k)] for a name found in the instance dictionary. *)
Definition hasattr (k : string) : bool := bool_decide (k ∈ job_attributes).

(** Names that Python resolves on the class rather than on the instance:
    the method [to_dict] and the double-underscore names.  [hasattr] answers
    [True] for them too, and assigning them is not covered by [setattr]
    below; statements about arbitrary keyword arguments exclude them. *)
Definition class_level (k : string) : bool :=
  String.eqb k "to_dict" || String.prefix "__" k.

Definition instance_level (kwargs : list (string * pyval)) : Prop :=
  Forall (fun kv => class_level (fst kv) = false) kwargs.

(** The keywords of a call [update_job(job_id, **kwargs)] that reach
    [**kwargs]: a keyword named [self] or [job_id] is bound to the parameter
    of that name, which has its argument already, and Python rejects the
    call with a [TypeError]. *)
Definition reaches_kwargs (kwargs : list (string * pyval)) : Prop :=
  Forall (fun kv => fst kv <> "self" /\ fst kv <> "job_id") kwargs.

(** [setattr(job, k, v)] on one of the instance attributes. *)
Definition setattr (job : Job) (k : string) (v : pyval) : Job :=
  if String.eqb k "id" then
    mkJob v (repo_url job) (repo_type job) (status job) (error job)
          (progress job) (created_at job) (updated_at job) (metadata job)
  else if String.eqb k "repo_url" then
    mkJob (id job) v (repo_type job) (status job) (error job)
          (progress job) (created_at job) (updated_at job) (metadata job)
  else if String.eqb k "repo_type" then
    mkJob (id job) (repo_url job) v (status job) (error job)
          (progress job) (created_at job) (updated_at job) (metadata job)
  else if String.eqb k "status" then
    mkJob (id job) (repo_url job) (repo_type job) v (error job)
          (progress job) (created_at job) (updated_at job) (metadata job)
  else if String.eqb k "error" then
    mkJob (id job) (repo_url job) (repo_type job) (status job) v
          (progress job) (created_at job) (updated_at job) (metadata job)
  else if String.eqb k "progress" then
    mkJob (id job) (repo_url job) (repo_type job) (status job) (error job)
          v (created_at job) (updated_at job) (metadata job)
  else if String.eqb k "created_at" then
    mkJob (id job) (repo_url job) (repo_type job) (status job) (error job)
          (progress job) v (updated_at job) (metadata job)
  else if String.eqb k "updated_at" then
    mkJob (id job) (repo_url job) (repo_type job) (status job) (error job)
          (progress job) (created_at job) v (metadata job)
  else if String.eqb k "metadata" then
    mkJob (id job) (repo_url job) (repo_type job) (status job) (error job)
          (progress job) (created_at job) (updated_at job) v
  else job.

(** The loop of [_update]:
    [for k, v in kwargs.items(): if hasattr(job, k): setattr(job, k, v)] *)
Fixpoint apply_kwargs (job : Job) (kwargs : list (string * pyval)) : Job :=
  match kwargs with
  | [] => job
  | (k, v) :: r =>
      apply_kwargs (if hasattr k then setattr job k v else job) r
  end.

(** ** The persistence backends *)

(** The file [~/.adalflow/job_store.json]. *)
Inductive file_state : Type :=
  | FAbsent                 (* [JOB_STORE_PATH.exists()] is false *)
  | FUnreadable             (* reading or parsing it raises *)
  | FDoc (j : json).        (* it holds the document [j] *)

(** The entry of the Redis server under the store's key. *)
Inductive redis_state : Type :=
  | RDown                   (* every call of the client raises *)
  | REmpty                  (* [client.get] returns nothing *)
  | RGarbled                (* the entry does not parse *)
  | RDoc (j : json).

(** What lies outside the process. *)
Record World : Type := mkWorld {
  mkdir_ok : bool;          (* [JOB_STORE_PATH.parent.mkdir] succeeds *)
  write_ok : bool;          (* [JOB_STORE_PATH.write_text] succeeds *)
  file : file_state;
  redis : redis_state
}.

Definition set_file (w : World) (f : file_state) : World :=
  mkWorld (mkdir_ok w) (write_ok w) f (redis w).

Definition set_redis (w : World) (r : redis_state) : World :=
  mkWorld (mkdir_ok w) (write_ok w) (file w) r.

Module RedisStore.
(** [RedisStore.load]: every failure is an empty list. *)
Definition load (w : World) : pyval :=
  match redis w with
  | RDoc j => loads j
  | RDown | REmpty | RGarbled => VList []
  end.

(** [RedisStore.save]: an unserializable payload or a failing write is
    ignored. *)
Definition save (data : pyval) (w : World) : World :=
  match dumps data, redis w with
  | Some j, (REmpty | RGarbled | RDoc _) => set_redis w (RDoc j)
  | _, _ => w
  end.
End RedisStore.

(** ** The manager *)

Inductive result (A : Type) : Type :=
  | Ok (a : A)
  | Raise (e : string).
Arguments Ok {A} a.
Arguments Raise {A} e.

(** Lock objects live in a heap; a cell holds the thread that owns the lock,
    if any.  [threading.Lock()] allocates the next cell. *)
Abbreviation heap := (list (option nat)).

Definition new_lock (h : heap) : nat * heap := (List.length h, (h ++ [None])%list).

Record JobManager : Type := mkJobManager {
  jobs : list (tkey * Job);           (* [self.jobs] *)
  lock : nat;                         (* [self.lock] *)
  max_workers : Z;                    (* the size of [self.executor] *)
  repo_locks : list (string * nat);   (* [self.repo_locks] *)
  redis_store : bool                  (* [self.redis_store] is not [None] *)
}.

Definition set_jobs (m : JobManager) (js : list (tkey * Job)) : JobManager :=
  mkJobManager js (lock m) (max_workers m) (repo_locks m) (redis_store m).

Definition set_repo_locks (m : JobManager) (rl : list (string * nat)) : JobManager :=
  mkJobManager (jobs m) (lock m) (max_workers m) rl (redis_store m).

(** What [uuid4()] and [time.time()] return while one [Job] is rebuilt by
    [_load_store]: the clock is read once in [Job.__init__] and once more for
    the default of [item.get("created_at", time.time())]. *)
Record fresh : Type := mkFresh {
  uuid4 : string;
  time_init : Z;
  time_default : Z
}.

(** [item.get(k, default)] on a loaded item. *)
Definition item_get (item : list (string * pyval)) (k : string) (default : pyval) : pyval :=
  match dict_get k item with
  | Some v => v
  | None => default
  end.

(** The body of the loop of [_load_store] for one dictionary [item]. *)
Definition job_of_item (f : fresh) (item : list (string * pyval)) : Job :=
  let job := Job_init (uuid4 f) (time_init f)
               (item_get item "repo_url" (VStr ""))
               (item_get item "repo_type" (VStr ""))
               (item_get item "metadata" (VDict [])) in
  let created := item_get item "created_at" (VNum (time_default f)) in
  {| id := item_get item "id" (id job);
     repo_url := repo_url job;
     repo_type := repo_type job;
     status := item_get item "status" (VStr JobStatus.QUEUED);
     error := item_get item "error" VNone;
     progress := item_get item "progress" VNone;
     created_at := created;
     updated_at := item_get item "updated_at" created;
     metadata := metadata job |}.

(** [for item in data: ...] over the elements of a list; [None] when an
    element is not a dictionary ([item.get] raises) or its id cannot be a
    key of [self.jobs]. *)
Fixpoint load_items (fr : nat -> fresh) (n : nat) (items : list pyval)
    (js : list (tkey * Job)) : option (list (tkey * Job)) :=
  match items with
  | [] => Some js
  | VDict item :: r =>
      let job := job_of_item (fr n) item in
      match key_of (id job) with
      | Some k => load_items fr (S n) r (dict_set k job js)
      | None => None
      end
  | _ :: _ => None
  end.

(** The elements [for item in data] visits; [None] when [data] is not
    iterable.  A dictionary yields its keys and a string its characters. *)
Definition iterate (data : pyval) : option (list pyval) :=
  match data with
  | VList l | VTuple l => Some l
  | VDict d => Some (map (fun kv => VStr (fst kv)) d)
  | VStr s => Some (map (fun c => VStr (String c EmptyString)) (list_ascii_of_string s))
  | VNone | VBool _ | VNum _ | VObject _ => None
  end.

(** The body of the [try] of [_load_store]; [None] is any exception. *)
Definition load_data (fr : nat -> fresh) (m : JobManager) (w : World)
  : option (list (tkey * Job)) :=
  if mkdir_ok w then
    data ← (if redis_store m then Some (RedisStore.load w)
            else match file w with
                 | FAbsent => Some (VList [])
                 | FUnreadable => None
                 | FDoc j => Some (loads j)
                 end);
    items ← iterate data;
    load_items fr 0 items (jobs m)
  else None.

(** [JobManager._load_store] *)
Definition _load_store (fr : nat -> fresh) (m : JobManager) (w : World) : JobManager :=
  match load_data fr m w with
  | Some js => set_jobs m js
  | None => set_jobs m []
  end.

(** [[job.to_dict() for job in self.jobs.values()]] *)
Definition payload (m : JobManager) : pyval :=
  VList (map (fun kj => VDict (to_dict (snd kj))) (jobs m)).

(** [JobManager._persist]: errors are ignored. *)
Definition _persist (m : JobManager) (w : World) : World :=
  if redis_store m then RedisStore.save (payload m) w
  else match dumps (payload m) with
       | Some j => if write_ok w then set_file w (FDoc j) else w
       | None => w
       end.

(** [JobManager.__init__].  [RedisStore_imported] tells whether the import at
    the top of the module succeeded, [client_ok] whether [RedisStore(url)]
    returns.  The lock is allocated in [h]. *)
Definition JobManager_init (h : heap) (fr : nat -> fresh) (workers : Z)
    (redis_url : option string) (RedisStore_imported client_ok : bool)
    (w : World) : result (JobManager * heap) :=
  let '(l, h') := new_lock h in
  if Z.leb workers 0 then Raise "max_workers must be greater than 0"
  else
    let rs := match redis_url with
              | Some u => negb (String.eqb u "") && RedisStore_imported && client_ok
              | None => false
              end in
    Ok (_load_store fr (mkJobManager [] l workers [] rs) w, h').

(** The block of [create_job] under [self.lock]:
    [self.jobs[job.id] = job; self._persist()]. *)
Definition insert_job (k : tkey) (job : Job) (m : JobManager) (w : World)
  : JobManager * World :=
  let m' := set_jobs m (dict_set k job (jobs m)) in
  (m', _persist m' w).

(** The body of [_update] under [self.lock].  The job is mutated in place:
    the table keeps it under the key it was found at. *)
Definition _update (job_id : tkey) (kwargs : list (string * pyval)) (now : Z)
    (m : JobManager) (w : World) : JobManager * World :=
  match dict_get job_id (jobs m) with
  | None => (m, w)
  | Some job =>
      let job' := setattr (apply_kwargs job kwargs) "updated_at" (VNum now) in
      let m' := set_jobs m (dict_set job_id job' (jobs m)) in
      (m', _persist m' w)
  end.

(** [JobManager.update_job] *)
Definition update_job := _update.

(** [JobManager.list_jobs] *)
Definition list_jobs (m : JobManager) : list (list (string * pyval)) :=
  map (fun kj => to_dict (snd kj)) (jobs m).

(** [JobManager.get_job]: [None] is Python's [None]. *)
Definition get_job (job_id : tkey) (m : JobManager) : option (list (string * pyval)) :=
  to_dict <$> dict_get job_id (jobs m).

(** [JobManager._get_repo_lock] under [self.lock]: the lock of [url], made on
    first use. *)
Definition _get_repo_lock (url : string) (m : JobManager) (h : heap)
  : nat * JobManager * heap :=
  match dict_get url (repo_locks m) with
  | Some l => (l, m, h)
  | None =>
      let '(l, h') := new_lock h in
      (l, set_repo_locks m (dict_set url l (repo_locks m)), h')
  end.

(** The mutex each block runs under.  [_get_repo_lock] opens with
    [with self.lock:], and so do [create_job], [_update], [list_jobs] and
    [get_job]. *)
Definition registry_mutex (m : JobManager) : nat := lock m.
Definition table_mutex (m : JobManager) : nat := lock m.

(** ** Sequences of manager operations

    Every access to the job table runs under [self.lock], so the table and
    the store evolve by a sequence of the atomic blocks below. *)

(** The keyword arguments of the three calls of [_update] in [_run]. *)
Definition running_kwargs : list (string * pyval) :=
  [("status", VStr JobStatus.RUNNING); ("progress", VStr "starting")].

Definition success_kwargs : list (string * pyval) :=
  [("status", VStr JobStatus.SUCCESS); ("progress", VStr "done")].

Definition failed_kwargs (e : string) : list (string * pyval) :=
  [("status", VStr JobStatus.FAILED); ("error", VStr e); ("progress", VStr "error")].

(** The last update of [_run]: the task returned ([None]) or raised an
    exception whose [str] is [e]. *)
Definition finish_kwargs (outcome : option string) : list (string * pyval) :=
  match outcome with
  | None => success_kwargs
  | Some e => failed_kwargs e
  end.

(** The type name in the message of the [TypeError] of [hash(v)]. *)
Fixpoint unhashable_type (v : pyval) : string :=
  match v with
  | VList _ => "list"
  | VDict _ => "dict"
  | VTuple l =>
      (fix go (l : list pyval) : string :=
         match l with
         | [] => ""
         | x :: r => match key_of x with
                     | None => unhashable_type x
                     | Some _ => go r
                     end
         end) l
  | _ => ""
  end.

Definition unhashable (v : pyval) : string :=
  "unhashable type: '" ++ unhashable_type v ++ "'".

(** [self._update(v, **kwargs)] for the value [v] that [job.id] evaluated
    to: an unhashable [v] raises in [self.jobs.get] and nothing is changed. *)
Definition update_by_value (v : pyval) (kwargs : list (string * pyval)) (now : Z)
    (m : JobManager) (w : World) : result (JobManager * World) :=
  match key_of v with
  | Some k => Ok (_update k kwargs now m w)
  | None => Raise (unhashable v)
  end.

(** [self._update(job.id, **kwargs)] as [_run] calls it: [job] is the object
    inserted under [handle]; its [id] attribute is read at the call. *)
Definition worker_update (handle : tkey) (kwargs : list (string * pyval)) (now : Z)
    (m : JobManager) (w : World) : result (JobManager * World) :=
  match dict_get handle (jobs m) with
  | Some job => update_by_value (id job) kwargs now m w
  | None => Ok (m, w)
  end.

(** The atomic blocks: the insertion of [create_job], a call of
    [update_job], and the two updates of [_run].  An update of [_run] that
    raises changes nothing; the update its handler then makes is a further
    operation. *)
Inductive op : Type :=
  | Create (new_id : string) (now : Z) (url type : string) (meta : pyval)
  | UpdateJob (job_id : tkey) (kwargs : list (string * pyval)) (now : Z)
  | WorkerRunning (handle : tkey) (now : Z)
  | WorkerFinish (handle : tkey) (outcome : option string) (now : Z).

Definition exec (o : op) (st : JobManager * World) : JobManager * World :=
  match o with
  | Create new_id now url type meta =>
      insert_job (KStr new_id) (Job_init new_id now (VStr url) (VStr type) meta)
                 (fst st) (snd st)
  | UpdateJob k kwargs now => update_job k kwargs now (fst st) (snd st)
  | WorkerRunning h now =>
      match worker_update h running_kwargs now (fst st) (snd st) with
      | Ok st' => st'
      | Raise _ => st
      end
  | WorkerFinish h outcome now =>
      match worker_update h (finish_kwargs outcome) now (fst st) (snd st) with
      | Ok st' => st'
      | Raise _ => st
      end
  end.

Definition run (ops : list op) (st : JobManager * World) : JobManager * World :=
  fold_left (fun st o => exec o st) ops st.

(** The value of attribute [f] of the record under [k] after each operation. *)
Fixpoint history {A} (f : Job -> A) (k : tkey) (ops : list op)
    (st : JobManager * World) : list (option A) :=
  match ops with
  | [] => []
  | o :: r =>
      let st' := exec o st in
      (f <$> dict_get k (jobs (fst st'))) :: history f k r st'
  end.

(** The clock reading an operation carries. *)
Definition reading (o : op) : Z :=
  match o with
  | Create _ now _ _ _ | UpdateJob _ _ now | WorkerRunning _ now
  | WorkerFinish _ _ now => now
  end.

(** The keyword names an operation passes to [_update]. *)
Definition keywords (o : op) : list string :=
  match o with
  | Create _ _ _ _ _ => []
  | UpdateJob _ kwargs _ => map fst kwargs
  | WorkerRunning _ _ => map fst running_kwargs
  | WorkerFinish _ outcome _ => map fst (finish_kwargs outcome)
  end.

(** ** Threads

    The interleavings of the threads that call into the manager.  A step is
    one atomic action of one thread: taking a lock, the body of a [with]
    block together with the release that ends it, or an action outside any
    lock. *)

(** What a task function does while it runs: it calls [update_job] on the
    manager, and it assigns attributes of the [job] object it was given,
    which is the object the table holds. *)
Inductive action : Type :=
  | Call (k : tkey) (kwargs : list (string * pyval))   (* [update_job(k, **kwargs)] *)
  | Assign (a : string) (v : pyval).                    (* [job.a = v] *)

(** What a task function raises: an exception that [except Exception]
    catches, or one that it lets through ([KeyboardInterrupt], [SystemExit]
    and the other classes that derive from [BaseException] only).  [m] is
    [str(e)]. *)
Inductive raised : Type :=
  | Exception (m : string)
  | BaseException (m : string).

(** A task function: what it does, in order, and then how it ends: it
    returns ([None]) or it raises. *)
Record task : Type := mkTask {
  actions : list action;
  outcome : option raised
}.

(** The exception of the task that the handler of [_run] receives. *)
Definition caught (o : option raised) : option string :=
  match o with
  | Some (Exception m) => Some m
  | _ => None
  end.

(** [job.a = v] by the task, on the object the table holds under [h].  The
    assignment takes no lock, reads no clock and writes no store.  A name
    that is none of the nine attributes becomes a new instance attribute,
    which [to_dict] does not show. *)
Definition assign (h : tkey) (a : string) (v : pyval) (m : JobManager) : JobManager :=
  match dict_get h (jobs m) with
  | Some job => set_jobs m (dict_set h (setattr job a v) (jobs m))
  | None => m
  end.

(** The closure [_run] that [create_job] submits: [job] (through the key it
    was inserted under), [repo_url] and [task]. *)
Record work : Type := mkWork {
  handle : tkey;
  url : string;
  body : task
}.

(** Where a thread running [create_job] stands. *)
Inductive cpc : Type :=
  | CNew                                  (* before [Job(...)] *)
  | CLock (new_id : string) (job : Job)   (* waiting for [self.lock] *)
  | CIn (new_id : string) (job : Job)     (* inside [with self.lock] *)
  | CSubmit (new_id : string)             (* before [self.executor.submit] *)
  | CReturned (new_id : string).

(** Where a pool thread running [_run] stands.  [l] is [repo_lock]; [v] is
    the value [job.id] had when the argument of [_update] was evaluated. *)
Inductive wpc : Type :=
  | WRegistry                             (* [_get_repo_lock]: waiting for [self.lock] *)
  | WRegistryIn                           (* inside its [with self.lock] *)
  | WWait (l : nat)                       (* waiting for [repo_lock] *)
  | WRunningId (l : nat)                  (* before [_update(job.id, RUNNING)] *)
  | WRunningLock (l : nat) (v : pyval)
  | WRunningIn (l : nat) (v : pyval)
  | WTask (l : nat) (todo : list action)
  | WTaskIn (l : nat) (k : tkey) (kwargs : list (string * pyval))
            (todo : list action)
  | WFinishId (l : nat) (res : option string)   (* before the last [_update] *)
  | WFinishLock (l : nat) (res : option string) (v : pyval)
  | WFinishIn (l : nat) (res : option string) (v : pyval)
  | WRelease (l : nat) (exc : option string)    (* leaving [with repo_lock] *)
  | WDone (exc : option string).                (* [exc]: what escaped [_run] *)

Inductive upc : Type := UWait | UIn | UDone.

Inductive gpc : Type :=
  | GWait
  | GIn
  | GDone (r : option (list (string * pyval))).

Inductive thread : Type :=
  | TCreate (u type : string) (meta : pyval) (b : task) (pc : cpc)
  | TWorker (wk : work) (pc : wpc)
  | TUpdate (k : tkey) (kwargs : list (string * pyval)) (pc : upc)
  | TGet (k : tkey) (pc : gpc).

(** The state the threads share. *)
Record Shared : Type := mkShared {
  mgr : JobManager;
  world : World;
  locks : heap;
  queue : list work;          (* the work queue of [self.executor] *)
  issued : list string        (* the identifiers [uuid4] has returned *)
}.

(** [lock.acquire()] by thread [t] returns when the lock is free. *)
Definition acquire (l t : nat) (h : heap) : option heap :=
  match h !! l with
  | Some None => Some (<[l := Some t]> h)
  | _ => None
  end.

(** [lock.release()] *)
Definition release (l : nat) (h : heap) : heap := <[l := None]> h.

Definition with_locks (g : Shared) (h : heap) : Shared :=
  mkShared (mgr g) (world g) h (queue g) (issued g).

Definition with_table (g : Shared) (st : JobManager * World) (h : heap) : Shared :=
  mkShared (fst st) (snd st) h (queue g) (issued g).

(** One step of thread [t].  A thread waiting for a lock steps when the lock
    is free.  [uuid4()] returns an identifier that was never returned before
    and is not in the table ([c_new]); [time.time()] returns any number.
    The job a thread works on is the object the table holds under the key
    it was inserted at, so its [id] attribute is read there. *)
Inductive tstep (t : nat) : thread -> Shared -> thread -> Shared -> Prop :=
  (* create_job *)
  | c_new u ty me b g new_id now :
      new_id ∉ issued g ->
      dict_get (KStr new_id) (jobs (mgr g)) = None ->
      tstep t (TCreate u ty me b CNew) g
              (TCreate u ty me b (CLock new_id (Job_init new_id now (VStr u) (VStr ty) me)))
              (mkShared (mgr g) (world g) (locks g) (queue g) (new_id :: issued g))
  | c_lock u ty me b g new_id job h :
      acquire (table_mutex (mgr g)) t (locks g) = Some h ->
      tstep t (TCreate u ty me b (CLock new_id job)) g
              (TCreate u ty me b (CIn new_id job)) (with_locks g h)
  | c_insert u ty me b g new_id job :
      tstep t (TCreate u ty me b (CIn new_id job)) g
              (TCreate u ty me b (CSubmit new_id))
              (with_table g (insert_job (KStr new_id) job (mgr g) (world g))
                          (release (table_mutex (mgr g)) (locks g)))
  | c_submit u ty me b g new_id :
      tstep t (TCreate u ty me b (CSubmit new_id)) g
              (TCreate u ty me b (CReturned new_id))
              (mkShared (mgr g) (world g) (locks g)
                        (queue g ++ [mkWork (KStr new_id) u b]) (issued g))
  (* _run: _get_repo_lock *)
  | w_registry wk g h :
      acquire (registry_mutex (mgr g)) t (locks g) = Some h ->
      tstep t (TWorker wk WRegistry) g (TWorker wk WRegistryIn) (with_locks g h)
  | w_registry_in wk g l m h :
      _get_repo_lock (url wk) (mgr g) (locks g) = (l, m, h) ->
      tstep t (TWorker wk WRegistryIn) g (TWorker wk (WWait l))
              (mkShared m (world g) (release (registry_mutex m) h) (queue g) (issued g))
  (* _run: with repo_lock *)
  | w_wait wk g l h :
      acquire l t (locks g) = Some h ->
      tstep t (TWorker wk (WWait l)) g (TWorker wk (WRunningId l)) (with_locks g h)
  (* _run: self._update(job.id, status=RUNNING, progress="starting") *)
  | w_running_id wk g l job :
      dict_get (handle wk) (jobs (mgr g)) = Some job ->
      tstep t (TWorker wk (WRunningId l)) g (TWorker wk (WRunningLock l (id job))) g
  | w_running_lock wk g l v h :
      acquire (table_mutex (mgr g)) t (locks g) = Some h ->
      tstep t (TWorker wk (WRunningLock l v)) g (TWorker wk (WRunningIn l v)) (with_locks g h)
  | w_running_in wk g l v now st :
      update_by_value v running_kwargs now (mgr g) (world g) = Ok st ->
      tstep t (TWorker wk (WRunningIn l v)) g (TWorker wk (WTask l (actions (body wk))))
              (with_table g st (release (table_mutex (mgr g)) (locks g)))
  | w_running_raise wk g l v now e :
      update_by_value v running_kwargs now (mgr g) (world g) = Raise e ->
      tstep t (TWorker wk (WRunningIn l v)) g (TWorker wk (WRelease l (Some e)))
              (with_locks g (release (table_mutex (mgr g)) (locks g)))
  (* _run: task(job) *)
  | w_task_call wk g l k kw todo h :
      acquire (table_mutex (mgr g)) t (locks g) = Some h ->
      tstep t (TWorker wk (WTask l (Call k kw :: todo))) g
              (TWorker wk (WTaskIn l k kw todo)) (with_locks g h)
  | w_task_in wk g l k kw todo now :
      tstep t (TWorker wk (WTaskIn l k kw todo)) g (TWorker wk (WTask l todo))
              (with_table g (update_job k kw now (mgr g) (world g))
                          (release (table_mutex (mgr g)) (locks g)))
  | w_task_assign wk g l a v todo :
      tstep t (TWorker wk (WTask l (Assign a v :: todo))) g (TWorker wk (WTask l todo))
              (mkShared (assign (handle wk) a v (mgr g)) (world g) (locks g)
                        (queue g) (issued g))
  | w_task_end wk g l res :
      (* the task returns, or raises what [except Exception] catches *)
      outcome (body wk) = Exception <$> res ->
      tstep t (TWorker wk (WTask l [])) g (TWorker wk (WFinishId l res)) g
  | w_task_escape wk g l m :
      (* the task raises what [except Exception] lets through *)
      outcome (body wk) = Some (BaseException m) ->
      tstep t (TWorker wk (WTask l [])) g (TWorker wk (WRelease l (Some m))) g
  (* _run: the last self._update(job.id, ...) *)
  | w_finish_id wk g l res job :
      dict_get (handle wk) (jobs (mgr g)) = Some job ->
      tstep t (TWorker wk (WFinishId l res)) g (TWorker wk (WFinishLock l res (id job))) g
  | w_finish_lock wk g l res v h :
      acquire (table_mutex (mgr g)) t (locks g) = Some h ->
      tstep t (TWorker wk (WFinishLock l res v)) g (TWorker wk (WFinishIn l res v)) (with_locks g h)
  | w_finish_in wk g l res v now st :
      update_by_value v (finish_kwargs res) now (mgr g) (world g) = Ok st ->
      tstep t (TWorker wk (WFinishIn l res v)) g (TWorker wk (WRelease l None))
              (with_table g st (release (table_mutex (mgr g)) (locks g)))
  | w_finish_caught wk g l v now e :
      (* the update of the [try] block raised: the handler takes over *)
      update_by_value v (finish_kwargs None) now (mgr g) (world g) = Raise e ->
      tstep t (TWorker wk (WFinishIn l None v)) g (TWorker wk (WFinishId l (Some e)))
              (with_locks g (release (table_mutex (mgr g)) (locks g)))
  | w_finish_raise wk g l v now e e' :
      (* the update of the handler raised *)
      update_by_value v (finish_kwargs (Some e)) now (mgr g) (world g) = Raise e' ->
      tstep t (TWorker wk (WFinishIn l (Some e) v)) g (TWorker wk (WRelease l (Some e')))
              (with_locks g (release (table_mutex (mgr g)) (locks g)))
  | w_release wk g l exc :
      tstep t (TWorker wk (WRelease l exc)) g (TWorker wk (WDone exc))
              (with_locks g (release l (locks g)))
  (* update_job *)
  | u_lock k kw g h :
      acquire (table_mutex (mgr g)) t (locks g) = Some h ->
      tstep t (TUpdate k kw UWait) g (TUpdate k kw UIn) (with_locks g h)
  | u_body k kw g now :
      tstep t (TUpdate k kw UIn) g (TUpdate k kw UDone)
              (with_table g (update_job k kw now (mgr g) (world g))
                          (release (table_mutex (mgr g)) (locks g)))
  (* get_job *)
  | g_lock k g h :
      acquire (table_mutex (mgr g)) t (locks g) = Some h ->
      tstep t (TGet k GWait) g (TGet k GIn) (with_locks g h)
  | g_body k g :
      tstep t (TGet k GIn) g (TGet k (GDone (get_job k (mgr g))))
              (with_locks g (release (table_mutex (mgr g)) (locks g))).

Record Sys : Type := mkSys {
  shared : Shared;
  threads : list thread
}.

(** Keyword arguments that name no class-level attribute. *)
Definition plain_kwargs (kwargs : list (string * pyval)) : bool :=
  forallb (fun kv => negb (class_level (fst kv))) kwargs.

(** An action of a task that names no class-level attribute. *)
Definition plain_action (c : action) : bool :=
  match c with
  | Call _ kwargs => plain_kwargs kwargs
  | Assign a _ => negb (class_level a)
  end.

(** A thread at the start of a call of the public interface.  The keyword
    arguments of [update_job], in the call or in the task, and the
    attributes a task assigns are instance level. *)
Definition entering (th : thread) : bool :=
  match th with
  | TCreate _ _ _ b CNew => forallb plain_action (actions b)
  | TUpdate _ kwargs UWait => plain_kwargs kwargs
  | TGet _ GWait => true
  | _ => false
  end.

(** A pool thread that has not finished its work item. *)
Definition busy (th : thread) : bool :=
  match th with
  | TWorker _ (WDone _) => false
  | TWorker _ _ => true
  | _ => false
  end.

Definition busy_workers (s : Sys) : nat := List.length (filter (fun th => busy th = true) (threads s)).

Inductive step : Sys -> Sys -> Prop :=
  | step_thread s t th th' g' :
      threads s !! t = Some th ->
      tstep t th (shared s) th' g' ->
      step s (mkSys g' (<[t := th']> (threads s)))
  | step_call s th :
      (* some thread calls [create_job], [update_job] or [get_job] *)
      entering th = true ->
      step s (mkSys (shared s) (threads s ++ [th]))
  | step_pool s wk q :
      (* the pool hands the oldest work item to a thread, if one is left *)
      queue (shared s) = wk :: q ->
      (Z.of_nat (busy_workers s) < max_workers (mgr (shared s)))%Z ->
      step s (mkSys (mkShared (mgr (shared s)) (world (shared s)) (locks (shared s))
                              q (issued (shared s)))
                    (threads s ++ [TWorker wk WRegistry]))
  | step_world s w' :
      (* the file system or the Redis server changes *)
      step s (mkSys (mkShared (mgr (shared s)) w' (locks (shared s))
                              (queue (shared s)) (issued (shared s)))
                    (threads s)).

(** The state a successful construction of the manager leaves. *)
Definition initial (s : Sys) : Prop :=
  exists fr workers redis_url imported ok w m h,
    JobManager_init [] fr workers redis_url imported ok w = Ok (m, h) /\
    s = mkSys (mkShared m w h [] []) [].

Definition reachable (s : Sys) : Prop :=
  exists s0, initial s0 /\ rtc step s0 s.

(** Thread [t] is between acquiring and releasing the lock of its
    repository: inside [with repo_lock]. *)
Definition in_repo_section (th : thread) : option (string * nat) :=
  match th with
  | TWorker wk (WRunningId l | WRunningLock l _ | WRunningIn l _ | WTask l _
               | WTaskIn l _ _ _ | WFinishId l _ | WFinishLock l _ _
               | WFinishIn l _ _ | WRelease l _) => Some (url wk, l)
  | _ => None
  end.

(** Thread [t] is inside the task function. *)
Definition in_task (th : thread) : bool :=
  match th with
  | TWorker _ (WTask _ _ | WTaskIn _ _ _ _) => true
  | _ => false
  end.

(** Thread [t] is inside a [with self.lock] block. *)
Definition in_table_section (th : thread) : bool :=
  match th with
  | TCreate _ _ _ _ (CIn _ _) => true
  | TWorker _ (WRegistryIn | WRunningIn _ _ | WTaskIn _ _ _ _ | WFinishIn _ _ _) => true
  | TUpdate _ _ UIn => true
  | TGet _ GIn => true
  | _ => false
  end.

(** A step of thread [t], on the pair of its own state and the shared one. *)
Definition local_step (t : nat) (x y : thread * Shared) : Prop :=
  tstep t (fst x) (snd x) (fst y) (snd y).

(** ** Calls that run without interference

    What a call does when thread [t] runs it from start to end while no
    other thread moves; [None] when it would wait for a lock.  [clock n] is
    the reading of the clock at the [n]-th action of the call; an action
    that does not read the clock leaves its reading unused. *)

(** [with self.lock: self._update body] for the value [v] of [job.id]; the
    first component is the exception that leaves the block, if any. *)
Definition locked_update (t : nat) (v : pyval) (kwargs : list (string * pyval))
    (now : Z) (g : Shared) : option (option string * Shared) :=
  h ← acquire (table_mutex (mgr g)) t (locks g);
  Some (match update_by_value v kwargs now (mgr g) (world g) with
        | Ok st => (None, with_table g st (release (table_mutex (mgr g)) h))
        | Raise e => (Some e, with_locks g (release (table_mutex (mgr g)) h))
        end).

(** The actions of the task on the job under [hd], in order. *)
Fixpoint run_calls (t : nat) (hd : tkey) (todo : list action)
    (clock : nat -> Z) (n : nat) (g : Shared) : option Shared :=
  match todo with
  | [] => Some g
  | Call k kw :: r =>
      h ← acquire (table_mutex (mgr g)) t (locks g);
      run_calls t hd r clock (S n)
        (with_table g (update_job k kw (clock n) (mgr g) (world g))
                    (release (table_mutex (mgr g)) h))
  | Assign a v :: r =>
      run_calls t hd r clock (S n)
        (mkShared (assign hd a v (mgr g)) (world g) (locks g) (queue g) (issued g))
  end.

(** [_run], the closure of [create_job]; the first component of the result
    is the exception that escapes it, if any. *)
Definition _run (t : nat) (wk : work) (clock : nat -> Z) (g : Shared)
  : option (option string * Shared) :=
  h1 ← acquire (registry_mutex (mgr g)) t (locks g);
  let '(l, m1, h2) := _get_repo_lock (url wk) (mgr g) h1 in
  let g1 := mkShared m1 (world g) (release (registry_mutex m1) h2) (queue g) (issued g) in
  h3 ← acquire l t (locks g1);
  let g2 := with_locks g1 h3 in
  job ← dict_get (handle wk) (jobs (mgr g2));
  r1 ← locked_update t (id job) running_kwargs (clock 0%nat) g2;
  match r1 with
  | (Some e, g3) => Some (Some e, with_locks g3 (release l (locks g3)))
  | (None, g3) =>
      g4 ← run_calls t (handle wk) (actions (body wk)) clock 1 g3;
      let n := S (List.length (actions (body wk))) in
      match outcome (body wk) with
      | Some (BaseException m) => Some (Some m, with_locks g4 (release l (locks g4)))
      | ending =>
          job' ← dict_get (handle wk) (jobs (mgr g4));
          r2 ← locked_update t (id job') (finish_kwargs (caught ending)) (clock n) g4;
          match r2, caught ending with
          | (None, g5), _ => Some (None, with_locks g5 (release l (locks g5)))
          | (Some e, g5), None =>
              job'' ← dict_get (handle wk) (jobs (mgr g5));
              r3 ← locked_update t (id job'') (finish_kwargs (Some e)) (clock (S n)) g5;
              Some (fst r3, with_locks (snd r3) (release l (locks (snd r3))))
          | (Some e, g5), Some _ => Some (Some e, with_locks g5 (release l (locks g5)))
          end
      end
  end.

(** [create_job]: the job it returns and the state it leaves. *)
Definition create_job (t : nat) (new_id : string) (now : Z) (u ty : string)
    (meta : pyval) (b : task) (g : Shared) : option (Job * Shared) :=
  let job := Job_init new_id now (VStr u) (VStr ty) meta in
  h ← acquire (table_mutex (mgr g)) t (locks g);
  let st := insert_job (KStr new_id) job (mgr g) (world g) in
  Some (job, mkShared (fst st) (snd st) (release (table_mutex (mgr g)) h)
                      (queue g ++ [mkWork (KStr new_id) u b]) (new_id :: issued g)).

(** ** Predicates of the statements *)

(** [getattr(job, a)] on the instance attributes. *)
Definition getattr (job : Job) (a : string) : option pyval :=
  dict_get a (to_dict job).


(** Every record sits under the key its [id] attribute hashes to, as
    [create_job] and [_load_store] insert it. *)
Definition ids_consistent (js : list (tkey * Job)) : Prop :=
  Forall (fun kj => key_of (id (snd kj)) = Some (fst kj)) js.

(** The place of a status in [queued -> running -> success | failed]. *)
Definition status_rank (s : string) : option nat :=
  if String.eqb s JobStatus.QUEUED then Some 0%nat
  else if String.eqb s JobStatus.RUNNING then Some 1%nat
  else if String.eqb s JobStatus.SUCCESS then Some 2%nat
  else if String.eqb s JobStatus.FAILED then Some 2%nat
  else None.

(** [new] may follow [old]: the status stays, or moves forward. *)
Definition advances (old new : pyval) : bool :=
  match old, new with
  | VStr a, VStr b =>
      match status_rank a, status_rank b with
      | Some i, Some j => String.eqb a b || Nat.ltb i j
      | _, _ => false
      end
  | _, _ => false
  end.

(** The statuses [l] observed after [cur] never regress. *)
Fixpoint lifecycle_from (cur : pyval) (l : list (option pyval)) : bool :=
  match l with
  | [] => true
  | Some s :: r => advances cur s && lifecycle_from s r
  | None :: _ => false
  end.

(** An operation that does not assign the status of the record under [k]
    and leaves every [id] alone: a [create_job] of another record, an
    [update_job] without these keywords, an update by the worker of another
    record. *)
Definition quiet (k : tkey) (o : op) : Prop :=
  match o with
  | Create new_id _ _ _ _ => KStr new_id <> k
  | UpdateJob k' kwargs _ =>
      instance_level kwargs /\ ("id" ∉ map fst kwargs) /\
      (k' = k -> "status" ∉ map fst kwargs)
  | WorkerRunning h _ | WorkerFinish h _ _ => h <> k
  end.

(** The attributes that are to stay as [create_job] set them. *)
Definition fixed_attributes : list string :=
  [ "id"; "repo_url"; "repo_type"; "created_at"; "metadata" ].

(** An operation that names none of the fixed attributes and does not
    insert a record under [k]. *)
Definition framed (k : tkey) (o : op) : Prop :=
  match o with
  | Create new_id _ _ _ _ => KStr new_id <> k
  | UpdateJob _ kwargs _ =>
      instance_level kwargs /\
      forall a, a ∈ fixed_attributes -> a ∉ map fst kwargs
  | WorkerRunning _ _ | WorkerFinish _ _ _ => True
  end.

(** The public updates of [ops] pass instance attributes only. *)
Definition plain (o : op) : Prop :=
  match o with
  | UpdateJob _ kwargs _ => instance_level kwargs
  | _ => True
  end.

(** The readings of the clock along [ops] never go back, starting at [c]. *)
Fixpoint clock_monotone (c : Z) (ops : list op) : Prop :=
  match ops with
  | [] => True
  | o :: r => c <= reading o /\ clock_monotone (reading o) r
  end.

(** The time stamps [l] are numbers that never go back, starting at [t]. *)
Fixpoint nondecreasing_from (t : Z) (l : list (option pyval)) : Prop :=
  match l with
  | [] => True
  | Some (VNum t') :: r => t <= t' /\ nondecreasing_from t' r
  | _ :: _ => False
  end.

(** A value [json.loads (json.dumps v)] gives back unchanged: no tuple, no
    object the encoder refuses, and dictionaries without repeated keys. *)
Fixpoint json_native (v : pyval) : bool :=
  match v with
  | VNone | VBool _ | VNum _ | VStr _ => true
  | VList l => forallb json_native l
  | VDict d =>
      bool_decide (NoDup (map fst d)) &&
      forallb (fun kv => json_native (snd kv)) d
  | VTuple _ | VObject _ => false
  end.

Definition job_native (job : Job) : bool :=
  forallb (fun kv => json_native (snd kv)) (to_dict job).

(** A table as the manager builds it, out of values JSON can carry. *)
Definition table_native (js : list (tkey * Job)) : Prop :=
  ids_consistent js /\ NoDup (map fst js) /\
  Forall (fun kj => job_native (snd kj) = true) js.

(** A write of the table reaches the backend of [m]. *)
Definition store_writable (m : JobManager) (w : World) : Prop :=
  if redis_store m then redis w <> RDown else write_ok w = true.

(** The status the last update of [_run] assigns. *)
Definition terminal (res : option string) : pyval :=
  VStr (match res with None => JobStatus.SUCCESS | Some _ => JobStatus.FAILED end).

(** Two records agree on the attributes that are to stay. *)
Definition same_fixed (job' job : Job) : Prop :=
  forall a, a ∈ fixed_attributes -> getattr job' a = getattr job a.

(** The record a thread relies on: the job of a worker, the job a
    [create_job] has inserted. *)
Definition needs_record (th : thread) : option tkey :=
  match th with
  | TWorker wk _ => Some (handle wk)
  | TCreate _ _ _ _ (CSubmit new_id | CReturned new_id) => Some (KStr new_id)
  | _ => None
  end.

(** The job a [create_job] has built and not yet inserted. *)
Definition pending_job (th : thread) : option (string * Job) :=
  match th with
  | TCreate _ _ _ _ (CLock new_id job | CIn new_id job) => Some (new_id, job)
  | _ => None
  end.

(** The locks of the threads other than [t] are the same in [h] and [h']. *)
Definition others_same (t : nat) (h h' : list (option nat)) : Prop :=
  forall l t', t' <> t -> h !! l = Some (Some t') <-> h' !! l = Some (Some t').

(** What a step of thread [t] leaves in place for the other threads. *)
Record frame_ok (t : nat) (g g' : Shared) : Prop := {
  frame_lock : lock (mgr g') = lock (mgr g);
  frame_registry : forall u l,
    dict_get u (repo_locks (mgr g)) = Some l -> dict_get u (repo_locks (mgr g')) = Some l;
  frame_table : forall k,
    is_Some (dict_get k (jobs (mgr g))) -> is_Some (dict_get k (jobs (mgr g')));
  frame_locks : others_same t (locks g) (locks g');
  frame_length : (List.length (locks g) <= List.length (locks g'))%nat;
  frame_queue : forall wk,
    wk ∈ queue g' -> wk ∈ queue g \/ is_Some (dict_get (handle wk) (jobs (mgr g')))
}.

(** The invariant of the reachable states. *)
Record Inv (s : Sys) : Prop := {
  inv_lock : (lock (mgr (shared s)) < List.length (locks (shared s)))%nat;
  inv_registry : forall u l,
    dict_get u (repo_locks (mgr (shared s))) = Some l ->
    (l < List.length (locks (shared s)))%nat /\ l <> lock (mgr (shared s));
  inv_table_owner : forall t,
    locks (shared s) !! lock (mgr (shared s)) = Some (Some t) <->
    exists th, threads s !! t = Some th /\ in_table_section th = true;
  inv_repo_owner : forall t th u l,
    threads s !! t = Some th -> in_repo_section th = Some (u, l) ->
    locks (shared s) !! l = Some (Some t) /\
    dict_get u (repo_locks (mgr (shared s))) = Some l;
  inv_waiting : forall t wk l,
    threads s !! t = Some (TWorker wk (WWait l)) ->
    dict_get (url wk) (repo_locks (mgr (shared s))) = Some l;
  inv_records : forall t th k,
    threads s !! t = Some th -> needs_record th = Some k ->
    is_Some (dict_get k (jobs (mgr (shared s))));
  inv_queue : forall wk,
    wk ∈ queue (shared s) -> is_Some (dict_get (handle wk) (jobs (mgr (shared s))));
  inv_pending : forall t u ty me b pc new_id job,
    threads s !! t = Some (TCreate u ty me b pc) ->
    pending_job (TCreate u ty me b pc) = Some (new_id, job) ->
    exists now, job = Job_init new_id now (VStr u) (VStr ty) me
}.

(** A block that changes the table: the lock and the registry stay, no
    record goes away. *)
Definition table_step (m m' : JobManager) : Prop :=
  lock m' = lock m /\ repo_locks m' = repo_locks m /\
  forall k, is_Some (dict_get k (jobs m)) -> is_Some (dict_get k (jobs m')).

(** No thread holds a lock: every lock of the heap is free, [self.lock] is
    one of them and the locks of the registry are others. *)
Definition free (g : Shared) : Prop :=
  (lock (mgr g) < List.length (locks g))%nat /\
  (forall l, (l < List.length (locks g))%nat -> locks g !! l = Some None) /\
  (forall u l, dict_get u (repo_locks (mgr g)) = Some l ->
     (l < List.length (locks g))%nat /\ l <> lock (mgr g)).

(** [_run] for the repository [u] finds its locks free: [self.lock] and the
    lock of [u], if [u] has one.  Other repositories may be at work and hold
    theirs. *)
Definition ready (u : string) (g : Shared) : Prop :=
  (lock (mgr g) < List.length (locks g))%nat /\
  (forall u' l, dict_get u' (repo_locks (mgr g)) = Some l ->
     (l < List.length (locks g))%nat /\ l <> lock (mgr g)) /\
  locks g !! lock (mgr g) = Some None /\
  (forall l, dict_get u (repo_locks (mgr g)) = Some l -> locks g !! l = Some None).

(** The table and the store after the actions of a task on the job under
    [hd]. *)
Fixpoint apply_calls (hd : tkey) (todo : list action) (clock : nat -> Z)
    (n : nat) (st : JobManager * World) : JobManager * World :=
  match todo with
  | [] => st
  | Call k kw :: r =>
      apply_calls hd r clock (S n) (update_job k kw (clock n) (fst st) (snd st))
  | Assign a v :: r =>
      apply_calls hd r clock (S n) (assign hd a v (fst st), snd st)
  end.

(** An action that names instance attributes only and leaves [id] alone. *)
Definition keeps_id_action (c : action) : Prop :=
  match c with
  | Call _ kwargs => instance_level kwargs /\ ("id" ∉ map fst kwargs)
  | Assign a _ => class_level a = false /\ a <> "id"
  end.

(** The [update_job] calls of a task and its own assignments to the job
    name instance attributes and leave [id] alone. *)
Definition keeps_id (b : task) : Prop := Forall keeps_id_action (actions b).

(** The value of [job.id] a worker has read for the update it is about to
    make. *)
Definition read_id (pc : wpc) : option pyval :=
  match pc with
  | WRunningLock _ v | WRunningIn _ v | WFinishLock _ _ v | WFinishIn _ _ v => Some v
  | _ => None
  end.

(** What is left of the task of a worker. *)
Definition pending (pc : wpc) : list action :=
  match pc with
  | WTask _ todo => todo
  | WTaskIn _ k kwargs todo => Call k kwargs :: todo
  | _ => []
  end.

(** The exception the last update of a worker reports, if any. *)
Definition handler_of (pc : wpc) : option (option string) :=
  match pc with
  | WFinishId _ res | WFinishLock _ res _ | WFinishIn _ res _ => Some res
  | _ => None
  end.

(** The exception that leaves [_run]. *)
Definition escaped (pc : wpc) : option string :=
  match pc with
  | WRelease _ exc | WDone exc => exc
  | _ => None
  end.

(** No call of the thread and no task it brings assigns an [id]. *)
Definition careful_thread (th : thread) : Prop :=
  match th with
  | TCreate _ _ _ b _ => keeps_id b
  | TWorker wk _ => keeps_id (body wk)
  | TUpdate _ kwargs _ => "id" ∉ map fst kwargs
  | TGet _ _ => True
  end.

(** No caller and no task, running or queued, assigns an [id]. *)
Definition careful (s : Sys) : Prop :=
  Forall careful_thread (threads s) /\
  Forall (fun wk => keeps_id (body wk)) (queue (shared s)).

(** A worker among careful threads: the id it has read is the key of its
    job, what is left of its task leaves [id] alone, its handler reports the
    exception of its task, and what leaves [_run] is what the task raised
    past [except Exception]. *)
Definition worker_ok (th : thread) : Prop :=
  match th with
  | TWorker wk pc =>
      (forall v, read_id pc = Some v -> key_of v = Some (handle wk)) /\
      Forall keeps_id_action (pending pc) /\
      (forall res, handler_of pc = Some res -> outcome (body wk) = Exception <$> res) /\
      (forall m, escaped pc = Some m -> outcome (body wk) = Some (BaseException m))
  | _ => True
  end.

Record Ids (s : Sys) : Prop := {
  ids_table : ids_consistent (jobs (mgr (shared s)));
  ids_workers : forall t th, threads s !! t = Some th -> worker_ok th
}.

(** ** Sample values *)

(** A home directory that can be written, no store file, no Redis entry. *)
Definition clean_world : World := mkWorld true true FAbsent REmpty.

(** Identifiers and clock readings for [_load_store]. *)
Definition sample_fresh (n : nat) : fresh :=
  mkFresh ("loaded-" ++ String (Ascii.ascii_of_nat (48 + n)) "") 100 100.

(** The manager of a process started without [REDIS_URL] on [clean_world]. *)
Definition sample_manager : JobManager :=
  match JobManager_init [] sample_fresh 4 None true true clean_world with
  | Ok (m, _) => m
  | Raise _ => mkJobManager [] 0 4 [] false
  end.

(** The table after [create_job("repo1", "github", {}, task)] at time 10. *)
Definition one_job : JobManager * World :=
  exec (Create "job-a" 10 "repo1" "github" (VDict [])) (sample_manager, clean_world).

(** A process with a pool of two threads, just started. *)
Definition pool_of_two : Sys :=
  match JobManager_init [] sample_fresh 2 None true true clean_world with
  | Ok (m, h) => mkSys (mkShared m clean_world h [] []) []
  | Raise _ => mkSys (mkShared sample_manager clean_world [] [] []) []
  end.

(** A task that reports once and returns. *)
Definition reporting_task (k : tkey) : task :=
  mkTask [Call k [("progress", VStr "half")]] None.

(** Two submissions for two repositories, both inside their task. *)
Definition both_in_task : Sys :=
  let a := KStr "job-a" in
  let b := KStr "job-b" in
  let st := run [ Create "job-a" 10 "repo1" "github" (VDict []);
                  Create "job-b" 11 "repo2" "github" (VDict []);
                  WorkerRunning a 12;
                  WorkerRunning b 13 ]
                (mgr (shared pool_of_two), clean_world) in
  mkSys (mkShared (set_repo_locks (fst st) [("repo1", 1%nat); ("repo2", 2%nat)])
                  (snd st) [None; Some 2%nat; Some 3%nat] [] ["job-b"; "job-a"])
        [ TCreate "repo1" "github" (VDict []) (reporting_task a) (CReturned "job-a");
          TCreate "repo2" "github" (VDict []) (reporting_task b) (CReturned "job-b");
          TWorker (mkWork a "repo1" (reporting_task a)) (WTask 1 (actions (reporting_task a)));
          TWorker (mkWork b "repo2" (reporting_task b)) (WTask 2 (actions (reporting_task b))) ].

(** A worker inside [_get_repo_lock] while another thread calls
    [update_job]. *)
Definition in_registry : Sys :=
  let a := KStr "job-a" in
  let st := run [ Create "job-a" 10 "repo1" "github" (VDict []) ]
                (mgr (shared pool_of_two), clean_world) in
  mkSys (mkShared (fst st) (snd st) [Some 1%nat] [] ["job-a"])
        [ TCreate "repo1" "github" (VDict []) (reporting_task a) (CReturned "job-a");
          TWorker (mkWork a "repo1" (reporting_task a)) WRegistryIn;
          TUpdate a [("progress", VStr "half")] UWait ].

(** The scenario of the specification: a job for "repo2" whose task raises
    "boom", submitted to a manager that has just started. *)
Definition boom_task : task := mkTask [] (Some (Exception "boom")).

Definition submitted (b : task) : Shared :=
  match create_job 0 "job-c" 10 "repo2" "github" (VDict []) b (shared pool_of_two) with
  | Some (_, g) => g
  | None => shared pool_of_two
  end.

(** A task that assigns the id of its job before it raises. *)
Definition renaming_task (v : pyval) : task :=
  mkTask [Call (KStr "job-c") [("id", v)]] (Some (Exception "boom")).

(** The same with [job.id = "other"] in place of the [update_job] call. *)
Definition assigning_task : task :=
  mkTask [Assign "id" (VStr "other")] (Some (Exception "boom")).

(** A task that ends in [sys.exit("bye")]. *)
Definition exiting_task : task := mkTask [] (Some (BaseException "bye")).


(** The job for "repo1" is inside its task when the pool starts the job for
    "repo2", whose task raises "boom". *)
Definition boom_beside_running : Sys :=
  let a := KStr "job-a" in
  let c := KStr "job-c" in
  let st := run [ Create "job-a" 10 "repo1" "github" (VDict []);
                  WorkerRunning a 12;
                  Create "job-c" 13 "repo2" "github" (VDict []) ]
                (mgr (shared pool_of_two), clean_world) in
  mkSys (mkShared (set_repo_locks (fst st) [("repo1", 1%nat)])
                  (snd st) [None; Some 1%nat] [] ["job-c"; "job-a"])
        [ TCreate "repo1" "github" (VDict []) (reporting_task a) (CReturned "job-a");
          TWorker (mkWork a "repo1" (reporting_task a)) (WTask 1 (actions (reporting_task a)));
          TCreate "repo2" "github" (VDict []) boom_task (CReturned "job-c");
          TWorker (mkWork c "repo2" boom_task) WRegistry ].

(** ** The module-level manager

    The last lines of [job_manager.py], which build the manager the API
    imports. *)

(** [default_workers].  [int_of] is Python's [int] on a string ([None] when
    it raises), [workers_env] is [os.getenv("MAX_JOB_WORKERS")] and
    [cpu_count] is [os.cpu_count()].  An empty string, a string that does
    not parse and the number zero are all falsy. *)
Definition default_workers (int_of : string -> option Z) (workers_env : option string)
    (cpu_count : option Z) : Z :=
  let workers_int :=
    match workers_env with
    | Some s => if String.eqb s "" then None else int_of s
    | None => None
    end in
  let cpus := match cpu_count with
              | Some c => if Z.eqb c 0 then 4 else c
              | None => 4
              end in
  match workers_int with
  | Some z => if Z.eqb z 0 then Z.min 8 (cpus * 2) else z
  | None => Z.min 8 (cpus * 2)
  end.

(** [job_manager = JobManager(max_workers=default_workers, redis_url=_redis_url)] *)
Definition job_manager (int_of : string -> option Z) (workers_env : option string)
    (cpu_count : option Z) (fr : nat -> fresh) (redis_url : option string)
    (RedisStore_imported client_ok : bool) (w : World) : result (JobManager * heap) :=
  JobManager_init [] fr (default_workers int_of workers_env cpu_count) redis_url
                  RedisStore_imported client_ok w.

(** ** Predicates of the further statements *)

(** An element of the stored list that makes [_load_store] give up: it is
    not a dictionary, or its ["id"] cannot be a key of [self.jobs]. *)
Definition bad_item (v : pyval) : bool :=
  match v with
  | VDict item =>
      match dict_get "id" item with
      | Some i => match key_of i with Some _ => false | None => true end
      | None => false
      end
  | _ => true
  end.

(** What [_load_store] reads from the backend of [m]: [data] before the
    loop; [None] when reading raises. *)
Definition stored_data (m : JobManager) (w : World) : option pyval :=
  if redis_store m then Some (RedisStore.load w)
  else match file w with
       | FAbsent => Some (VList [])
       | FUnreadable => None
       | FDoc j => Some (loads j)
       end.

(** An operation whose arguments JSON carries unchanged and which leaves
    every [id] alone. *)
Definition native_op (o : op) : Prop :=
  match o with
  | Create _ _ _ _ meta => json_native meta = true
  | UpdateJob _ kwargs _ =>
      instance_level kwargs /\ ("id" ∉ map fst kwargs) /\
      Forall (fun kv => json_native (snd kv) = true) kwargs
  | WorkerRunning _ _ | WorkerFinish _ _ _ => True
  end.

(** A manager constructed on the store of [st] would hold the table of
    [st]. *)
Definition in_sync (st : JobManager * World) : Prop :=
  forall fr m0, jobs m0 = [] -> redis_store m0 = redis_store (fst st) ->
    jobs (_load_store fr m0 (snd st)) = jobs (fst st).

(** A thread whose call has not returned yet. *)
Definition unfinished (th : thread) : bool :=
  match th with
  | TCreate _ _ _ _ (CReturned _) | TWorker _ (WDone _) | TUpdate _ _ UDone
  | TGet _ (GDone _) => false
  | _ => true
  end.

(** Every lock that is held is held by a thread inside the section it
    guards, and every lock of the heap is [self.lock] or the lock of a
    repository. *)
Record Owners (s : Sys) : Prop := {
  own_repo : forall l t,
    locks (shared s) !! l = Some (Some t) ->
    l = lock (mgr (shared s)) \/
    exists th u, threads s !! t = Some th /\ in_repo_section th = Some (u, l);
  own_registered : forall l,
    (l < List.length (locks (shared s)))%nat ->
    l = lock (mgr (shared s)) \/
    exists u, dict_get u (repo_locks (mgr (shared s))) = Some l;
  own_injective : forall u1 u2 l,
    dict_get u1 (repo_locks (mgr (shared s))) = Some l ->
    dict_get u2 (repo_locks (mgr (shared s))) = Some l -> u1 = u2
}.

(** ** The Google embeddings client

    [google_embedder_client.py].  Requests and responses are Python values;
    a response is a dictionary, a list or a scalar, and an object
    ([VObject]) is one without an attribute [embeddings].  The floats of an
    embedding the API returns are values like any other. *)

Module GoogleEmbedderClient.

(** [ModelType] of adalflow: [EMBEDDER], the default [UNDEFINED], and the
    other members by their name. *)
Inductive ModelType : Type :=
  | EMBEDDER
  | UNDEFINED
  | OtherModelType (name : string).

(** [Embedding] and [EmbedderOutput] of adalflow, with the fields the client
    fills. *)
Record Embedding : Type := mkEmbedding {
  embedding : pyval;
  index : nat
}.

Record EmbedderOutput : Type := mkEmbedderOutput {
  data : list Embedding;
  error : option string;
  raw_response : pyval
}.

(** [k in d] *)
Definition has_key (k : string) (d : list (string * pyval)) : bool :=
  match dict_get k d with Some _ => true | None => false end.

(** [d.pop(k)] on a dictionary that has the key: what is left of [d]. *)
Definition dict_pop (k : string) (d : list (string * pyval)) : list (string * pyval) :=
  filter (fun kv => fst kv <> k) d.

(** [_extract_embedding]; [VNone] is its [None]. *)
Definition _extract_embedding (val : pyval) : pyval :=
  match val with
  | VDict d =>
      match dict_get "embedding" d with
      | Some inner =>
          match inner with
          | VDict d' =>
              match dict_get "values" d' with
              | Some values => values
              | None => inner
              end
          | _ => inner
          end
      | None =>
          match dict_get "values" d with
          | Some values => values
          | None => VNone
          end
      end
  | VList _ => val
  | _ => VNone
  end.

(** [vec is None] *)
Definition is_none (v : pyval) : bool :=
  match v with VNone => true | _ => false end.

(** [_append_embeddings]: what the loop over [enumerate(source)] appends,
    [idx] being the index of the first item. *)
Fixpoint _append_embeddings (idx : nat) (source : list pyval) : list Embedding :=
  match source with
  | [] => []
  | item :: r =>
      let vec := _extract_embedding item in
      if is_none vec then _append_embeddings (S idx) r
      else mkEmbedding vec idx :: _append_embeddings (S idx) r
  end.

(** [parse_embedding_response].  On the responses above nothing in the
    [try] block raises, so [error] is [None]. *)
Definition parse_embedding_response (response : pyval) : EmbedderOutput :=
  let embedding_data :=
    match response with
    | VDict d =>
        let single :=
          if has_key "embedding" d || has_key "values" d then
            let vec := _extract_embedding response in
            if is_none vec then [] else [mkEmbedding vec 0]
          else [] in
        let batch :=
          match dict_get "embeddings" d with
          | Some (VList emb_list) => _append_embeddings 0 emb_list
          | _ => []
          end in
        (single ++ batch)%list
    | VList l => _append_embeddings 0 l
    | _ => []
    end in
  mkEmbedderOutput embedding_data None response.

(** [convert_inputs_to_api_kwargs].  A list and a tuple are sequences; so
    are [bytes], [range] and the instances of any class registered as a
    [collections.abc.Sequence], which are objects here: [sequence_of n] is
    [list(input)] when the object [n] is such a sequence, and [None] when it
    is not. *)
Definition convert_inputs_to_api_kwargs (sequence_of : nat -> option (list pyval))
    (input : pyval) (model_kwargs : list (string * pyval)) (model_type : ModelType)
  : result (list (string * pyval)) :=
  match model_type with
  | EMBEDDER =>
      let content :=
        match input with
        | VStr _ => Some [input]
        | VList l | VTuple l => Some l
        | VObject n => sequence_of n
        | _ => None
        end in
      match content with
      | None => Raise "input must be a string or sequence of strings"
      | Some content =>
          let final_model_kwargs :=
            match content with
            | [c] => dict_set "content" c model_kwargs
            | _ => dict_set "contents" (VList content) model_kwargs
            end in
          let final_model_kwargs :=
            if has_key "task_type" final_model_kwargs then final_model_kwargs
            else dict_set "task_type" (VStr "RETRIEVAL_DOCUMENT") final_model_kwargs in
          let final_model_kwargs :=
            if has_key "model" final_model_kwargs then final_model_kwargs
            else dict_set "model" (VStr "text-embedding-004") final_model_kwargs in
          Ok final_model_kwargs
      end
  | UNDEFINED =>
      Raise "GoogleEmbedderClient only supports EMBEDDER model type, got ModelType.UNDEFINED"
  | OtherModelType name =>
      Raise ("GoogleEmbedderClient only supports EMBEDDER model type, got ModelType." ++ name)
  end.

(** [int.from_bytes(bs, "big", signed=False)] *)
Definition from_bytes (bs : list Z) : Z :=
  fold_left (fun acc b => acc * 256 + b) bs 0.

(** The loop of [_make_vec] over [range(0, len(buf), 4)]: of every slice
    [buf[i:i+4]] the number [chunk % 1000]. *)
Fixpoint chunks (buf : list Z) : list Z :=
  match buf with
  | [] => []
  | b0 :: b1 :: b2 :: b3 :: r => from_bytes [b0; b1; b2; b3] mod 1000 :: chunks r
  | short => [from_bytes short mod 1000]
  end.

(** [_make_vec] on the digest [h] of the text: the numbers [chunk % 1000] of
    the vector, whose entries are these divided by [1000.0].  An empty [h]
    is the [ZeroDivisionError] of [bytes_needed / len(h)]. *)
Definition _make_vec (h : list Z) (size : nat) : result (list Z) :=
  let bytes_needed := (size * 4)%nat in
  match List.length h with
  | O => Raise "float division by zero"
  | S n =>
      let times := ((bytes_needed + n) / S n)%nat in
      let buf := take bytes_needed (concat (repeat h times)) in
      Ok (take size (chunks buf))
  end.

(** The loop of [call] over a batch: one [genai.embed_content] call per
    text.  [embed_content n kwargs] is what the [n]-th call of the API
    returns or raises. *)
Fixpoint embed_each (embed_content : nat -> list (string * pyval) -> result pyval)
    (n : nat) (api_kwargs : list (string * pyval)) (contents : list pyval)
  : result (list pyval) :=
  match contents with
  | [] => Ok []
  | c :: r =>
      match embed_content n (dict_set "content" c api_kwargs) with
      | Raise e => Raise e
      | Ok single_resp =>
          let emb :=
            match single_resp with
            | VDict d =>
                match dict_get "embedding" d with
                | Some e => e
                | None => single_resp
                end
            | _ => single_resp
            end in
          match embed_each embed_content (S n) api_kwargs r with
          | Raise e => Raise e
          | Ok embeddings => Ok (emb :: embeddings)
          end
      end
  end.

Definition not_iterable : string := "object is not iterable".

(** The [try] block of [call]: the response or the exception, and
    [api_kwargs] as the block leaves it ([pop] removes [contents] from the
    caller's dictionary). *)
Definition call_api (embed_content : nat -> list (string * pyval) -> result pyval)
    (api_kwargs : list (string * pyval)) : result pyval * list (string * pyval) :=
  match dict_get "contents" api_kwargs with
  | Some contents =>
      let api_kwargs := dict_pop "contents" api_kwargs in
      (match iterate contents with
       | None => Raise not_iterable
       | Some cs =>
           match embed_each embed_content 0 api_kwargs cs with
           | Raise e => Raise e
           | Ok embeddings =>
               Ok (VDict [("embeddings",
                           VList (map (fun emb => VDict [("embedding", emb)]) embeddings))])
           end
       end, api_kwargs)
  | None =>
      (if has_key "content" api_kwargs then embed_content 0%nat api_kwargs
       else Raise "Either 'content' or 'contents' must be provided", api_kwargs)
  end.

(** [_make_vec(str(c))] as a value.  [sha256 c] is the digest of
    [str(c).encode("utf-8")], or the exception of the conversion;
    [float_of k] is the float [k / 1000.0]. *)
Definition local_embedding (sha256 : pyval -> result (list Z)) (float_of : Z -> pyval)
    (c : pyval) : result pyval :=
  match sha256 c with
  | Raise e => Raise e
  | Ok h =>
      match _make_vec h 256 with
      | Raise e => Raise e
      | Ok vec => Ok (VList (map float_of vec))
      end
  end.

Fixpoint local_embeddings (sha256 : pyval -> result (list Z)) (float_of : Z -> pyval)
    (cs : list pyval) : result (list pyval) :=
  match cs with
  | [] => Ok []
  | c :: r =>
      match local_embedding sha256 float_of c with
      | Raise e => Raise e
      | Ok emb =>
          match local_embeddings sha256 float_of r with
          | Raise e => Raise e
          | Ok embs => Ok (VDict [("embedding", emb)] :: embs)
          end
      end
  end.

(** The handler of [call]: the local embeddings. *)
Definition fallback (sha256 : pyval -> result (list Z)) (float_of : Z -> pyval)
    (api_kwargs : list (string * pyval)) : result pyval :=
  match dict_get "content" api_kwargs with
  | Some c =>
      match local_embedding sha256 float_of c with
      | Raise e => Raise e
      | Ok emb => Ok (VDict [("embedding", emb)])
      end
  | None =>
      match dict_get "contents" api_kwargs with
      | Some contents =>
          match iterate contents with
          | None => Raise not_iterable
          | Some cs =>
              match local_embeddings sha256 float_of cs with
              | Raise e => Raise e
              | Ok embs => Ok (VDict [("embeddings", VList embs)])
              end
          end
      | None => Ok (VDict [("embedding", VList [])])
      end
  end.

(** One run of the body of [call] (the [backoff] decorator runs it again
    only when it raises): what it returns or raises, and the caller's
    [api_kwargs] afterwards. *)
Definition call (embed_content : nat -> list (string * pyval) -> result pyval)
    (sha256 : pyval -> result (list Z)) (float_of : Z -> pyval)
    (api_kwargs : list (string * pyval)) (model_type : ModelType)
  : result pyval * list (string * pyval) :=
  match model_type with
  | EMBEDDER =>
      match call_api embed_content api_kwargs with
      | (Ok response, api_kwargs) => (Ok response, api_kwargs)
      | (Raise _, api_kwargs) => (fallback sha256 float_of api_kwargs, api_kwargs)
      end
  | _ => (Raise "GoogleEmbedderClient only supports EMBEDDER model type", api_kwargs)
  end.

End GoogleEmbedderClient.

(** * Properties *)

(** ** Dictionaries *)

Section dict.
Context {K V : Type} `{EqDecision K}.
Implicit Types (k : K) (v : V) (d : list (K * V)).

Lemma dict_get_set_eq k v d : dict_get k (dict_set k v d) = Some v.
Proof.
  induction d as [|[k' v'] r IH]; simpl.
  - rewrite decide_True; reflexivity.
  - destruct (decide (k' = k)) as [->|Hne]; simpl.
    + rewrite decide_True; reflexivity.
    + rewrite decide_False by assumption. exact IH.
Qed.

Lemma dict_get_set_ne k k' v d :
  k <> k' -> dict_get k' (dict_set k v d) = dict_get k' d.
Proof.
  intros Hne. induction d as [|[k0 v0] r IH]; simpl.
  - rewrite decide_False by assumption. reflexivity.
  - destruct (decide (k0 = k)) as [->|Hk0]; simpl.
    + rewrite !decide_False by assumption. reflexivity.
    + destruct (decide (k0 = k')); [reflexivity | exact IH].
Qed.

Lemma dict_get_set k k' v d :
  dict_get k' (dict_set k v d) = if decide (k = k') then Some v else dict_get k' d.
Proof.
  destruct (decide (k = k')) as [->|Hne].
  - apply dict_get_set_eq.
  - apply dict_get_set_ne, Hne.
Qed.

Lemma dict_get_None k d : dict_get k d = None <-> k ∉ map fst d.
Proof.
  induction d as [|[k' v'] r IH]; simpl.
  - split; [intros _; apply not_elem_of_nil | reflexivity].
  - rewrite not_elem_of_cons. destruct (decide (k' = k)) as [->|Hne].
    + split; [discriminate | intros [Hk _]; congruence].
    + rewrite IH. split; [intros Hr; split; [congruence | exact Hr] | intros [_ Hr]; exact Hr].
Qed.

Lemma dict_get_Some_elem k v d : dict_get k d = Some v -> (k, v) ∈ d.
Proof.
  induction d as [|[k' v'] r IH]; simpl; [discriminate|].
  destruct (decide (k' = k)) as [->|Hne].
  - intros [= ->]. apply list_elem_of_here.
  - intros Hr. apply list_elem_of_further, IH, Hr.
Qed.

(** Setting a new key appends it. *)
Lemma dict_set_fresh k v d : k ∉ map fst d -> dict_set k v d = (d ++ [(k, v)])%list.
Proof.
  induction d as [|[k' v'] r IH]; simpl; [reflexivity|].
  rewrite not_elem_of_cons. intros [Hne Hr].
  rewrite decide_False by congruence. rewrite IH by assumption. reflexivity.
Qed.

Lemma dict_set_keys k k' v d :
  k' ∈ map fst (dict_set k v d) <-> k' = k \/ k' ∈ map fst d.
Proof.
  induction d as [|[k0 v0] r IH]; cbn [dict_set map fst].
  - rewrite list_elem_of_singleton. split; [auto | intros [?|Hn]; [assumption|]].
    apply elem_of_nil in Hn. contradiction.
  - destruct (decide (k0 = k)) as [->|Hne]; cbn [map fst];
      rewrite !elem_of_cons; [tauto|]. rewrite IH. tauto.
Qed.

Lemma dict_set_NoDup k v d : NoDup (map fst d) -> NoDup (map fst (dict_set k v d)).
Proof.
  induction d as [|[k0 v0] r IH]; cbn [dict_set map fst]; intros Hnd.
  - apply NoDup_singleton.
  - apply NoDup_cons in Hnd as [Hk0 Hr].
    destruct (decide (k0 = k)) as [->|Hne]; cbn [map fst]; apply NoDup_cons.
    + split; assumption.
    + split; [|apply IH, Hr]. rewrite dict_set_keys. intros [?|?]; [congruence|contradiction].
Qed.

(** Building a dictionary from pairs with distinct keys keeps the pairs. *)
Lemma dict_of_pairs_app (l acc : list (K * V)) :
  NoDup (map fst (acc ++ l)) ->
  fold_left (fun d kv => dict_set (fst kv) (snd kv) d) l acc = (acc ++ l)%list.
Proof.
  revert acc. induction l as [|[k v] r IH]; intros acc Hnd; simpl.
  - rewrite app_nil_r. reflexivity.
  - assert (Hk : k ∉ map fst acc).
    { rewrite map_app in Hnd. simpl in Hnd.
      apply NoDup_app in Hnd as (_ & Hdisj & _).
      intros Hin. apply (Hdisj k Hin). apply list_elem_of_here. }
    rewrite dict_set_fresh by exact Hk.
    rewrite IH; rewrite <- app_assoc; [reflexivity | exact Hnd].
Qed.

Lemma dict_of_pairs_NoDup (l : list (K * V)) :
  NoDup (map fst l) -> dict_of_pairs l = l.
Proof. intros Hnd. unfold dict_of_pairs. rewrite dict_of_pairs_app; auto. Qed.
End dict.

Ltac not_in_list :=
  cbn [map fst]; rewrite ?not_elem_of_cons; repeat split;
  solve [discriminate | apply not_elem_of_nil].

(** ** Attribute assignment *)

Lemma getattr_setattr_ne job k v a :
  a <> k -> getattr (setattr job k v) a = getattr job a.
Proof.
  intros Hne. unfold setattr.
  repeat match goal with
         | |- context [String.eqb k ?s] =>
             destruct (String.eqb_spec k s) as [->|?];
             [unfold getattr, to_dict;
              cbn [dict_get id repo_url repo_type status error progress
                   created_at updated_at metadata];
              repeat (case_decide; [congruence || reflexivity|]); reflexivity|]
         end.
  reflexivity.
Qed.

Lemma getattr_setattr_eq job k v :
  hasattr k = true -> getattr (setattr job k v) k = Some v.
Proof.
  unfold hasattr, job_attributes. intros Hk. apply bool_decide_eq_true in Hk.
  repeat (apply elem_of_cons in Hk as [->|Hk]; [reflexivity|]).
  apply elem_of_nil in Hk. contradiction.
Qed.

Lemma getattr_apply_kwargs job kwargs a :
  a ∉ map fst kwargs -> getattr (apply_kwargs job kwargs) a = getattr job a.
Proof.
  revert job. induction kwargs as [|[k v] r IH]; intros job Hnin; simpl; [reflexivity|].
  simpl in Hnin. apply not_elem_of_cons in Hnin as [Hne Hr].
  rewrite IH by exact Hr.
  destruct (hasattr k); [apply getattr_setattr_ne, Hne | reflexivity].
Qed.

(** A record is determined by its attributes. *)
Lemma getattr_id job : getattr job "id" = Some (id job).
Proof. reflexivity. Qed.
Lemma getattr_repo_url job : getattr job "repo_url" = Some (repo_url job).
Proof. reflexivity. Qed.
Lemma getattr_repo_type job : getattr job "repo_type" = Some (repo_type job).
Proof. reflexivity. Qed.
Lemma getattr_status job : getattr job "status" = Some (status job).
Proof. reflexivity. Qed.
Lemma getattr_error job : getattr job "error" = Some (error job).
Proof. reflexivity. Qed.
Lemma getattr_progress job : getattr job "progress" = Some (progress job).
Proof. reflexivity. Qed.
Lemma getattr_created_at job : getattr job "created_at" = Some (created_at job).
Proof. reflexivity. Qed.
Lemma getattr_updated_at job : getattr job "updated_at" = Some (updated_at job).
Proof. reflexivity. Qed.
Lemma getattr_metadata job : getattr job "metadata" = Some (metadata job).
Proof. reflexivity. Qed.

(** ** Updates *)

(** C7.  [update_job] with an identifier that is not in the job table
    returns normally and changes nothing: the table and the manager are the
    same, and the store is left as it was (no write is made). *)
Theorem update_job_unknown_id (job_id : tkey) (kwargs : list (string * pyval))
    (now : Z) (m : JobManager) (w : World) :
  dict_get job_id (jobs m) = None ->
  update_job job_id kwargs now m w = (m, w).
Proof.
  intros Hnone. unfold update_job, _update. rewrite Hnone. reflexivity.
Qed.

Lemma update_job_unknown_id_witness :
  dict_get (KStr "job-b") (jobs (fst one_job)) = None /\
  update_job (KStr "job-b") [("progress", VStr "half")] 11 (fst one_job) (snd one_job)
  = one_job.
Proof.
  split; [reflexivity|].
  rewrite (update_job_unknown_id (KStr "job-b") _ 11 (fst one_job) (snd one_job));
    reflexivity.
Defined.

(** The record an update leaves under each key. *)
Lemma _update_get k' k kw now m w :
  dict_get k' (jobs (fst (_update k kw now m w))) =
  if decide (k = k')
  then (fun job => setattr (apply_kwargs job kw) "updated_at" (VNum now)) <$> dict_get k (jobs m)
  else dict_get k' (jobs m).
Proof.
  unfold _update. destruct (dict_get k (jobs m)) as [job|] eqn:Hget; simpl.
  - apply dict_get_set.
  - destruct (decide (k = k')) as [<-|]; [exact Hget | reflexivity].
Qed.

Lemma Forall_dict_set {K V} `{EqDecision K} (P : K * V -> Prop) k v (d : list (K * V)) :
  Forall P d -> P (k, v) -> Forall P (dict_set k v d).
Proof.
  intros Hd Hkv. induction Hd as [|[k0 v0] r H0 Hr IH]; simpl.
  - constructor; [exact Hkv | constructor].
  - destruct (decide (k0 = k)); constructor; assumption.
Qed.

Lemma ids_consistent_get js k job :
  ids_consistent js -> dict_get k js = Some job -> key_of (id job) = Some k.
Proof.
  intros Hc Hget. apply dict_get_Some_elem in Hget.
  unfold ids_consistent in Hc. rewrite Forall_forall in Hc.
  exact (Hc _ Hget).
Qed.

(** The attributes an update leaves alone. *)
Lemma updated_attr job kw now a :
  a <> "updated_at" -> a ∉ map fst kw ->
  getattr (setattr (apply_kwargs job kw) "updated_at" (VNum now)) a = getattr job a.
Proof.
  intros Hne Hnin. rewrite getattr_setattr_ne by exact Hne.
  apply getattr_apply_kwargs, Hnin.
Qed.

Lemma updated_id job kw now :
  "id" ∉ map fst kw ->
  id (setattr (apply_kwargs job kw) "updated_at" (VNum now)) = id job.
Proof.
  intros Hnin. pose proof (updated_attr job kw now "id" ltac:(discriminate) Hnin) as H.
  rewrite !getattr_id in H. congruence.
Qed.

Lemma updated_status job kw now :
  "status" ∉ map fst kw ->
  status (setattr (apply_kwargs job kw) "updated_at" (VNum now)) = status job.
Proof.
  intros Hnin. pose proof (updated_attr job kw now "status" ltac:(discriminate) Hnin) as H.
  rewrite !getattr_status in H. congruence.
Qed.

(** An update that does not name [id] keeps the records under their keys. *)
Lemma _update_ids_consistent k kw now m w :
  "id" ∉ map fst kw ->
  ids_consistent (jobs m) ->
  ids_consistent (jobs (fst (_update k kw now m w))).
Proof.
  intros Hnin Hc. unfold _update.
  destruct (dict_get k (jobs m)) as [job|] eqn:Hget; simpl; [|exact Hc].
  apply Forall_dict_set; [exact Hc|]. cbn [fst snd].
  rewrite updated_id by exact Hnin. eapply ids_consistent_get; eassumption.
Qed.

Lemma insert_job_ids_consistent new_id now u ty me m w :
  ids_consistent (jobs m) ->
  ids_consistent (jobs (fst (insert_job (KStr new_id) (Job_init new_id now u ty me) m w))).
Proof.
  intros Hc. unfold insert_job. simpl. apply Forall_dict_set; [exact Hc | reflexivity].
Qed.

(** With consistent ids the worker's update lands on its own record. *)
Lemma worker_update_own h kw now m w job :
  ids_consistent (jobs m) -> dict_get h (jobs m) = Some job ->
  worker_update h kw now m w = Ok (_update h kw now m w).
Proof.
  intros Hc Hget. unfold worker_update, update_by_value. rewrite Hget.
  rewrite (ids_consistent_get _ _ _ Hc Hget). reflexivity.
Qed.

Lemma worker_update_absent h kw now m w :
  dict_get h (jobs m) = None -> worker_update h kw now m w = Ok (m, w).
Proof. intros Hget. unfold worker_update. rewrite Hget. reflexivity. Qed.

(** ** Status (C2) *)

Lemma exec_ids_consistent o st :
  "id" ∉ keywords o ->
  ids_consistent (jobs (fst st)) -> ids_consistent (jobs (fst (exec o st))).
Proof.
  destruct st as [m w]. intros Hid Hc.
  destruct o as [new_id now u ty me|k kw now|h now|h res now]; cbn [exec fst snd].
  - apply insert_job_ids_consistent, Hc.
  - apply _update_ids_consistent; assumption.
  - unfold worker_update, update_by_value.
    destruct (dict_get h (jobs m)); [|exact Hc].
    destruct (key_of (id j)); [|exact Hc].
    apply _update_ids_consistent; assumption.
  - unfold worker_update, update_by_value.
    destruct (dict_get h (jobs m)); [|exact Hc].
    destruct (key_of (id j)); [|exact Hc].
    apply _update_ids_consistent; assumption.
Qed.

Lemma quiet_keeps_ids k o : quiet k o -> "id" ∉ keywords o.
Proof.
  destruct o as [new_id now u ty me|k' kw now|h now|h [e|] now]; simpl.
  - intros _. apply not_elem_of_nil.
  - intros (_ & Hid & _). exact Hid.
  - intros _. rewrite !not_elem_of_cons. repeat split; try discriminate. apply not_elem_of_nil.
  - intros _. rewrite !not_elem_of_cons. repeat split; try discriminate. apply not_elem_of_nil.
  - intros _. rewrite !not_elem_of_cons. repeat split; try discriminate. apply not_elem_of_nil.
Qed.

(** A worker of another record does not touch the record under [k]. *)
Lemma worker_update_other h k kw now m w st :
  ids_consistent (jobs m) -> h <> k ->
  worker_update h kw now m w = Ok st ->
  dict_get k (jobs (fst st)) = dict_get k (jobs m).
Proof.
  intros Hc Hne. destruct (dict_get h (jobs m)) as [jh|] eqn:Hh.
  - rewrite (worker_update_own _ _ _ _ _ _ Hc Hh). intros [= <-].
    rewrite _update_get. rewrite decide_False by exact Hne. reflexivity.
  - rewrite (worker_update_absent _ _ _ _ _ Hh). intros [= <-]. reflexivity.
Qed.

Lemma quiet_status k o st job :
  ids_consistent (jobs (fst st)) ->
  dict_get k (jobs (fst st)) = Some job ->
  quiet k o ->
  exists job', dict_get k (jobs (fst (exec o st))) = Some job' /\ status job' = status job.
Proof.
  destruct st as [m w]. cbn [fst]. intros Hc Hget Hq.
  destruct o as [new_id now u ty me|k' kw now|h now|h res now]; cbn [exec fst snd].
  - simpl in Hq. unfold insert_job. cbn [fst jobs set_jobs].
    rewrite dict_get_set_ne by exact Hq. eauto.
  - destruct Hq as (_ & _ & Hst). unfold update_job. rewrite _update_get.
    destruct (decide (k' = k)) as [->|Hne]; [|eauto].
    rewrite Hget. cbn [fmap option_fmap option_map]. eexists. split; [reflexivity|].
    apply updated_status, Hst. reflexivity.
  - simpl in Hq.
    destruct (worker_update h running_kwargs now m w) as [st'|e] eqn:Hw; [|eauto].
    rewrite (worker_update_other _ _ _ _ _ _ _ Hc Hq Hw). eauto.
  - simpl in Hq.
    destruct (worker_update h (finish_kwargs res) now m w) as [st'|e] eqn:Hw; [|eauto].
    rewrite (worker_update_other _ _ _ _ _ _ _ Hc Hq Hw). eauto.
Qed.

Lemma history_app {A} (f : Job -> A) k ops1 ops2 st :
  history f k (ops1 ++ ops2) st = (history f k ops1 st ++ history f k ops2 (run ops1 st))%list.
Proof.
  revert st. induction ops1 as [|o r IH]; intros st; simpl; [reflexivity|].
  rewrite IH. reflexivity.
Qed.

Lemma history_quiet k ops : forall st job,
  ids_consistent (jobs (fst st)) ->
  dict_get k (jobs (fst st)) = Some job ->
  Forall (quiet k) ops ->
  history status k ops st = replicate (List.length ops) (Some (status job)) /\
  ids_consistent (jobs (fst (run ops st))) /\
  exists job', dict_get k (jobs (fst (run ops st))) = Some job' /\ status job' = status job.
Proof.
  induction ops as [|o r IH]; intros st job Hc Hget Hq.
  - simpl. eauto.
  - apply Forall_cons in Hq as [Ho Hr].
    destruct (quiet_status k o st job Hc Hget Ho) as (job1 & Hget1 & Hs1).
    pose proof (exec_ids_consistent o st (quiet_keeps_ids k o Ho) Hc) as Hc1.
    destruct (IH (exec o st) job1 Hc1 Hget1 Hr) as (Hh & Hc2 & job2 & Hget2 & Hs2).
    cbn [history run fold_left List.length replicate].
    rewrite Hget1, Hh, Hs1. cbn [fmap option_fmap option_map].
    split; [rewrite Hs1; reflexivity|]. split; [exact Hc2|].
    exists job2. split; [exact Hget2 | congruence].
Qed.

Lemma worker_running_own k now st job :
  ids_consistent (jobs (fst st)) ->
  dict_get k (jobs (fst st)) = Some job ->
  exists job', dict_get k (jobs (fst (exec (WorkerRunning k now) st))) = Some job' /\
               status job' = VStr JobStatus.RUNNING.
Proof.
  destruct st as [m w]. cbn [fst]. intros Hc Hget. cbn [exec fst snd].
  rewrite (worker_update_own _ _ _ _ _ _ Hc Hget), _update_get.
  rewrite decide_True by reflexivity. rewrite Hget.
  eexists. split; reflexivity.
Qed.

Lemma worker_finish_own k res now st job :
  ids_consistent (jobs (fst st)) ->
  dict_get k (jobs (fst st)) = Some job ->
  exists job', dict_get k (jobs (fst (exec (WorkerFinish k res now) st))) = Some job' /\
               status job' = terminal res.
Proof.
  destruct st as [m w]. cbn [fst]. intros Hc Hget. cbn [exec fst snd].
  rewrite (worker_update_own _ _ _ _ _ _ Hc Hget), _update_get.
  rewrite decide_True by reflexivity. rewrite Hget.
  eexists. split; [reflexivity|]. destruct res; reflexivity.
Qed.

Lemma worker_keeps_ids_running h now : "id" ∉ keywords (WorkerRunning h now).
Proof. simpl. rewrite !not_elem_of_cons. repeat split; try discriminate. apply not_elem_of_nil. Qed.

Lemma worker_keeps_ids_finish h res now : "id" ∉ keywords (WorkerFinish h res now).
Proof.
  destruct res; simpl; rewrite !not_elem_of_cons; repeat split; try discriminate;
    apply not_elem_of_nil.
Qed.

Lemma lifecycle_replicate s n l :
  advances s s = true ->
  lifecycle_from s (replicate n (Some s) ++ l) = lifecycle_from s l.
Proof.
  intros Hs. induction n as [|n IH]; simpl; [reflexivity|].
  rewrite Hs, IH. reflexivity.
Qed.

(** C2, as the code has it.  Take a record that is queued, in a table whose
    records sit under their ids.  Let its worker make its two updates, in
    the order of [_run], among any operations that leave its status and
    every id alone ([update_job] calls without a [status] or [id] keyword,
    other submissions, the workers of other records).  Then its status is
    queued until the first update, running until the second, and success or
    failed from then on: it never goes back and the final status stays. *)
Theorem worker_status_lifecycle (st : JobManager * World) (k : tkey) (job : Job)
    (pre mid post : list op) (res : option string) (n1 n2 : Z) :
  ids_consistent (jobs (fst st)) ->
  dict_get k (jobs (fst st)) = Some job ->
  status job = VStr JobStatus.QUEUED ->
  Forall (quiet k) pre -> Forall (quiet k) mid -> Forall (quiet k) post ->
  let ops := (pre ++ WorkerRunning k n1 :: mid ++ WorkerFinish k res n2 :: post)%list in
  history status k ops st =
    (replicate (List.length pre) (Some (VStr JobStatus.QUEUED)) ++
     replicate (S (List.length mid)) (Some (VStr JobStatus.RUNNING)) ++
     replicate (S (List.length post)) (Some (terminal res)))%list /\
  lifecycle_from (VStr JobStatus.QUEUED) (history status k ops st) = true.
Proof.
  intros Hc Hget Hst Hpre Hmid Hpost ops.
  assert (Hshape : history status k ops st =
    (replicate (List.length pre) (Some (VStr JobStatus.QUEUED)) ++
     replicate (S (List.length mid)) (Some (VStr JobStatus.RUNNING)) ++
     replicate (S (List.length post)) (Some (terminal res)))%list).
  { unfold ops. rewrite history_app.
    destruct (history_quiet k pre st job Hc Hget Hpre) as (H1 & Hc1 & job1 & Hget1 & _).
    rewrite H1, Hst. f_equal.
    cbn [history]. set (st1 := run pre st) in *.
    destruct (worker_running_own k n1 st1 job1 Hc1 Hget1) as (job2 & Hget2 & Hs2).
    pose proof (exec_ids_consistent _ st1 (worker_keeps_ids_running k n1) Hc1) as Hc2.
    set (st2 := exec (WorkerRunning k n1) st1) in *.
    rewrite Hget2. cbn [fmap option_fmap option_map]. rewrite Hs2.
    cbn [replicate]. rewrite <- app_comm_cons. f_equal.
    rewrite history_app.
    destruct (history_quiet k mid st2 job2 Hc2 Hget2 Hmid) as (H3 & Hc3 & job3 & Hget3 & _).
    rewrite H3, Hs2. f_equal.
    cbn [history]. set (st3 := run mid st2) in *.
    destruct (worker_finish_own k res n2 st3 job3 Hc3 Hget3) as (job4 & Hget4 & Hs4).
    pose proof (exec_ids_consistent _ st3 (worker_keeps_ids_finish k res n2) Hc3) as Hc4.
    set (st4 := exec (WorkerFinish k res n2) st3) in *.
    rewrite Hget4. cbn [fmap option_fmap option_map]. rewrite Hs4. f_equal.
    destruct (history_quiet k post st4 job4 Hc4 Hget4 Hpost) as (H5 & _).
    rewrite H5, Hs4. reflexivity. }
  split; [exact Hshape|]. rewrite Hshape.
  rewrite lifecycle_replicate by reflexivity.
  cbn [replicate]. rewrite <- app_comm_cons. cbn [lifecycle_from].
  rewrite lifecycle_replicate by reflexivity.
  cbn [lifecycle_from app].
  replace (replicate (List.length post) (Some (terminal res)))
    with (replicate (List.length post) (Some (terminal res)) ++ [])%list
    by apply app_nil_r.
  rewrite lifecycle_replicate by (destruct res; reflexivity).
  destruct res; reflexivity.
Qed.

Lemma worker_status_lifecycle_witness :
  let k := KStr "job-a" in
  let ops := [ UpdateJob k [("progress", VStr "waiting")] 11;
               WorkerRunning k 12;
               UpdateJob k [("progress", VStr "half")] 13;
               Create "job-b" 14 "repo2" "github" (VDict []);
               WorkerFinish k (Some "boom") 15;
               UpdateJob (KStr "job-b") [("status", VStr "queued")] 16 ] in
  history status k ops one_job =
    [ Some (VStr "queued"); Some (VStr "running"); Some (VStr "running");
      Some (VStr "running"); Some (VStr "failed"); Some (VStr "failed") ] /\
  lifecycle_from (VStr "queued") (history status k ops one_job) = true.
Proof.
  intros k ops.
  refine (worker_status_lifecycle one_job k
            (Job_init "job-a" 10 (VStr "repo1") (VStr "github") (VDict []))
            [UpdateJob k [("progress", VStr "waiting")] 11]
            [UpdateJob k [("progress", VStr "half")] 13;
             Create "job-b" 14 "repo2" "github" (VDict [])]
            [UpdateJob (KStr "job-b") [("status", VStr "queued")] 16]
            (Some "boom") 12 15 _ _ _ _ _ _).
  - repeat constructor.
  - reflexivity.
  - reflexivity.
  - repeat constructor; simpl; try not_in_list; intros _; not_in_list.
  - repeat constructor; simpl; try not_in_list; try discriminate; intros _; not_in_list.
  - repeat constructor; simpl; try not_in_list; discriminate.
Defined.

(** C2 as stated fails: [update_job] assigns whatever status it is given, so
    a record that reached success goes back to queued. *)
Lemma status_regresses :
  let k := KStr "job-a" in
  let ops := [ WorkerRunning k 11;
               WorkerFinish k None 12;
               UpdateJob k [("status", VStr JobStatus.QUEUED)] 13 ] in
  history status k ops one_job =
    [ Some (VStr "running"); Some (VStr "success"); Some (VStr "queued") ] /\
  lifecycle_from (VStr "queued") (history status k ops one_job) = false.
Proof. split; reflexivity. Qed.

(** ** The attributes that stay (C6) *)

Lemma same_fixed_fields job' job :
  same_fixed job' job ->
  id job' = id job /\ repo_url job' = repo_url job /\ repo_type job' = repo_type job /\
  created_at job' = created_at job /\ metadata job' = metadata job.
Proof.
  intros H.
  pose proof (H "id" ltac:(apply list_elem_of_In; simpl; tauto)) as H1.
  pose proof (H "repo_url" ltac:(apply list_elem_of_In; simpl; tauto)) as H2.
  pose proof (H "repo_type" ltac:(apply list_elem_of_In; simpl; tauto)) as H3.
  pose proof (H "created_at" ltac:(apply list_elem_of_In; simpl; tauto)) as H4.
  pose proof (H "metadata" ltac:(apply list_elem_of_In; simpl; tauto)) as H5.
  rewrite !getattr_id in H1. rewrite !getattr_repo_url in H2.
  rewrite !getattr_repo_type in H3. rewrite !getattr_created_at in H4.
  rewrite !getattr_metadata in H5.
  repeat split; congruence.
Qed.

Lemma _update_fixed k k' kw now m w job :
  (forall a, a ∈ fixed_attributes -> a ∉ map fst kw) ->
  dict_get k (jobs m) = Some job ->
  exists job', dict_get k (jobs (fst (_update k' kw now m w))) = Some job' /\
               same_fixed job' job.
Proof.
  intros Hkw Hget. rewrite _update_get.
  destruct (decide (k' = k)) as [->|Hne].
  - rewrite Hget. cbn [fmap option_fmap option_map]. eexists. split; [reflexivity|].
    intros a Ha. apply updated_attr; [|apply Hkw, Ha].
    intros ->. apply list_elem_of_In in Ha. simpl in Ha. intuition discriminate.
  - exists job. split; [exact Hget | intros a _; reflexivity].
Qed.

Lemma worker_kwargs_fixed kw :
  kw = running_kwargs \/ (exists res, kw = finish_kwargs res) ->
  forall a, a ∈ fixed_attributes -> a ∉ map fst kw.
Proof.
  intros Hkw a Ha. apply list_elem_of_In in Ha. simpl in Ha.
  destruct Hkw as [->|[[e|] ->]]; simpl;
    repeat (destruct Ha as [<-|Ha]; [not_in_list|]); contradiction.
Qed.

Lemma worker_update_fixed k h kw now m w job :
  (forall a, a ∈ fixed_attributes -> a ∉ map fst kw) ->
  dict_get k (jobs m) = Some job ->
  exists job',
    dict_get k (jobs (fst (match worker_update h kw now m w with
                           | Ok st' => st'
                           | Raise _ => (m, w)
                           end))) = Some job' /\
    same_fixed job' job.
Proof.
  intros Hkw Hget. unfold worker_update, update_by_value.
  destruct (dict_get h (jobs m)) as [jh|];
    [destruct (key_of (id jh)) as [k'|]|];
    try (exists job; split; [exact Hget | intros a _; reflexivity]).
  apply _update_fixed; assumption.
Qed.

Lemma framed_step k o st job :
  framed k o ->
  dict_get k (jobs (fst st)) = Some job ->
  exists job', dict_get k (jobs (fst (exec o st))) = Some job' /\ same_fixed job' job.
Proof.
  destruct st as [m w]. cbn [fst]. intros Hf Hget.
  destruct o as [new_id now u ty me|k' kw now|h now|h res now]; cbn [exec fst snd].
  - simpl in Hf. unfold insert_job. cbn [fst jobs set_jobs].
    rewrite dict_get_set_ne by exact Hf.
    exists job. split; [exact Hget | intros a _; reflexivity].
  - destruct Hf as [_ Hkw]. apply _update_fixed; assumption.
  - apply worker_update_fixed; [|exact Hget].
    apply worker_kwargs_fixed. left. reflexivity.
  - apply worker_update_fixed; [|exact Hget].
    apply worker_kwargs_fixed. right. eexists. reflexivity.
Qed.

Lemma framed_run k ops : forall st job,
  Forall (framed k) ops ->
  dict_get k (jobs (fst st)) = Some job ->
  exists job', dict_get k (jobs (fst (run ops st))) = Some job' /\ same_fixed job' job.
Proof.
  induction ops as [|o r IH]; intros st job Hf Hget.
  - exists job. split; [exact Hget | intros a _; reflexivity].
  - apply Forall_cons in Hf as [Ho Hr].
    destruct (framed_step k o st job Ho Hget) as (job1 & Hget1 & Hs1).
    destruct (IH (exec o st) job1 Hr Hget1) as (job2 & Hget2 & Hs2).
    exists job2. split; [exact Hget2|].
    intros a Ha. rewrite (Hs2 a Ha). apply Hs1, Ha.
Qed.

(** C6, as the code has it.  After [create_job], any sequence of
    operations in which no [update_job] names [id], [repo_url], [repo_type],
    [created_at] or [metadata] (and no other record is inserted under the
    same id) leaves these five attributes of the record as [create_job] set
    them: only [status], [error], [progress] and [updated_at] can differ.
    [get_job] returns the metadata that was supplied. *)
Theorem fixed_attributes_frame (st : JobManager * World) (new_id : string) (now : Z)
    (u ty : string) (me : pyval) (ops : list op) :
  Forall (framed (KStr new_id)) ops ->
  let st' := run ops (exec (Create new_id now u ty me) st) in
  exists job',
    dict_get (KStr new_id) (jobs (fst st')) = Some job' /\
    id job' = VStr new_id /\ repo_url job' = VStr u /\ repo_type job' = VStr ty /\
    created_at job' = VNum now /\ metadata job' = me /\
    (get_job (KStr new_id) (fst st') ≫= dict_get "metadata") = Some me.
Proof.
  intros Hf st'.
  set (job := Job_init new_id now (VStr u) (VStr ty) me).
  assert (Hget : dict_get (KStr new_id)
                   (jobs (fst (exec (Create new_id now u ty me) st))) = Some job).
  { destruct st as [m w]. cbn [exec fst snd]. unfold insert_job. cbn [fst jobs set_jobs].
    apply dict_get_set_eq. }
  destruct (framed_run _ ops _ job Hf Hget) as (job' & Hget' & Hsame).
  apply same_fixed_fields in Hsame as (H1 & H2 & H3 & H4 & H5).
  exists job'. fold st' in Hget'. repeat split; try assumption.
  unfold get_job. rewrite Hget'. cbn [fmap option_fmap option_map mbind option_bind].
  change (dict_get "metadata" (to_dict job')) with (getattr job' "metadata").
  rewrite getattr_metadata, H5. reflexivity.
Qed.

Lemma fixed_attributes_frame_witness :
  let ops := [ WorkerRunning (KStr "job-a") 11;
               UpdateJob (KStr "job-a") [("progress", VStr "half")] 12;
               WorkerFinish (KStr "job-a") (Some "boom") 13 ] in
  let st' := run ops (exec (Create "job-a" 10 "repo1" "github" (VDict [("lang", VStr "en")]))
                           (sample_manager, clean_world)) in
  exists job',
    dict_get (KStr "job-a") (jobs (fst st')) = Some job' /\
    id job' = VStr "job-a" /\ repo_url job' = VStr "repo1" /\
    repo_type job' = VStr "github" /\ created_at job' = VNum 10 /\
    metadata job' = VDict [("lang", VStr "en")] /\
    (get_job (KStr "job-a") (fst st') ≫= dict_get "metadata")
      = Some (VDict [("lang", VStr "en")]).
Proof.
  intros ops st'.
  apply (fixed_attributes_frame (sample_manager, clean_world) "job-a" 10 "repo1" "github"
           (VDict [("lang", VStr "en")]) ops).
  apply Forall_cons. split; [exact I|].
  apply Forall_cons. split; [|apply Forall_cons; split; [exact I | constructor]].
  split; [repeat constructor|].
  intros a Ha. apply list_elem_of_In in Ha. simpl in Ha.
  repeat (destruct Ha as [<-|Ha]; [not_in_list|]). contradiction.
Defined.

(** C6 as stated fails: [update_job] assigns any attribute it is given, the
    id and the metadata included, and [get_job] then shows the new values. *)
Lemma fixed_attributes_reassigned :
  let k := KStr "job-a" in
  let st' := exec (UpdateJob k [("id", VStr "other"); ("metadata", VDict [("x", VNum 1)])] 11)
                  one_job in
  (get_job k (fst one_job) ≫= dict_get "id") = Some (VStr "job-a") /\
  (get_job k (fst one_job) ≫= dict_get "metadata") = Some (VDict []) /\
  (get_job k (fst st') ≫= dict_get "id") = Some (VStr "other") /\
  (get_job k (fst st') ≫= dict_get "metadata") = Some (VDict [("x", VNum 1)]).
Proof. repeat split; reflexivity. Qed.

(** ** Time stamps (C9) *)

Lemma updated_at_setattr job now :
  updated_at (setattr job "updated_at" (VNum now)) = VNum now.
Proof. reflexivity. Qed.

Lemma _update_updated_at k k' kw now m w job :
  dict_get k (jobs m) = Some job ->
  exists job', dict_get k (jobs (fst (_update k' kw now m w))) = Some job' /\
               (job' = job \/ updated_at job' = VNum now).
Proof.
  intros Hget. rewrite _update_get.
  destruct (decide (k' = k)) as [->|Hne].
  - rewrite Hget. cbn [fmap option_fmap option_map]. eexists. split; [reflexivity|].
    right. apply updated_at_setattr.
  - exists job. split; [exact Hget | left; reflexivity].
Qed.

Lemma exec_updated_at k o st job :
  dict_get k (jobs (fst st)) = Some job ->
  exists job', dict_get k (jobs (fst (exec o st))) = Some job' /\
               (job' = job \/ updated_at job' = VNum (reading o)).
Proof.
  destruct st as [m w]. cbn [fst]. intros Hget.
  destruct o as [new_id now u ty me|k' kw now|h now|h res now]; cbn [exec fst snd reading].
  - unfold insert_job. cbn [fst jobs set_jobs]. rewrite dict_get_set.
    destruct (decide (KStr new_id = k)); [|eauto].
    eexists. split; [reflexivity|]. right. reflexivity.
  - apply _update_updated_at, Hget.
  - unfold worker_update, update_by_value.
    destruct (dict_get h (jobs m)) as [jh|];
      [destruct (key_of (id jh)) as [k'|]|]; eauto using _update_updated_at.
  - unfold worker_update, update_by_value.
    destruct (dict_get h (jobs m)) as [jh|];
      [destruct (key_of (id jh)) as [k'|]|]; eauto using _update_updated_at.
Qed.

Lemma history_updated_at k ops : forall st job t c,
  dict_get k (jobs (fst st)) = Some job ->
  updated_at job = VNum t -> t <= c ->
  clock_monotone c ops ->
  nondecreasing_from t (history updated_at k ops st).
Proof.
  induction ops as [|o r IH]; intros st job t c Hget Hup Htc Hclock; [exact I|].
  destruct Hclock as [Hc Hr].
  destruct (exec_updated_at k o st job Hget) as (job' & Hget' & Hcase).
  cbn [history]. rewrite Hget'. cbn [fmap option_fmap option_map].
  destruct Hcase as [->|Hnew].
  - rewrite Hup. cbn [nondecreasing_from]. split; [lia|].
    apply (IH _ job t (reading o)); [assumption | assumption | lia | assumption].
  - rewrite Hnew. cbn [nondecreasing_from]. split; [lia|].
    apply (IH _ job' (reading o) (reading o)); [assumption | assumption | lia | assumption].
Qed.

(** No operation removes a record. *)
Lemma run_present k ops : forall st job,
  dict_get k (jobs (fst st)) = Some job ->
  is_Some (dict_get k (jobs (fst (run ops st)))).
Proof.
  induction ops as [|o r IH]; intros st job Hget; [eexists; exact Hget|].
  destruct (exec_updated_at k o st job Hget) as (job' & Hget' & _).
  exact (IH _ job' Hget').
Qed.

(** C9, as the code has it.  [create_job] sets [updated_at] to [created_at],
    every update of a record sets its [updated_at] to the reading of the
    clock at that update, and the [updated_at] values of a record never go
    back as long as the readings of the clock ([time.time()]) do not. *)
Theorem updated_at_monotone (st : JobManager * World) (new_id : string) (now : Z)
    (u ty : string) (me : pyval) (ops : list op) :
  clock_monotone now ops ->
  Forall plain ops ->
  let k := KStr new_id in
  let st0 := exec (Create new_id now u ty me) st in
  (updated_at <$> dict_get k (jobs (fst st0))) = Some (VNum now) /\
  (created_at <$> dict_get k (jobs (fst st0))) = Some (VNum now) /\
  nondecreasing_from now (history updated_at k ops st0) /\
  (forall kw t, instance_level kw ->
     is_Some (dict_get k (jobs (fst (run ops st0)))) /\
     (updated_at <$> dict_get k (jobs (fst (update_job k kw t (fst (run ops st0))
                                                       (snd (run ops st0))))))
       = Some (VNum t)).
Proof.
  intros Hclock _ k st0.
  assert (Hget : dict_get k (jobs (fst st0)) =
                 Some (Job_init new_id now (VStr u) (VStr ty) me)).
  { destruct st as [m w]. unfold st0. cbn [exec fst snd]. unfold insert_job.
    cbn [fst jobs set_jobs]. apply dict_get_set_eq. }
  rewrite Hget. repeat split.
  - eapply history_updated_at; [exact Hget | reflexivity | | exact Hclock]. lia.
  - eapply run_present, Hget.
  - destruct (run_present k ops st0 _ Hget) as [job' Hget'].
    unfold update_job. rewrite _update_get, decide_True by reflexivity.
    rewrite Hget'. reflexivity.
Qed.

Lemma updated_at_monotone_witness :
  let k := KStr "job-a" in
  let ops := [ WorkerRunning k 11;
               UpdateJob k [("updated_at", VNum 0); ("progress", VStr "half")] 12;
               WorkerFinish k None 12 ] in
  nondecreasing_from 10 (history updated_at k ops one_job).
Proof.
  intros k ops.
  refine (proj1 (proj2 (proj2
    (updated_at_monotone (sample_manager, clean_world) "job-a" 10 "repo1" "github"
       (VDict []) ops _ _)))).
  - simpl. lia.
  - repeat constructor.
Defined.

(** C9 as stated fails: [updated_at] is whatever [time.time()] returns, and
    the wall clock can be set back between two updates. *)
Lemma updated_at_goes_back :
  let k := KStr "job-a" in
  let ops := [ UpdateJob k [("progress", VStr "half")] 5 ] in
  (updated_at <$> dict_get k (jobs (fst one_job))) = Some (VNum 10) /\
  history updated_at k ops one_job = [Some (VNum 5)] /\
  ~ nondecreasing_from 10 (history updated_at k ops one_job).
Proof.
  split; [reflexivity|]. split; [reflexivity|].
  simpl. intros [H _]. lia.
Qed.

(** ** The persistence round trip (C4) *)

Lemma dumps_loads (v : pyval) :
  json_native v = true -> exists j, dumps v = Some j /\ loads j = v.
Proof.
  revert v. fix dumps_loads 1. intros v.
  destruct v as [|b|z|s|l|l|d|n]; simpl; intros Hn; try discriminate;
    try (eexists; split; reflexivity).
  - (* lists *)
    assert (Hl : exists js,
      (fix go (l : list pyval) : option (list json) :=
         match l with
         | [] => Some []
         | x :: r => match dumps x, go r with
                     | Some j, Some js => Some (j :: js)
                     | _, _ => None
                     end
         end) l = Some js /\ map loads js = l).
    { induction l as [|x r IH]; [exists []; split; reflexivity|].
      simpl in Hn. apply andb_true_iff in Hn as [Hx Hr].
      destruct (dumps_loads x Hx) as (j & Hj & Hlj).
      destruct (IH Hr) as (js & Hjs & Hljs).
      exists (j :: js). rewrite Hj, Hjs. simpl. rewrite Hlj, Hljs.
      split; reflexivity. }
    destruct Hl as (js & -> & Hljs). exists (JArr js). simpl. rewrite Hljs.
    split; reflexivity.
  - (* dictionaries *)
    apply andb_true_iff in Hn as [Hnd Hvals]. apply bool_decide_eq_true in Hnd.
    assert (Hd : exists js,
      (fix go (d : list (string * pyval)) : option (list (string * json)) :=
         match d with
         | [] => Some []
         | (k, x) :: r => match dumps x, go r with
                          | Some j, Some js => Some ((k, j) :: js)
                          | _, _ => None
                          end
         end) d = Some js /\ map (fun p => (fst p, loads (snd p))) js = d).
    { clear Hnd. induction d as [|[k x] r IH]; [exists []; split; reflexivity|].
      simpl in Hvals. apply andb_true_iff in Hvals as [Hx Hr].
      destruct (dumps_loads x Hx) as (j & Hj & Hlj).
      destruct (IH Hr) as (js & Hjs & Hljs).
      exists ((k, j) :: js). rewrite Hj, Hjs. simpl. rewrite Hlj, Hljs.
      split; reflexivity. }
    destruct Hd as (js & -> & Hljs). exists (JObj js). simpl. rewrite Hljs.
    rewrite dict_of_pairs_NoDup by exact Hnd. split; reflexivity.
Qed.

Lemma job_of_item_to_dict f job : job_of_item f (to_dict job) = job.
Proof. destruct job. reflexivity. Qed.

Lemma payload_native js :
  Forall (fun kj : tkey * Job => job_native (snd kj) = true) js ->
  json_native (VList (map (fun kj => VDict (to_dict (snd kj))) js)) = true.
Proof.
  intros Hjs. simpl. induction Hjs as [|[k job] r Hjob _ IH]; [reflexivity|].
  cbn [map forallb]. rewrite IH, andb_true_r.
  cbn [json_native snd]. apply andb_true_iff. split; [reflexivity | exact Hjob].
Qed.

Lemma load_items_payload fr js : forall n acc,
  ids_consistent js ->
  NoDup (map fst (acc ++ js)) ->
  load_items fr n (map (fun kj => VDict (to_dict (snd kj))) js) acc = Some (acc ++ js)%list.
Proof.
  induction js as [|[k job] r IH]; intros n acc Hc Hnd; cbn [map load_items snd].
  - rewrite app_nil_r. reflexivity.
  - apply Forall_cons in Hc as [Hk Hr]. cbn [fst snd] in Hk.
    rewrite job_of_item_to_dict, Hk.
    assert (Hfresh : k ∉ map fst acc).
    { rewrite map_app in Hnd. simpl in Hnd.
      apply NoDup_app in Hnd as (_ & Hdisj & _).
      intros Hin. apply (Hdisj k Hin). apply list_elem_of_here. }
    rewrite dict_set_fresh by exact Hfresh.
    rewrite IH; [rewrite <- app_assoc; reflexivity | exact Hr |
                 rewrite <- app_assoc; exact Hnd].
Qed.

Lemma persist_then_load m w fr m0 :
  table_native (jobs m) -> store_writable m w -> mkdir_ok w = true ->
  jobs m0 = [] -> redis_store m0 = redis_store m ->
  jobs (_load_store fr m0 (_persist m w)) = jobs m.
Proof.
  intros (Hc & Hnd & Hnat) Hwr Hmk H0 Hrs.
  destruct (dumps_loads (payload m) (payload_native _ Hnat)) as (j & Hj & Hlj).
  unfold _load_store, load_data, _persist, store_writable in *.
  rewrite Hrs. destruct (redis_store m).
  - unfold RedisStore.save, RedisStore.load. rewrite Hj.
    assert (Hw' : exists w', (match redis w with
                              | RDown => w
                              | _ => set_redis w (RDoc j)
                              end) = w' /\ mkdir_ok w' = true /\ redis w' = RDoc j).
    { destruct (redis w); try contradiction; eexists; repeat split; assumption. }
    destruct Hw' as (w' & -> & -> & ->). rewrite Hlj. cbn [payload iterate mbind option_bind].
    rewrite H0, load_items_payload by assumption. reflexivity.
  - rewrite Hj, Hwr. cbn [set_file mkdir_ok file]. rewrite Hmk, Hlj.
    cbn [payload iterate mbind option_bind].
    rewrite H0, load_items_payload by assumption. reflexivity.
Qed.

(** C4, as the code has it.  Take a table as the manager builds it (every
    record under its id, distinct ids) whose records hold values JSON
    carries unchanged: null, booleans, numbers, strings, lists and
    dictionaries of such, no tuple.  If the write reaches the store, a
    manager constructed afterwards on the same backend holds the same
    records in the same order: all nine attributes of each are equal, the
    time stamps included. *)
Theorem persistence_round_trip (m : JobManager) (w : World) (h h' : heap)
    (fr : nat -> fresh) (workers : Z) (redis_url : option string)
    (imported ok : bool) (m' : JobManager) :
  table_native (jobs m) -> store_writable m w -> mkdir_ok w = true ->
  JobManager_init h fr workers redis_url imported ok (_persist m w) = Ok (m', h') ->
  redis_store m' = redis_store m ->
  jobs m' = jobs m /\ list_jobs m' = list_jobs m /\
  List.length (jobs m') = List.length (jobs m).
Proof.
  intros Hnat Hwr Hmk Hinit Hrs.
  assert (Hjobs : jobs m' = jobs m).
  { unfold JobManager_init in Hinit. cbn [new_lock] in Hinit.
    destruct (Z.leb workers 0); [discriminate|].
    injection Hinit as <- _.
    apply persist_then_load; try assumption; [reflexivity|].
    unfold _load_store in Hrs.
    destruct (load_data _ _ _) in Hrs; exact Hrs. }
  unfold list_jobs. rewrite Hjobs. repeat split; reflexivity.
Qed.

Lemma persistence_round_trip_witness :
  let m := fst one_job in
  match JobManager_init [] sample_fresh 2 None true true (_persist m clean_world) with
  | Ok (m', _) => jobs m' = jobs m /\ list_jobs m' = list_jobs m /\
                  List.length (jobs m') = List.length (jobs m)
  | Raise _ => False
  end.
Proof.
  intros m.
  destruct (JobManager_init [] sample_fresh 2 None true true (_persist m clean_world))
    as [[m' h']|e] eqn:Hinit; [|discriminate Hinit].
  refine (persistence_round_trip m clean_world [] h' sample_fresh 2 None true true m'
            _ _ _ Hinit _).
  - split; [repeat constructor|]. split; [|repeat constructor].
    apply NoDup_cons. split; [apply not_elem_of_nil | apply NoDup_nil_2].
  - reflexivity.
  - reflexivity.
  - injection Hinit as <- _. reflexivity.
Defined.

(** C4 as stated fails: metadata holding a tuple is serializable, and comes
    back from the store holding a list. *)
Lemma round_trip_turns_tuple_into_list :
  let meta := VDict [("tags", VTuple [VStr "a"; VStr "b"])] in
  let st := exec (Create "job-a" 10 "repo1" "github" meta) (sample_manager, clean_world) in
  is_Some (dumps meta) /\
  (metadata <$> dict_get (KStr "job-a") (jobs (fst st))) = Some meta /\
  match JobManager_init [] sample_fresh 4 None true true (_persist (fst st) clean_world) with
  | Ok (m', _) =>
      (metadata <$> dict_get (KStr "job-a") (jobs m'))
        = Some (VDict [("tags", VList [VStr "a"; VStr "b"])])
  | Raise _ => False
  end.
Proof. split; [eexists; reflexivity|]. split; reflexivity. Qed.

(** ** Construction (C5) *)

Lemma _load_store_fields fr m w :
  lock (_load_store fr m w) = lock m /\
  redis_store (_load_store fr m w) = redis_store m /\
  max_workers (_load_store fr m w) = max_workers m /\
  repo_locks (_load_store fr m w) = repo_locks m.
Proof. unfold _load_store. destruct (load_data fr m w); repeat split; reflexivity. Qed.

Lemma load_data_redis_down fr m w :
  redis_store m = true -> redis w = RDown -> jobs m = [] ->
  jobs (_load_store fr m w) = [].
Proof.
  intros Hrs Hdown H0. unfold _load_store, load_data, RedisStore.load.
  rewrite Hrs, Hdown. destruct (mkdir_ok w); cbn; [exact H0 | reflexivity].
Qed.

(** C5, as the code has it.  With a positive pool size, [JobManager(...)]
    returns whatever the state of the backends.
    - When [RedisStore] cannot be imported or its construction raises, the
      manager is on the local file: it holds the table a local-file manager
      has written there, and an empty table when the file is absent or
      loading raises.
    - When the store is constructed and the Redis server cannot be reached,
      the manager stays on Redis and its table is empty, whatever the local
      file holds.
    - In every case [create_job] then returns the record, [get_job] finds
      it and its work item is queued.  On the local file the new table is
      written to the file; with the server down nothing is written. *)
Theorem construction_degrades (h : heap) (fr : nat -> fresh) (workers : Z)
    (redis_url : option string) (imported ok : bool) (w : World) :
  0 < workers ->
  exists m h',
    JobManager_init h fr workers redis_url imported ok w = Ok (m, h') /\
    (imported = false \/ ok = false ->
       redis_store m = false /\
       (forall m1 w1,
          table_native (jobs m1) -> redis_store m1 = false ->
          write_ok w1 = true -> mkdir_ok w1 = true ->
          w = _persist m1 w1 -> jobs m = jobs m1) /\
       (mkdir_ok w = false \/ file w = FAbsent \/ file w = FUnreadable -> jobs m = [])) /\
    (redis_store m = true -> redis w = RDown -> jobs m = []) /\
    forall t new_id now u ty me b,
      exists job g',
        create_job t new_id now u ty me b (mkShared m w h' [] []) = Some (job, g') /\
        get_job (KStr new_id) (mgr g') = Some (to_dict job) /\
        status job = VStr JobStatus.QUEUED /\
        queue g' = [mkWork (KStr new_id) u b] /\
        (redis_store m = false -> write_ok w = true ->
           forall j, dumps (payload (mgr g')) = Some j -> world g' = set_file w (FDoc j)) /\
        (redis_store m = true -> redis w = RDown -> world g' = w).
Proof.
  intros Hpos. unfold JobManager_init. cbn [new_lock].
  destruct (Z.leb_spec workers 0) as [Hle|_]; [lia|].
  set (rs := match redis_url with
             | Some u => negb (String.eqb u "") && imported && ok
             | None => false
             end).
  set (m0 := mkJobManager [] (List.length h) workers [] rs).
  destruct (_load_store_fields fr m0 w) as (Hlock & Hrs & _ & _).
  exists (_load_store fr m0 w), (h ++ [None])%list.
  split; [reflexivity|]. split; [|split].
  - intros Hfail.
    assert (Hfalse : rs = false).
    { unfold rs. destruct redis_url as [u0|]; [|reflexivity].
      destruct Hfail as [-> | ->]; rewrite ?andb_false_r; reflexivity. }
    split; [rewrite Hrs; exact Hfalse|]. split.
    + intros m1 w1 Hnat Hrs1 Hwr Hmk ->.
      apply persist_then_load; try assumption.
      * unfold store_writable. rewrite Hrs1. exact Hwr.
      * reflexivity.
      * cbn [redis_store m0]. rewrite Hfalse, Hrs1. reflexivity.
    + intros Hbad. unfold _load_store, load_data. cbn [redis_store m0]. rewrite Hfalse.
      destruct (mkdir_ok w) eqn:Hmk; [|reflexivity].
      destruct Hbad as [Hbad|[-> | ->]]; [discriminate Hbad | reflexivity | reflexivity].
  - intros Hr Hdown. apply load_data_redis_down; [|exact Hdown | reflexivity].
    rewrite <- Hrs. exact Hr.
  - intros t new_id now u ty me b. unfold create_job, acquire, table_mutex.
    cbn [mgr locks world queue issued]. rewrite Hlock. cbn [lock m0].
    assert (Hfree : (h ++ [None])%list !! List.length h = Some (@None nat))
      by (apply list_lookup_middle; reflexivity).
    eexists _, _. rewrite Hfree.
    cbn [mbind option_bind]. split; [reflexivity|].
    cbn [mgr world]. unfold get_job, insert_job. cbn [fst snd jobs set_jobs].
    rewrite dict_get_set_eq.
    split; [reflexivity|]. split; [reflexivity|]. split; [reflexivity|].
    unfold _persist. cbn [redis_store set_jobs]. split.
    + intros -> Hwr j Hj. rewrite Hj, Hwr. reflexivity.
    + intros -> Hdown. unfold RedisStore.save. rewrite Hdown.
      destruct (dumps _); reflexivity.
Qed.

Lemma construction_degrades_witness :
  let w := _persist (fst one_job) clean_world in
  exists m h',
    JobManager_init [] sample_fresh 4 (Some "redis://cache:6379") true false w = Ok (m, h') /\
    redis_store m = false /\ jobs m = jobs (fst one_job) /\
    exists job g',
      create_job 0 "job-b" 20 "repo1" "github" (VDict []) (mkTask [] None)
                 (mkShared m w h' [] []) = Some (job, g') /\
      get_job (KStr "job-b") (mgr g') = Some (to_dict job).
Proof.
  intros w.
  destruct (construction_degrades [] sample_fresh 4 (Some "redis://cache:6379") true false w
              ltac:(lia)) as (m & h' & Hinit & Hfile & _ & Hsub).
  destruct (Hfile (or_intror eq_refl)) as (Hrs & Hload & _).
  exists m, h'. split; [exact Hinit|]. split; [exact Hrs|].
  split.
  - apply (Hload (fst one_job) clean_world); try reflexivity.
    split; [|split]; cbn; repeat constructor. cbn; not_in_list.
  - destruct (Hsub 0%nat "job-b" 20 "repo1" "github" (VDict []) (mkTask [] None))
      as (job & g' & Hc & Hg & _).
    exists job, g'. split; assumption.
Defined.

(** C5 as stated fails.  The local file holds the record of "job-a" and the
    Redis server cannot be reached.  Without [REDIS_URL] the manager loads
    the record.  With [REDIS_URL] the store is constructed, since the client
    connects on first use only, and [RedisStore.load] turns the connection
    error into an empty list: the manager starts with an empty table, the
    file is not read, and the record of a submission reaches neither Redis
    nor the file.  With a pool size of zero the constructor raises. *)
Lemma server_down_skips_local_file :
  let w := set_redis (_persist (fst one_job) clean_world) RDown in
  match JobManager_init [] sample_fresh 4 None true true w with
  | Ok (m, _) => jobs m = jobs (fst one_job) /\ List.length (jobs m) = 1%nat
  | Raise _ => False
  end /\
  match JobManager_init [] sample_fresh 4 (Some "redis://cache:6379") true true w with
  | Ok (m, h') =>
      redis_store m = true /\ jobs m = [] /\
      match create_job 0 "job-b" 20 "repo1" "github" (VDict []) (mkTask [] None)
                       (mkShared m w h' [] []) with
      | Some (_, g') => world g' = w
      | None => False
      end
  | Raise _ => False
  end /\
  JobManager_init [] sample_fresh 0 (Some "redis://cache:6379") true true w
  = Raise "max_workers must be greater than 0".
Proof. repeat split; reflexivity. Qed.

(** ** Locks *)

Lemma others_same_refl t (h : list (option nat)) : others_same t h h.
Proof. intros l t' _. reflexivity. Qed.

Lemma others_same_trans t (h1 h2 h3 : list (option nat)) :
  others_same t h1 h2 -> others_same t h2 h3 -> others_same t h1 h3.
Proof. intros H12 H23 l t' Hne. rewrite (H12 l t' Hne). apply H23, Hne. Qed.

(** Thread [t] taking a free lock, or giving back or keeping one of its
    own, leaves the locks of the others alone. *)
Lemma others_same_insert t (h : list (option nat)) l (v : option nat) :
  (h !! l = Some None \/ h !! l = Some (Some t)) ->
  (v = None \/ v = Some t) ->
  others_same t h (<[l := v]> h).
Proof.
  intros Hold Hnew l' t' Hne.
  destruct (decide (l = l')) as [<-|Hl].
  - rewrite list_lookup_insert_eq by (destruct Hold as [H|H]; eapply lookup_lt_Some, H).
    split.
    + intros H'. destruct Hold as [H|H]; rewrite H in H'; congruence.
    + intros H'. destruct Hnew as [->| ->]; congruence.
  - rewrite list_lookup_insert_ne by exact Hl. reflexivity.
Qed.

Lemma others_same_alloc t (h : list (option nat)) : others_same t h (h ++ [None])%list.
Proof.
  intros l t' _. split.
  - intros H. rewrite lookup_app_l by (eapply lookup_lt_Some, H). exact H.
  - intros H. destruct (decide (l < List.length h)%nat) as [Hlt|Hge].
    + rewrite lookup_app_l in H by exact Hlt. exact H.
    + rewrite lookup_app_r in H by lia.
      destruct (l - List.length h)%nat; simpl in H; [congruence|].
      rewrite lookup_nil in H. discriminate.
Qed.

Lemma acquire_Some l t (h h' : list (option nat)) :
  acquire l t h = Some h' -> h !! l = Some None /\ h' = <[l := Some t]> h.
Proof.
  unfold acquire. destruct (h !! l) as [[t'|]|]; try discriminate.
  intros [= <-]. split; reflexivity.
Qed.

Lemma acquire_free l t (h : list (option nat)) :
  h !! l = Some None -> acquire l t h = Some (<[l := Some t]> h).
Proof. intros H. unfold acquire. rewrite H. reflexivity. Qed.

(** ** The table only grows *)

Lemma _update_present k k' kw now m w :
  is_Some (dict_get k (jobs m)) ->
  is_Some (dict_get k (jobs (fst (_update k' kw now m w)))).
Proof.
  intros [job Hget]. destruct (_update_updated_at k k' kw now m w job Hget) as (job' & H' & _).
  eexists. exact H'.
Qed.

Lemma _update_manager k kw now m w :
  lock (fst (_update k kw now m w)) = lock m /\
  repo_locks (fst (_update k kw now m w)) = repo_locks m /\
  max_workers (fst (_update k kw now m w)) = max_workers m.
Proof. unfold _update. destruct (dict_get k (jobs m)); repeat split; reflexivity. Qed.

Lemma update_by_value_Ok v kw now m w st :
  update_by_value v kw now m w = Ok st -> exists k, st = _update k kw now m w.
Proof.
  unfold update_by_value. destruct (key_of v) as [k|]; [|discriminate].
  intros [= <-]. exists k. reflexivity.
Qed.

Lemma insert_job_present k k' job m w :
  is_Some (dict_get k (jobs m)) ->
  is_Some (dict_get k (jobs (fst (insert_job k' job m w)))).
Proof.
  intros Hk. unfold insert_job. cbn [fst jobs set_jobs]. rewrite dict_get_set.
  destruct (decide (k' = k)); [eexists; reflexivity | exact Hk].
Qed.

Lemma _get_repo_lock_spec u m (h : list (option nat)) l m' h' :
  _get_repo_lock u m h = (l, m', h') ->
  lock m' = lock m /\ jobs m' = jobs m /\ max_workers m' = max_workers m /\
  dict_get u (repo_locks m') = Some l /\
  (forall u' l', dict_get u' (repo_locks m) = Some l' -> dict_get u' (repo_locks m') = Some l') /\
  (forall u' l', dict_get u' (repo_locks m') = Some l' ->
     dict_get u' (repo_locks m) = Some l' \/ (l' = List.length h /\ h' = (h ++ [None])%list)) /\
  (h' = h \/ h' = (h ++ [None])%list).
Proof.
  unfold _get_repo_lock. destruct (dict_get u (repo_locks m)) as [l0|] eqn:Hget.
  - intros [= <- <- <-]. repeat split; auto.
  - cbn [new_lock]. intros [= <- <- <-]. cbn [lock jobs max_workers repo_locks set_repo_locks].
    repeat split.
    + apply dict_get_set_eq.
    + intros u' l' H'. rewrite dict_get_set_ne; [exact H'|]. intros ->. congruence.
    + intros u' l'. rewrite dict_get_set. destruct (decide (u = u')).
      * intros [= <-]. right. split; reflexivity.
      * intros H'. left. exact H'.
    + right. reflexivity.
Qed.

(** ** What a step leaves in place *)

Lemma frame_same t g g' :
  mgr g' = mgr g -> locks g' = locks g -> queue g' = queue g -> frame_ok t g g'.
Proof.
  intros Hm Hl Hq. split; rewrite ?Hm, ?Hl, ?Hq; auto using others_same_refl.
Qed.

Lemma frame_acquire t g l h :
  acquire l t (locks g) = Some h -> frame_ok t g (with_locks g h).
Proof.
  intros Ha. apply acquire_Some in Ha as [Hfree ->].
  split; cbn [with_locks mgr locks queue]; auto.
  - apply others_same_insert; auto.
  - rewrite length_insert. reflexivity.
Qed.

Lemma frame_release t g l :
  locks g !! l = Some (Some t) -> frame_ok t g (with_locks g (release l (locks g))).
Proof.
  intros Hown. split; cbn [with_locks mgr locks queue]; auto.
  - apply others_same_insert; auto.
  - unfold release. rewrite length_insert. reflexivity.
Qed.

Lemma table_step_update k kw now m w : table_step m (fst (_update k kw now m w)).
Proof.
  destruct (_update_manager k kw now m w) as (Hl & Hr & _).
  split; [exact Hl|]. split; [exact Hr|]. intros k'. apply _update_present.
Qed.

Lemma table_step_insert k job m w : table_step m (fst (insert_job k job m w)).
Proof.
  split; [reflexivity|]. split; [reflexivity|]. intros k'. apply insert_job_present.
Qed.

Lemma frame_table_release t g st :
  table_step (mgr g) (fst st) ->
  locks g !! lock (mgr g) = Some (Some t) ->
  frame_ok t g (with_table g st (release (table_mutex (mgr g)) (locks g))).
Proof.
  intros (Hl & Hr & Hk) Hown. split; cbn [with_table mgr locks queue]; auto.
  - intros u l. rewrite Hr. auto.
  - apply others_same_insert; auto.
  - unfold release. rewrite length_insert. reflexivity.
Qed.

Lemma frame_registry_in t g u l m h :
  (lock (mgr g) < List.length (locks g))%nat ->
  locks g !! lock (mgr g) = Some (Some t) ->
  _get_repo_lock u (mgr g) (locks g) = (l, m, h) ->
  frame_ok t g (mkShared m (world g) (release (registry_mutex m) h) (queue g) (issued g)).
Proof.
  intros Hlt Hown Hget.
  destruct (_get_repo_lock_spec _ _ _ _ _ _ Hget) as (Hl & Hj & _ & _ & Hreg & _ & Hh).
  split; cbn [mgr locks queue]; auto.
  - intros k. rewrite Hj. auto.
  - unfold registry_mutex, release. rewrite Hl. destruct Hh as [-> | ->].
    + apply others_same_insert; auto.
    + eapply others_same_trans; [apply others_same_alloc|].
      apply others_same_insert; auto. right.
      rewrite lookup_app_l by exact Hlt. exact Hown.
  - unfold release. rewrite length_insert. destruct Hh as [-> | ->];
      [reflexivity | rewrite length_app; lia].
Qed.

Lemma assign_manager h a v m :
  lock (assign h a v m) = lock m /\ repo_locks (assign h a v m) = repo_locks m /\
  max_workers (assign h a v m) = max_workers m /\
  redis_store (assign h a v m) = redis_store m.
Proof. unfold assign. destruct (dict_get h (jobs m)); repeat split; reflexivity. Qed.

Lemma assign_get k h a v m :
  dict_get k (jobs (assign h a v m))
  = if decide (h = k) then (fun job => setattr job a v) <$> dict_get k (jobs m)
    else dict_get k (jobs m).
Proof.
  unfold assign. destruct (dict_get h (jobs m)) as [job|] eqn:Hget.
  - cbn [jobs set_jobs]. rewrite dict_get_set.
    destruct (decide (h = k)) as [<-|_]; [rewrite Hget|]; reflexivity.
  - destruct (decide (h = k)) as [<-|_]; [rewrite Hget|]; reflexivity.
Qed.

Lemma assign_present k h a v m :
  is_Some (dict_get k (jobs m)) -> is_Some (dict_get k (jobs (assign h a v m))).
Proof.
  intros [job Hk]. rewrite assign_get, Hk. destruct (decide (h = k)); eexists; reflexivity.
Qed.

Lemma table_step_assign h a v m : table_step m (assign h a v m).
Proof.
  destruct (assign_manager h a v m) as (Hl & Hr & _).
  split; [exact Hl|]. split; [exact Hr|]. intros k. apply assign_present.
Qed.

Lemma frame_assign t g h a v :
  frame_ok t g (mkShared (assign h a v (mgr g)) (world g) (locks g) (queue g) (issued g)).
Proof.
  destruct (table_step_assign h a v (mgr g)) as (Hl & Hr & Hk).
  split; cbn [mgr locks queue]; auto using others_same_refl.
  intros u l. rewrite Hr. auto.
Qed.

Lemma own_table_lock s t th :
  Inv s -> threads s !! t = Some th -> in_table_section th = true ->
  locks (shared s) !! lock (mgr (shared s)) = Some (Some t).
Proof. intros HI Ht Hin. apply (inv_table_owner s HI). eauto. Qed.

Lemma tstep_frame s t th th' g' :
  Inv s -> threads s !! t = Some th ->
  tstep t th (shared s) th' g' ->
  frame_ok t (shared s) g'.
Proof.
  intros HI Ht Hstep.
  inversion Hstep; subst;
    try (apply frame_same; reflexivity);
    try (eapply frame_acquire; eassumption);
    try (apply frame_release;
         refine (own_table_lock s t _ HI Ht _); reflexivity).
  - (* c_insert *)
    apply frame_table_release; [apply table_step_insert|].
    eapply own_table_lock; [eassumption..|reflexivity].
  - (* c_submit *)
    split; cbn [mgr locks queue]; auto using others_same_refl.
    intros wk Hwk. apply elem_of_app in Hwk as [Hwk|Hwk]; [left; exact Hwk|].
    apply list_elem_of_singleton in Hwk as ->. right. cbn [handle].
    eapply (inv_records s HI); [exact Ht | reflexivity].
  - (* w_registry_in *)
    eapply frame_registry_in; [apply (inv_lock s HI) | | eassumption].
    eapply own_table_lock; [eassumption..|reflexivity].
  - (* w_running_in *)
    match goal with H : update_by_value _ _ _ _ _ = Ok _ |- _ =>
      apply update_by_value_Ok in H as [k0 ->] end.
    apply frame_table_release; [apply table_step_update|].
    eapply own_table_lock; [eassumption..|reflexivity].
  - (* w_task_in *)
    apply frame_table_release; [apply table_step_update|].
    eapply own_table_lock; [eassumption..|reflexivity].
  - (* w_task_assign *)
    apply frame_assign.
  - (* w_finish_in *)
    match goal with H : update_by_value _ _ _ _ _ = Ok _ |- _ =>
      apply update_by_value_Ok in H as [k0 ->] end.
    apply frame_table_release; [apply table_step_update|].
    eapply own_table_lock; [eassumption..|reflexivity].
  - (* w_release *)
    apply frame_release. eapply (inv_repo_owner s HI); [exact Ht | reflexivity].
  - (* u_body *)
    apply frame_table_release; [apply table_step_update|].
    eapply own_table_lock; [eassumption..|reflexivity].
Qed.

(** ** The stepping thread *)

Lemma lookup_release_eq (h : list (option nat)) l :
  (l < List.length h)%nat -> release l h !! l = Some None.
Proof. intros Hlt. unfold release. apply list_lookup_insert_eq, Hlt. Qed.

Lemma lookup_release_ne (h : list (option nat)) l l' :
  l <> l' -> release l h !! l' = h !! l'.
Proof. intros Hne. unfold release. apply list_lookup_insert_ne, Hne. Qed.

Lemma lookup_acquire_eq (h h' : list (option nat)) l t :
  acquire l t h = Some h' -> h' !! l = Some (Some t).
Proof.
  intros Ha. apply acquire_Some in Ha as [Hfree ->].
  apply list_lookup_insert_eq. eapply lookup_lt_Some, Hfree.
Qed.

Lemma lookup_acquire_ne (h h' : list (option nat)) l l' t :
  acquire l t h = Some h' -> l <> l' -> h' !! l' = h !! l'.
Proof.
  intros Ha Hne. apply acquire_Some in Ha as [_ ->].
  apply list_lookup_insert_ne, Hne.
Qed.

(** A thread outside the [with self.lock] blocks does not own [self.lock]. *)
Lemma not_table_owner s t th :
  Inv s -> threads s !! t = Some th -> in_table_section th = false ->
  locks (shared s) !! lock (mgr (shared s)) <> Some (Some t).
Proof.
  intros HI Ht Hout Hown. apply (inv_table_owner s HI) in Hown as (th0 & Ht0 & Hin).
  congruence.
Qed.

(** The lock of a repository is not [self.lock]. *)
Lemma repo_lock_distinct s t th u l :
  Inv s -> threads s !! t = Some th ->
  in_repo_section th = Some (u, l) \/ (exists wk, th = TWorker wk (WWait l)) ->
  l <> lock (mgr (shared s)).
Proof.
  intros HI Ht [Hin|[wk ->]].
  - destruct (inv_repo_owner s HI t th u l Ht Hin) as [_ Hreg].
    apply (inv_registry s HI) in Hreg as [_ Hne]. exact Hne.
  - pose proof (inv_waiting s HI t wk l Ht) as Hreg.
    apply (inv_registry s HI) in Hreg as [_ Hne]. exact Hne.
Qed.

Lemma tstep_table_section s t th th' g' :
  Inv s -> threads s !! t = Some th ->
  tstep t th (shared s) th' g' ->
  (in_table_section th' = true <-> locks g' !! lock (mgr g') = Some (Some t)).
Proof.
  intros HI Ht Hstep.
  pose proof (frame_lock _ _ _ (tstep_frame s t th th' g' HI Ht Hstep)) as Hlock.
  rewrite Hlock. clear Hlock.
  pose proof (inv_lock s HI) as Hlt.
  inversion Hstep; subst; cbn [in_table_section with_locks with_table locks mgr];
    unfold table_mutex, registry_mutex in *;
    try (split; [intros _; eapply lookup_acquire_eq; eassumption | reflexivity]);
    try (rewrite lookup_release_eq by exact Hlt; split; discriminate);
    try (split; [discriminate | intros Hown; exfalso;
                 refine (not_table_owner s t _ HI Ht _ Hown); reflexivity]).
  - (* w_registry_in *)
    match goal with H : _get_repo_lock _ _ _ = _ |- _ =>
      destruct (_get_repo_lock_spec _ _ _ _ _ _ H) as (Hl & _ & _ & _ & _ & _ & Hh) end.
    rewrite Hl. rewrite lookup_release_eq; [split; discriminate|].
    destruct Hh as [-> | ->]; [exact Hlt | rewrite length_app; lia].
  - (* w_wait *)
    erewrite lookup_acquire_ne; [| eassumption |
      eapply (repo_lock_distinct s t _ "" l HI Ht); right; eexists; reflexivity].
    split; [discriminate | intros Hown; exfalso;
            refine (not_table_owner s t _ HI Ht _ Hown); reflexivity].
  - (* w_release *)
    rewrite lookup_release_ne
      by (eapply (repo_lock_distinct s t _ _ l HI Ht); left; reflexivity).
    split; [discriminate | intros Hown; exfalso;
            refine (not_table_owner s t _ HI Ht _ Hown); reflexivity].
Qed.

Lemma tstep_repo_section s t th th' g' :
  Inv s -> threads s !! t = Some th ->
  tstep t th (shared s) th' g' ->
  forall u l, in_repo_section th' = Some (u, l) ->
    locks g' !! l = Some (Some t) /\ dict_get u (repo_locks (mgr g')) = Some l.
Proof.
  intros HI Ht Hstep u0 l0 Hin.
  pose proof (tstep_frame s t th th' g' HI Ht Hstep) as Hframe.
  assert (Hold : forall u l, in_repo_section th = Some (u, l) ->
            locks (shared s) !! l = Some (Some t) /\
            dict_get u (repo_locks (mgr (shared s))) = Some l /\
            l <> lock (mgr (shared s))).
  { intros u l Hth. destruct (inv_repo_owner s HI t th u l Ht Hth) as [Ho Hr].
    repeat split; try assumption.
    eapply (repo_lock_distinct s t th u l HI Ht). left. exact Hth. }
  inversion Hstep; subst; cbn [in_repo_section] in Hin; try discriminate Hin;
    injection Hin as <- <-;
    try (destruct (Hold _ _ eq_refl) as (Ho & Hr & Hne));
    (split; [| try (apply (frame_registry _ _ _ Hframe); exact Hr)]);
    cbn [with_locks with_table locks mgr]; unfold table_mutex in *;
    try exact Ho;
    try (rewrite lookup_release_ne by congruence; exact Ho);
    try (erewrite lookup_acquire_ne; [exact Ho | eassumption | congruence]).
  - (* w_wait *) eapply lookup_acquire_eq; eassumption.
  - (* w_wait *) eapply (inv_waiting s HI); exact Ht.
Qed.

Lemma tstep_waiting s t th g' wk l :
  Inv s -> threads s !! t = Some th ->
  tstep t th (shared s) (TWorker wk (WWait l)) g' ->
  dict_get (url wk) (repo_locks (mgr g')) = Some l.
Proof.
  intros HI Ht Hstep. inversion Hstep; subst. cbn [mgr].
  match goal with H : _get_repo_lock _ _ _ = _ |- _ =>
    destruct (_get_repo_lock_spec _ _ _ _ _ _ H) as (_ & _ & _ & Hreg & _) end.
  exact Hreg.
Qed.

Lemma tstep_records s t th th' g' k :
  Inv s -> threads s !! t = Some th ->
  tstep t th (shared s) th' g' ->
  needs_record th' = Some k ->
  is_Some (dict_get k (jobs (mgr g'))).
Proof.
  intros HI Ht Hstep Hk.
  pose proof (tstep_frame s t th th' g' HI Ht Hstep) as Hframe.
  assert (Hold : needs_record th = Some k -> is_Some (dict_get k (jobs (mgr g')))).
  { intros Hth. apply (frame_table _ _ _ Hframe). eapply (inv_records s HI); eassumption. }
  inversion Hstep; subst; cbn [needs_record] in *; try discriminate Hk;
    try (apply Hold; exact Hk).
  (* c_insert *)
  injection Hk as <-. cbn [with_table mgr]. unfold insert_job. cbn [fst jobs set_jobs].
  rewrite dict_get_set_eq. eexists. reflexivity.
Qed.

Lemma tstep_pending s t th g' u ty me b pc new_id job :
  Inv s -> threads s !! t = Some th ->
  tstep t th (shared s) (TCreate u ty me b pc) g' ->
  pending_job (TCreate u ty me b pc) = Some (new_id, job) ->
  exists now, job = Job_init new_id now (VStr u) (VStr ty) me.
Proof.
  intros HI Ht Hstep Hp.
  inversion Hstep; subst; cbn [pending_job] in Hp; try discriminate Hp;
    injection Hp as <- <-.
  - eexists. reflexivity.
  - eapply (inv_pending s HI); [exact Ht | reflexivity].
Qed.

(** ** The invariant *)

Lemma threads_insert_cases (T : list thread) t th thn t' th' :
  T !! t = Some th -> <[t := thn]> T !! t' = Some th' ->
  (t' = t /\ th' = thn) \/ (t' <> t /\ T !! t' = Some th').
Proof.
  intros Ht H'. destruct (decide (t' = t)) as [->|Hne].
  - rewrite list_lookup_insert_eq in H' by (eapply lookup_lt_Some, Ht).
    left. split; congruence.
  - rewrite list_lookup_insert_ne in H' by congruence. right. split; assumption.
Qed.

Lemma tstep_registry s t th th' g' :
  Inv s -> threads s !! t = Some th ->
  tstep t th (shared s) th' g' ->
  forall u l, dict_get u (repo_locks (mgr g')) = Some l ->
    (l < List.length (locks g'))%nat /\ l <> lock (mgr g').
Proof.
  intros HI Ht Hstep u l Hreg.
  pose proof (tstep_frame s t th th' g' HI Ht Hstep) as Hframe.
  rewrite (frame_lock _ _ _ Hframe).
  assert (Hold : dict_get u (repo_locks (mgr (shared s))) = Some l ->
            (l < List.length (locks g'))%nat /\ l <> lock (mgr (shared s))).
  { intros Ho. apply (inv_registry s HI) in Ho as [Hlt Hne]. split; [|exact Hne].
    pose proof (frame_length _ _ _ Hframe). lia. }
  inversion Hstep; subst; cbn [with_locks with_table mgr] in Hreg;
    try (apply Hold; exact Hreg);
    try (match goal with H : update_by_value _ _ _ _ _ = Ok _ |- _ =>
           apply update_by_value_Ok in H as [k0 ->] end);
    try (unfold update_job in Hreg;
         rewrite (proj1 (proj2 (_update_manager _ _ _ _ _))) in Hreg;
         apply Hold; exact Hreg);
    try (rewrite (proj1 (proj2 (assign_manager _ _ _ _))) in Hreg;
         apply Hold; exact Hreg).
  (* w_registry_in *)
  match goal with H : _get_repo_lock _ _ _ = _ |- _ =>
    destruct (_get_repo_lock_spec _ _ _ _ _ _ H) as (_ & _ & _ & _ & _ & Hnew & _) end.
  destruct (Hnew _ _ Hreg) as [Ho|[-> ->]]; [apply Hold, Ho|].
  cbn [locks]. unfold release. rewrite length_insert, length_app. cbn [List.length].
  pose proof (inv_lock s HI). split; lia.
Qed.

Lemma Inv_step_thread s t th th' g' :
  Inv s -> threads s !! t = Some th ->
  tstep t th (shared s) th' g' ->
  Inv (mkSys g' (<[t := th']> (threads s))).
Proof.
  intros HI Ht Hstep.
  pose proof (tstep_frame s t th th' g' HI Ht Hstep) as Hframe.
  pose proof (frame_lock _ _ _ Hframe) as Hlock.
  assert (Hnew : <[t := th']> (threads s) !! t = Some th')
    by (apply list_lookup_insert_eq; eapply lookup_lt_Some, Ht).
  split; cbn [shared threads].
  - rewrite Hlock. pose proof (inv_lock s HI). pose proof (frame_length _ _ _ Hframe). lia.
  - eapply tstep_registry; eassumption.
  - intros t0. split.
    + intros Hown. destruct (decide (t0 = t)) as [->|Hne].
      * exists th'. split; [exact Hnew|].
        apply (tstep_table_section s t th th' g' HI Ht Hstep). exact Hown.
      * rewrite Hlock in Hown. apply (frame_locks _ _ _ Hframe _ _ Hne) in Hown.
        apply (inv_table_owner s HI) in Hown as (th0 & Ht0 & Hin).
        exists th0. split; [|exact Hin].
        rewrite list_lookup_insert_ne by congruence. exact Ht0.
    + intros (th0 & Ht0 & Hin).
      destruct (threads_insert_cases _ _ _ _ _ _ Ht Ht0) as [[-> ->]|[Hne Hold]].
      * apply (tstep_table_section s t th th' g' HI Ht Hstep). exact Hin.
      * rewrite Hlock. apply (frame_locks _ _ _ Hframe _ _ Hne).
        apply (inv_table_owner s HI). eauto.
  - intros t0 th0 u l Ht0 Hin.
    destruct (threads_insert_cases _ _ _ _ _ _ Ht Ht0) as [[-> ->]|[Hne Hold]].
    + eapply tstep_repo_section; eassumption.
    + destruct (inv_repo_owner s HI t0 th0 u l Hold Hin) as [Ho Hr]. split.
      * apply (frame_locks _ _ _ Hframe _ _ Hne). exact Ho.
      * apply (frame_registry _ _ _ Hframe). exact Hr.
  - intros t0 wk l Ht0.
    destruct (threads_insert_cases _ _ _ _ _ _ Ht Ht0) as [[-> Heq]|[Hne Hold]].
    + rewrite <- Heq in Hstep. eapply tstep_waiting; eassumption.
    + apply (frame_registry _ _ _ Hframe). eapply (inv_waiting s HI). exact Hold.
  - intros t0 th0 k Ht0 Hk.
    destruct (threads_insert_cases _ _ _ _ _ _ Ht Ht0) as [[-> ->]|[Hne Hold]].
    + eapply tstep_records; eassumption.
    + apply (frame_table _ _ _ Hframe). eapply (inv_records s HI); eassumption.
  - intros wk Hwk. destruct (frame_queue _ _ _ Hframe wk Hwk) as [Hold|Hp]; [|exact Hp].
    apply (frame_table _ _ _ Hframe). apply (inv_queue s HI). exact Hold.
  - intros t0 u ty me b pc new_id job Ht0 Hp.
    destruct (threads_insert_cases _ _ _ _ _ _ Ht Ht0) as [[-> Heq]|[Hne Hold]].
    + rewrite <- Heq in Hstep. eapply tstep_pending; eassumption.
    + eapply (inv_pending s HI); eassumption.
Qed.

Lemma lookup_snoc_cases (T : list thread) th t0 th0 :
  (T ++ [th])%list !! t0 = Some th0 -> T !! t0 = Some th0 \/ th0 = th.
Proof.
  intros H. apply lookup_snoc_Some in H as [[_ H]|[_ H]]; [left; exact H | right; congruence].
Qed.

(** A thread that joins outside every section keeps the invariant. *)
Lemma Inv_join s q th :
  Inv s ->
  in_table_section th = false -> in_repo_section th = None ->
  (forall wk l, th <> TWorker wk (WWait l)) ->
  (forall k, needs_record th = Some k ->
             is_Some (dict_get k (jobs (mgr (shared s))))) ->
  pending_job th = None ->
  (forall wk, wk ∈ q -> wk ∈ queue (shared s)) ->
  Inv (mkSys (mkShared (mgr (shared s)) (world (shared s)) (locks (shared s)) q
                       (issued (shared s)))
             (threads s ++ [th])).
Proof.
  intros HI Htab Hrepo Hwait Hrec Hpend Hq.
  split; cbn [shared threads mgr locks queue].
  - apply (inv_lock s HI).
  - apply (inv_registry s HI).
  - intros t0. rewrite (inv_table_owner s HI t0). split.
    + intros (th0 & Ht0 & Hin). exists th0. split; [|exact Hin].
      apply lookup_app_l_Some, Ht0.
    + intros (th0 & Ht0 & Hin).
      apply lookup_snoc_cases in Ht0 as [Ht0| ->]; [eauto | congruence].
  - intros t0 th0 u l Ht0 Hin.
    apply lookup_snoc_cases in Ht0 as [Ht0| ->]; [|congruence].
    eapply (inv_repo_owner s HI); eassumption.
  - intros t0 wk l Ht0.
    apply lookup_snoc_cases in Ht0 as [Ht0|Heq];
      [eapply (inv_waiting s HI); eassumption | exfalso; eapply Hwait; eauto].
  - intros t0 th0 k Ht0 Hk.
    apply lookup_snoc_cases in Ht0 as [Ht0| ->]; [|auto].
    eapply (inv_records s HI); eassumption.
  - intros wk Hwk. apply (inv_queue s HI), Hq, Hwk.
  - intros t0 u ty me b pc new_id job Ht0 Hp.
    apply lookup_snoc_cases in Ht0 as [Ht0|Heq];
      [eapply (inv_pending s HI); eassumption | congruence].
Qed.

Lemma entering_outside th :
  entering th = true ->
  in_table_section th = false /\ in_repo_section th = None /\
  (forall wk l, th <> TWorker wk (WWait l)) /\
  needs_record th = None /\ pending_job th = None.
Proof.
  destruct th as [u ty me b []|wk pc|k kw []|k []]; try discriminate;
    intros _; repeat split; discriminate.
Qed.

Lemma Inv_step s s' : Inv s -> step s s' -> Inv s'.
Proof.
  intros HI Hstep. destruct Hstep as [s t th th' g' Ht Hts|s th Hent|s wk q Hq Hcap|s w'].
  - eapply Inv_step_thread; eassumption.
  - destruct (entering_outside th Hent) as (H1 & H2 & H3 & H4 & H5).
    destruct s as [[m w L qu iss] T]. cbn [shared] in *.
    apply (Inv_join (mkSys (mkShared m w L qu iss) T) qu th HI); try assumption.
    + intros k Hk. congruence.
    + auto.
  - apply (Inv_join s q (TWorker wk WRegistry) HI); try reflexivity.
    + discriminate.
    + intros k [= <-]. apply (inv_queue s HI). rewrite Hq. apply list_elem_of_here.
    + intros wk' Hwk'. rewrite Hq. apply list_elem_of_further, Hwk'.
  - destruct HI as [H1 H2 H3 H4 H5 H6 H7 H8]. split; assumption.
Qed.

Lemma JobManager_init_fresh fr workers redis_url imported ok w m (h : list (option nat)) :
  JobManager_init [] fr workers redis_url imported ok w = Ok (m, h) ->
  lock m = 0%nat /\ h = [None] /\ repo_locks m = [] /\ max_workers m = workers.
Proof.
  unfold JobManager_init. cbn [new_lock]. destruct (Z.leb workers 0); [discriminate|].
  intros [= <- <-].
  match goal with |- context [_load_store fr ?m0 w] =>
    destruct (_load_store_fields fr m0 w) as (Hl & _ & Hw & Hr) end.
  rewrite Hl, Hw, Hr. repeat split; reflexivity.
Qed.

Lemma Inv_initial s : initial s -> Inv s.
Proof.
  intros (fr & workers & redis_url & imported & ok & w & m & h & Hinit & ->).
  apply JobManager_init_fresh in Hinit as (Hl & -> & Hr & _).
  split; cbn [shared threads mgr locks queue]; rewrite ?Hl, ?Hr.
  - cbn. lia.
  - intros u l Hget. discriminate Hget.
  - intros t. split; [intros H; discriminate H | intros (th & Ht & _)].
    rewrite lookup_nil in Ht. discriminate.
  - intros t th u l Ht. rewrite lookup_nil in Ht. discriminate.
  - intros t wk l Ht. rewrite lookup_nil in Ht. discriminate.
  - intros t th k Ht. rewrite lookup_nil in Ht. discriminate.
  - intros wk Hwk. apply elem_of_nil in Hwk. contradiction.
  - intros t u ty me b pc new_id job Ht. rewrite lookup_nil in Ht. discriminate.
Qed.

Lemma Inv_rtc s s' : Inv s -> rtc step s s' -> Inv s'.
Proof. intros HI Hrtc. induction Hrtc; [exact HI | eauto using Inv_step]. Qed.

Lemma Inv_reachable s : reachable s -> Inv s.
Proof. intros (s0 & H0 & Hrtc). eapply Inv_rtc; [apply Inv_initial, H0 | exact Hrtc]. Qed.

(** ** Mutual exclusion per repository (C1) *)

Lemma one_thread_per_repo s t1 t2 th1 th2 u l1 l2 :
  Inv s ->
  threads s !! t1 = Some th1 -> threads s !! t2 = Some th2 ->
  in_repo_section th1 = Some (u, l1) -> in_repo_section th2 = Some (u, l2) ->
  l1 = l2 /\ t1 = t2.
Proof.
  intros HI Ht1 Ht2 H1 H2.
  destruct (inv_repo_owner s HI t1 th1 u l1 Ht1 H1) as [Ho1 Hr1].
  destruct (inv_repo_owner s HI t2 th2 u l2 Ht2 H2) as [Ho2 Hr2].
  assert (l1 = l2) as <- by congruence.
  split; [reflexivity | congruence].
Qed.

(** The pool never runs more work items than it has threads. *)
Lemma busy_insert (T : list thread) t th th' :
  T !! t = Some th -> (busy th' = true -> busy th = true) ->
  (List.length (filter (fun x => busy x = true) (<[t := th']> T))
   <= List.length (filter (fun x => busy x = true) T))%nat.
Proof.
  revert t. induction T as [|x r IH]; intros [|t] Ht Hb; try discriminate; simpl in *.
  - injection Ht as ->. rewrite !filter_cons.
    destruct (decide (busy th' = true)) as [Hb'|_].
    + rewrite decide_True by auto. reflexivity.
    + destruct (decide (busy th = true)); simpl; lia.
  - rewrite !filter_cons. specialize (IH t Ht Hb).
    destruct (decide (busy x = true)); simpl; lia.
Qed.

Lemma tstep_busy t th g th' g' :
  tstep t th g th' g' ->
  (busy th' = true -> busy th = true) /\ max_workers (mgr g') = max_workers (mgr g).
Proof.
  intros Hstep. inversion Hstep; subst; cbn [busy with_locks with_table mgr];
    try (split; [auto | reflexivity]);
    try (match goal with H : update_by_value _ _ _ _ _ = Ok _ |- _ =>
           apply update_by_value_Ok in H as [k0 ->] end);
    try (split; [auto|]; unfold update_job; apply _update_manager);
    try (split; [auto|]; apply assign_manager).
  match goal with H : _get_repo_lock _ _ _ = _ |- _ =>
    destruct (_get_repo_lock_spec _ _ _ _ _ _ H) as (_ & _ & Hw & _) end.
  split; [auto | exact Hw].
Qed.

Lemma pool_bound_step s s' :
  (Z.of_nat (busy_workers s) <= Z.max 0 (max_workers (mgr (shared s)))) ->
  step s s' ->
  (Z.of_nat (busy_workers s') <= Z.max 0 (max_workers (mgr (shared s')))).
Proof.
  intros Hb Hstep. destruct Hstep as [s t th th' g' Ht Hts|s th Hent|s wk q Hq Hcap|s w'];
    unfold busy_workers in *; cbn [shared threads mgr] in *.
  - destruct (tstep_busy _ _ _ _ _ Hts) as [Hbusy ->].
    pose proof (busy_insert (threads s) t th th' Ht Hbusy). lia.
  - rewrite filter_app, length_app. rewrite filter_cons, filter_nil.
    destruct th as [u ty me b []|wk pc|k kw []|k []]; try discriminate Hent;
      rewrite decide_False by discriminate; simpl; lia.
  - rewrite filter_app, length_app. rewrite filter_cons, filter_nil.
    rewrite decide_True by reflexivity. simpl. lia.
  - exact Hb.
Qed.

Lemma pool_bound s :
  reachable s -> (Z.of_nat (busy_workers s) <= max_workers (mgr (shared s))).
Proof.
  intros (s0 & H0 & Hrtc).
  assert (Hpos : 0 < max_workers (mgr (shared s0)) /\ busy_workers s0 = 0%nat).
  { destruct H0 as (fr & workers & redis_url & imported & ok & w & m & h & Hinit & ->).
    pose proof (JobManager_init_fresh _ _ _ _ _ _ _ _ Hinit) as (_ & _ & _ & Hw).
    unfold JobManager_init in Hinit. cbn [new_lock] in Hinit.
    destruct (Z.leb_spec workers 0); [discriminate|].
    cbn [shared mgr]. split; [lia | reflexivity]. }
  assert (Hgen : Z.of_nat (busy_workers s) <= Z.max 0 (max_workers (mgr (shared s))) /\
                 0 < max_workers (mgr (shared s))).
  { destruct Hpos as [Hp H0']. 
    assert (Hstart : Z.of_nat (busy_workers s0) <= Z.max 0 (max_workers (mgr (shared s0))) /\
                     0 < max_workers (mgr (shared s0))) by (rewrite H0'; lia).
    clear H0 H0' Hp. induction Hrtc as [|x y z Hxy _ IH]; [exact Hstart|].
    apply IH. destruct Hstart as [Hb Hp]. split; [eapply pool_bound_step; eassumption|].
    destruct Hxy as [s1 t th th' g' Ht Hts|s1 th Hent|s1 wk q Hq Hcap|s1 w'];
      cbn [shared mgr]; try exact Hp.
    destruct (tstep_busy _ _ _ _ _ Hts) as [_ ->]. exact Hp. }
  lia.
Qed.

Lemma pool_of_two_initial : initial pool_of_two.
Proof.
  exists sample_fresh, 2, None, true, true, clean_world.
  eexists _, _. split; reflexivity.
Qed.

Ltac thread_step n :=
  eapply rtc_l;
  [ eapply (step_thread _ n); [reflexivity | econstructor; try reflexivity] | cbn ].

Ltac new_call th :=
  eapply rtc_l; [ apply (step_call _ th); reflexivity | cbn ].

Ltac pool_step :=
  eapply rtc_l; [ eapply step_pool; [reflexivity | reflexivity] | cbn ].

Lemma two_repositories_run : rtc step pool_of_two both_in_task.
Proof.
  unfold pool_of_two. cbn.
    new_call (TCreate "repo1" "github" (VDict []) (reporting_task (KStr "job-a")) CNew).
    new_call (TCreate "repo2" "github" (VDict []) (reporting_task (KStr "job-b")) CNew).
    eapply rtc_l; [eapply (step_thread _ 0%nat); [reflexivity|
      eapply (c_new _ _ _ _ _ _ "job-a" 10); [apply not_elem_of_nil | reflexivity]] | cbn].
    thread_step 0%nat. thread_step 0%nat. thread_step 0%nat.
    eapply rtc_l; [eapply (step_thread _ 1%nat); [reflexivity|
      eapply (c_new _ _ _ _ _ _ "job-b" 11); [cbn; not_in_list | reflexivity]] | cbn].
    thread_step 1%nat. thread_step 1%nat. thread_step 1%nat.
    pool_step. pool_step.
    thread_step 2%nat. thread_step 2%nat. thread_step 2%nat. thread_step 2%nat.
    thread_step 2%nat.
    eapply rtc_l; [eapply (step_thread _ 2%nat); [reflexivity|
      eapply (w_running_in _ _ _ _ _ 12); reflexivity] | cbn].
    thread_step 3%nat. thread_step 3%nat. thread_step 3%nat. thread_step 3%nat.
    thread_step 3%nat.
    eapply rtc_l; [eapply (step_thread _ 3%nat); [reflexivity|
      eapply (w_running_in _ _ _ _ _ 13); reflexivity] | cbn].
    apply rtc_refl.
Qed.

Lemma both_in_task_reachable : reachable both_in_task.
Proof. exists pool_of_two. split; [apply pool_of_two_initial | apply two_repositories_run]. Qed.

(** C1.  In every reachable state, two threads that are between acquiring
    and releasing the lock of the same repository are the same thread, and
    they hold the same lock object: at most one job per [repo_url] is inside
    [with repo_lock], hence inside its task.  The pool runs at most
    [max_workers] work items at a time, and jobs of different repositories
    do run their tasks at the same time. *)
Theorem repo_mutual_exclusion (s : Sys) (t1 t2 : nat) (th1 th2 : thread)
    (u : string) (l1 l2 : nat) :
  reachable s ->
  threads s !! t1 = Some th1 -> threads s !! t2 = Some th2 ->
  in_repo_section th1 = Some (u, l1) -> in_repo_section th2 = Some (u, l2) ->
  t1 = t2 /\ l1 = l2 /\
  Z.of_nat (busy_workers s) <= max_workers (mgr (shared s)) /\
  exists s' a b wa wb pa pb,
    reachable s' /\ a <> b /\
    threads s' !! a = Some (TWorker wa pa) /\ threads s' !! b = Some (TWorker wb pb) /\
    url wa <> url wb /\
    in_task (TWorker wa pa) = true /\ in_task (TWorker wb pb) = true.
Proof.
  intros Hreach Ht1 Ht2 H1 H2.
  destruct (one_thread_per_repo s t1 t2 th1 th2 u l1 l2 (Inv_reachable s Hreach)
              Ht1 Ht2 H1 H2) as [Hl Ht].
  split; [exact Ht|]. split; [exact Hl|]. split; [apply pool_bound, Hreach|].
  exists both_in_task, 2%nat, 3%nat.
  eexists _, _, _, _. split; [apply both_in_task_reachable|].
  split; [discriminate|]. split; [reflexivity|]. split; [reflexivity|].
  split; [discriminate|]. split; reflexivity.
Qed.

Lemma repo_mutual_exclusion_witness :
  let th := TWorker (mkWork (KStr "job-a") "repo1" (reporting_task (KStr "job-a")))
                    (WTask 1 (actions (reporting_task (KStr "job-a")))) in
  threads both_in_task !! 2%nat = Some th /\
  in_repo_section th = Some ("repo1", 1%nat) /\
  Z.of_nat (busy_workers both_in_task) <= max_workers (mgr (shared both_in_task)).
Proof.
  intros th. split; [reflexivity|]. split; [reflexivity|].
  exact (proj1 (proj2 (proj2
    (repo_mutual_exclusion both_in_task 2 2 th th "repo1" 1 1
       both_in_task_reachable eq_refl eq_refl eq_refl eq_refl)))).
Defined.

(** ** The mutex of the registry (C8) *)

Lemma in_registry_reachable : reachable in_registry.
Proof.
  exists pool_of_two. split; [apply pool_of_two_initial|].
  unfold pool_of_two. cbn.
  new_call (TCreate "repo1" "github" (VDict []) (reporting_task (KStr "job-a")) CNew).
  eapply rtc_l; [eapply (step_thread _ 0%nat); [reflexivity|
    eapply (c_new _ _ _ _ _ _ "job-a" 10); [apply not_elem_of_nil | reflexivity]] | cbn].
  thread_step 0%nat. thread_step 0%nat. thread_step 0%nat.
  pool_step.
  new_call (TUpdate (KStr "job-a") [("progress", VStr "half")] UWait).
  thread_step 1%nat.
  apply rtc_refl.
Qed.

(** C8 as stated fails: [_get_repo_lock] takes [self.lock], the mutex of the
    job table.  While a worker looks its lock up, an [update_job] call
    waits. *)
Lemma registry_shares_table_mutex :
  let m := mgr (shared in_registry) in
  registry_mutex m = table_mutex m /\
  reachable in_registry /\
  threads in_registry !! 1%nat
    = Some (TWorker (mkWork (KStr "job-a") "repo1" (reporting_task (KStr "job-a")))
                    WRegistryIn) /\
  threads in_registry !! 2%nat
    = Some (TUpdate (KStr "job-a") [("progress", VStr "half")] UWait) /\
  forall th' g',
    ~ tstep 2 (TUpdate (KStr "job-a") [("progress", VStr "half")] UWait)
            (shared in_registry) th' g'.
Proof.
  intros m. split; [reflexivity|]. split; [apply in_registry_reachable|].
  split; [reflexivity|]. split; [reflexivity|].
  intros th' g' Hstep. inversion Hstep; subst.
  match goal with H : acquire _ _ _ = Some _ |- _ => discriminate H end.
Qed.

(** C8, as the code has it.  The registry has no mutex of its own: it is
    guarded by [self.lock], which also guards the job table.  A thread owns
    that mutex exactly while it is inside a [with self.lock] block.  So
    [_get_repo_lock] holds it for the lookup and creation only: a worker
    that waits for the lock of its repository, or holds it outside the
    blocks of [_update], or runs the code of its task, does not own it. *)
Theorem registry_mutex_scope (s : Sys) (t : nat) (th : thread) :
  reachable s -> threads s !! t = Some th ->
  registry_mutex (mgr (shared s)) = table_mutex (mgr (shared s)) /\
  (locks (shared s) !! registry_mutex (mgr (shared s)) = Some (Some t) <->
   in_table_section th = true) /\
  (forall wk l todo res exc,
     th = TWorker wk (WWait l) \/ th = TWorker wk (WRunningId l) \/
     th = TWorker wk (WTask l todo) \/ th = TWorker wk (WFinishId l res) \/
     th = TWorker wk (WRelease l exc) ->
     locks (shared s) !! registry_mutex (mgr (shared s)) <> Some (Some t)).
Proof.
  intros Hreach Ht. pose proof (Inv_reachable s Hreach) as HI.
  split; [reflexivity|]. unfold registry_mutex. split.
  - rewrite (inv_table_owner s HI t). split.
    + intros (th0 & Ht0 & Hin). congruence.
    + intros Hin. eauto.
  - intros wk l todo res exc Hth. apply (not_table_owner s t th HI Ht).
    destruct Hth as [->|[->|[->|[->| ->]]]]; reflexivity.
Qed.

Lemma registry_mutex_scope_witness :
  locks (shared both_in_task) !! registry_mutex (mgr (shared both_in_task))
    <> Some (Some 2%nat).
Proof.
  refine (proj2 (proj2
    (registry_mutex_scope both_in_task 2
       (TWorker (mkWork (KStr "job-a") "repo1" (reporting_task (KStr "job-a")))
                (WTask 1 (actions (reporting_task (KStr "job-a")))))
       both_in_task_reachable eq_refl)) _ 1%nat _ None None _).
  right. right. left. reflexivity.
Defined.

(** ** Failing tasks (C3) *)

Lemma acquire_release (L : list (option nat)) l t :
  L !! l = Some None ->
  acquire l t L = Some (<[l := Some t]> L) /\ release l (<[l := Some t]> L) = L.
Proof.
  intros Hfree. split; [apply acquire_free, Hfree|].
  unfold release. rewrite list_insert_insert_eq. apply list_insert_id, Hfree.
Qed.

Lemma locked_update_spec t v k kw now g :
  locks g !! lock (mgr g) = Some None -> key_of v = Some k ->
  locked_update t v kw now g =
  Some (None, with_table g (_update k kw now (mgr g) (world g)) (locks g)).
Proof.
  intros Hfree Hk. unfold locked_update, table_mutex, update_by_value.
  destruct (acquire_release _ _ t Hfree) as [-> Hrel]. cbn [mbind option_bind].
  rewrite Hk, Hrel. reflexivity.
Qed.

Lemma setattr_id job a v : a <> "id" -> id (setattr job a v) = id job.
Proof.
  intros Ha. unfold setattr.
  destruct (String.eqb_spec a "id") as [->|_]; [contradiction|].
  repeat (match goal with |- context [String.eqb a ?x] => destruct (String.eqb a x) end;
          [reflexivity|]).
  reflexivity.
Qed.

(** An assignment by the task that is not to [id] keeps the records under
    their keys. *)
Lemma assign_ids_consistent h a v m :
  a <> "id" -> ids_consistent (jobs m) -> ids_consistent (jobs (assign h a v m)).
Proof.
  intros Ha Hc. unfold assign. destruct (dict_get h (jobs m)) as [job|] eqn:Hget; [|exact Hc].
  cbn [jobs set_jobs]. apply Forall_dict_set; [exact Hc|]. cbn [fst snd].
  rewrite setattr_id by exact Ha. eapply ids_consistent_get; eassumption.
Qed.

Lemma apply_calls_manager hd todo clock : forall n st,
  lock (fst (apply_calls hd todo clock n st)) = lock (fst st) /\
  repo_locks (fst (apply_calls hd todo clock n st)) = repo_locks (fst st).
Proof.
  induction todo as [|[k kw|a v] r IH]; intros n st; [split; reflexivity| |].
  - cbn [apply_calls]. destruct (IH (S n) (update_job k kw (clock n) (fst st) (snd st)))
      as [-> ->].
    unfold update_job.
    destruct (_update_manager k kw (clock n) (fst st) (snd st)) as (-> & -> & _).
    split; reflexivity.
  - cbn [apply_calls]. destruct (IH (S n) (assign hd a v (fst st), snd st)) as [-> ->].
    cbn [fst]. destruct (assign_manager hd a v (fst st)) as (-> & -> & _).
    split; reflexivity.
Qed.

Lemma run_calls_spec t hd todo clock : forall n g,
  locks g !! lock (mgr g) = Some None ->
  run_calls t hd todo clock n g =
  Some (with_table g (apply_calls hd todo clock n (mgr g, world g)) (locks g)).
Proof.
  induction todo as [|[k kw|a v] r IH]; intros n g Hfree.
  - destruct g. reflexivity.
  - cbn [run_calls apply_calls fst snd]. unfold table_mutex.
    destruct (acquire_release _ _ t Hfree) as [-> Hrel]. cbn [mbind option_bind].
    rewrite Hrel, IH.
    + unfold with_table. cbn [mgr world locks queue issued].
      rewrite <- surjective_pairing. reflexivity.
    + cbn [with_table mgr locks]. unfold update_job.
      rewrite (proj1 (_update_manager _ _ _ _ _)). exact Hfree.
  - cbn [run_calls apply_calls fst snd]. rewrite IH.
    + unfold with_table. cbn [mgr world locks queue issued]. reflexivity.
    + cbn [mgr locks]. rewrite (proj1 (assign_manager _ _ _ _)). exact Hfree.
Qed.

(** The actions of a task that leave [id] alone keep the table consistent
    and the records in place. *)
Lemma apply_calls_keeps hd todo clock : forall n st k job,
  Forall keeps_id_action todo ->
  ids_consistent (jobs (fst st)) ->
  dict_get k (jobs (fst st)) = Some job ->
  ids_consistent (jobs (fst (apply_calls hd todo clock n st))) /\
  is_Some (dict_get k (jobs (fst (apply_calls hd todo clock n st)))).
Proof.
  induction todo as [|[k' kw|a v] r IH]; intros n st k job Hk Hc Hget.
  - split; [exact Hc | eexists; exact Hget].
  - apply Forall_cons in Hk as [[_ Hid] Hr]. cbn [apply_calls].
    destruct (_update_present k k' kw (clock n) (fst st) (snd st)
                ltac:(eexists; exact Hget)) as [job' Hget'].
    eapply (IH (S n) _ k job' Hr); [|exact Hget'].
    apply _update_ids_consistent; assumption.
  - apply Forall_cons in Hk as [[_ Hid] Hr]. cbn [apply_calls].
    destruct (assign_present k hd a v (fst st) ltac:(eexists; exact Hget)) as [job' Hget'].
    eapply (IH (S n) _ k job' Hr); [|exact Hget'].
    cbn [fst]. apply assign_ids_consistent; assumption.
Qed.

Lemma free_ready u g : free g -> ready u g.
Proof.
  intros (Hlt & Hall & Hreg). split; [exact Hlt|]. split; [exact Hreg|].
  split; [apply Hall, Hlt|]. intros l Hl. apply Hall, (Hreg u l Hl).
Qed.

(** A change of the table leaves the locks as they are. *)
Lemma ready_table u g m' w' q' i' :
  lock m' = lock (mgr g) -> repo_locks m' = repo_locks (mgr g) ->
  ready u g -> ready u (mkShared m' w' (locks g) q' i').
Proof.
  intros Hl Hr (H1 & H2 & H3 & H4). unfold ready. cbn [mgr locks]. rewrite Hl, Hr.
  repeat split; try assumption; apply H2 in H; apply H.
Qed.

Lemma free_table g m' w' q' i' :
  lock m' = lock (mgr g) -> repo_locks m' = repo_locks (mgr g) ->
  free g -> free (mkShared m' w' (locks g) q' i').
Proof.
  intros Hl Hr (H1 & H2 & H3). unfold free. cbn [mgr locks]. rewrite Hl, Hr.
  repeat split; try assumption; apply H3 in H; apply H.
Qed.

(** The first lines of [_run], up to the acquisition of [repo_lock]: the
    lock [l] of the repository is registered and free, and the locks of the
    other repositories are as they were. *)
Lemma registry_part t u g :
  ready u g ->
  exists l m1 L1,
    acquire (registry_mutex (mgr g)) t (locks g)
      = Some (<[lock (mgr g) := Some t]> (locks g)) /\
    _get_repo_lock u (mgr g) (<[lock (mgr g) := Some t]> (locks g))
      = (l, m1, <[lock (mgr g) := Some t]> L1) /\
    release (registry_mutex m1) (<[lock (mgr g) := Some t]> L1) = L1 /\
    ready u (mkShared m1 (world g) L1 (queue g) (issued g)) /\
    dict_get u (repo_locks m1) = Some l /\
    jobs m1 = jobs (mgr g) /\ lock m1 = lock (mgr g) /\
    (forall u2, ready u2 g -> ready u2 (mkShared m1 (world g) L1 (queue g) (issued g))) /\
    (free g -> free (mkShared m1 (world g) L1 (queue g) (issued g))) /\
    (forall l' t', L1 !! l' = Some (Some t') <-> locks g !! l' = Some (Some t')).
Proof.
  intros (Hlt & Hreg & Hlock & Hu).
  destruct (acquire_release _ _ t Hlock) as [Hacq Hrel].
  unfold _get_repo_lock, registry_mutex.
  destruct (dict_get u (repo_locks (mgr g))) as [l|] eqn:Hget.
  - exists l, (mgr g), (locks g).
    split; [exact Hacq|]. split; [reflexivity|]. split; [exact Hrel|].
    assert (Hg : mkShared (mgr g) (world g) (locks g) (queue g) (issued g) = g)
      by (destruct g; reflexivity).
    rewrite Hg. split; [unfold ready; rewrite Hget; auto|].
    split; [exact Hget|]. split; [reflexivity|]. split; [reflexivity|].
    split; [auto|]. split; [auto|]. intros l' t'. reflexivity.
  - cbn [new_lock]. rewrite length_insert.
    exists (List.length (locks g)),
           (set_repo_locks (mgr g) (dict_set u (List.length (locks g)) (repo_locks (mgr g)))),
           (locks g ++ [None])%list.
    cbn [lock jobs set_repo_locks repo_locks].
    assert (Happ : (<[lock (mgr g) := Some t]> (locks g) ++ [None])%list
                   = <[lock (mgr g) := Some t]> (locks g ++ [None])%list)
      by (symmetry; apply insert_app_l, Hlt).
    assert (Hlock' : (locks g ++ [None])%list !! lock (mgr g) = Some None)
      by (rewrite lookup_app_l by exact Hlt; exact Hlock).
    assert (Hnew : (locks g ++ [None])%list !! List.length (locks g) = Some (@None nat))
      by (apply list_lookup_middle; reflexivity).
    assert (Hwf : forall u' l',
              dict_get u' (dict_set u (List.length (locks g)) (repo_locks (mgr g))) = Some l' ->
              (l' < List.length (locks g ++ [None]))%nat /\ l' <> lock (mgr g)).
    { intros u' l'. rewrite dict_get_set, length_app. cbn [List.length].
      destruct (decide (u = u')).
      - intros [= <-]. split; lia.
      - intros H'. destruct (Hreg u' l' H'). split; [lia | assumption]. }
    assert (Hlen : (lock (mgr g) < List.length (locks g ++ [None]))%nat)
      by (rewrite length_app; cbn [List.length]; lia).
    split; [exact Hacq|]. split; [rewrite Happ; reflexivity|].
    split; [apply (acquire_release _ _ t Hlock')|].
    split; [|split; [apply dict_get_set_eq|split; [reflexivity|split; [reflexivity|]]]].
    + unfold ready. cbn [mgr locks lock repo_locks set_repo_locks].
      split; [exact Hlen|]. split; [exact Hwf|]. split; [exact Hlock'|].
      intros l. rewrite dict_get_set_eq. intros [= <-]. exact Hnew.
    + split; [|split].
      * intros u2 (_ & _ & _ & Hu2). unfold ready.
        cbn [mgr locks lock repo_locks set_repo_locks].
        split; [exact Hlen|]. split; [exact Hwf|]. split; [exact Hlock'|].
        intros l. rewrite dict_get_set. destruct (decide (u = u2)).
        -- intros [= <-]. exact Hnew.
        -- intros H'. rewrite lookup_app_l by (apply (Hreg u2 l H')). apply Hu2, H'.
      * intros (_ & Hall & _). unfold free.
        cbn [mgr locks lock repo_locks set_repo_locks].
        split; [exact Hlen|]. split; [|exact Hwf].
        intros l Hl. rewrite length_app in Hl. cbn [List.length] in Hl.
        destruct (decide (l < List.length (locks g))%nat) as [Hlt'|Hge].
        -- rewrite lookup_app_l by exact Hlt'. apply Hall, Hlt'.
        -- replace l with (List.length (locks g)) by lia. exact Hnew.
      * intros l' t'. symmetry. apply (others_same_alloc (S t') (locks g) l' t'). lia.
Qed.

Lemma finish_fields job res now :
  let job' := setattr (apply_kwargs job (finish_kwargs res)) "updated_at" (VNum now) in
  status job' = terminal res /\
  (forall e, res = Some e -> error job' = VStr e /\ progress job' = VStr "error") /\
  (res = None -> progress job' = VStr "done").
Proof.
  destruct res as [e|]; cbn.
  - split; [reflexivity|]. split; [intros e' [= <-]; split; reflexivity | discriminate].
  - split; [reflexivity|]. split; [discriminate | reflexivity].
Qed.

(** [_run] from a state where its locks are free, on a job of the table
    whose task leaves [id] alone.  What the task raises and [except
    Exception] lets through leaves [_run]; everything else ends in the last
    update. *)
Lemma _run_ready t wk clock g job :
  ready (url wk) g -> ids_consistent (jobs (mgr g)) ->
  dict_get (handle wk) (jobs (mgr g)) = Some job ->
  keeps_id (body wk) ->
  exists exc g' job',
    _run t wk clock g = Some (exc, g') /\
    ready (url wk) g' /\
    (forall u2, ready u2 g -> ready u2 g') /\
    (free g -> free g') /\
    (forall l' t', locks g' !! l' = Some (Some t') <-> locks g !! l' = Some (Some t')) /\
    ids_consistent (jobs (mgr g')) /\ queue g' = queue g /\
    dict_get (handle wk) (jobs (mgr g')) = Some job' /\
    (forall m, outcome (body wk) = Some (BaseException m) -> exc = Some m) /\
    ((forall m, outcome (body wk) <> Some (BaseException m)) ->
     exc = None /\
     status job' = terminal (caught (outcome (body wk))) /\
     (forall e, outcome (body wk) = Some (Exception e) ->
        error job' = VStr e /\ progress job' = VStr "error") /\
     (outcome (body wk) = None -> progress job' = VStr "done")).
Proof.
  intros Hready Hc Hget Hk.
  destruct (registry_part t (url wk) g Hready)
    as (l & m1 & L1 & Hacq & Hreg & Hrel & Hready1 & Hul & Hjobs & Hlock & Hother & Hfree1
        & Hsame).
  pose proof Hready1 as (Hlt1 & Hwf1 & Hlock1' & Hu1). cbn [mgr locks] in Hlt1, Hwf1, Hlock1', Hu1.
  destruct (Hwf1 _ _ Hul) as [Hl Hne]. pose proof (Hu1 l Hul) as Hlfree.
  unfold _run. rewrite Hacq. cbn [mbind option_bind]. rewrite Hreg, Hrel.
  cbn [locks]. rewrite (acquire_free l t L1 Hlfree).
  cbn [mbind option_bind with_locks mgr world queue issued]. rewrite Hjobs, Hget.
  cbn [mbind option_bind].
  set (L2 := <[l := Some t]> L1).
  assert (HL2 : L2 !! lock m1 = Some None).
  { unfold L2. rewrite list_lookup_insert_ne by exact Hne. exact Hlock1'. }
  assert (Hrel2 : release l L2 = L1) by (apply (acquire_release L1 l t), Hlfree).
  (* the first update *)
  rewrite (locked_update_spec t (id job) (handle wk));
    [| exact HL2 | eapply ids_consistent_get; eassumption].
  cbn [mbind option_bind with_table with_locks mgr world locks queue issued].
  destruct (_update_manager (handle wk) running_kwargs (clock 0%nat) m1 (world g))
    as (Hlock1 & Hrl1 & _).
  assert (Hc1 : ids_consistent
                  (jobs (fst (_update (handle wk) running_kwargs (clock 0%nat) m1 (world g))))).
  { apply _update_ids_consistent; [cbn; not_in_list | rewrite Hjobs; exact Hc]. }
  assert (Hget1 : is_Some (dict_get (handle wk)
                  (jobs (fst (_update (handle wk) running_kwargs (clock 0%nat) m1 (world g)))))).
  { apply _update_present. rewrite Hjobs. eexists. exact Hget. }
  destruct Hget1 as [job1 Hget1].
  remember (_update (handle wk) running_kwargs (clock 0%nat) m1 (world g)) as st1 eqn:Est1.
  (* the actions of the task *)
  unfold with_table, with_locks. cbn [mgr world locks queue issued].
  rewrite run_calls_spec by (cbn [mgr locks]; rewrite Hlock1; exact HL2).
  unfold with_table. cbn [mbind option_bind mgr world locks queue issued].
  rewrite <- surjective_pairing.
  destruct (apply_calls_manager (handle wk) (actions (body wk)) clock 1 st1) as [Hlock2 Hrl2].
  destruct (apply_calls_keeps (handle wk) (actions (body wk)) clock 1 st1 (handle wk) job1
              Hk Hc1 Hget1) as [Hc2 [job2 Hget2]].
  remember (apply_calls (handle wk) (actions (body wk)) clock 1 st1) as st2 eqn:Est2.
  set (n := S (List.length (actions (body wk)))).
  assert (Hend : forall m' w',
            lock m' = lock (fst st2) -> repo_locks m' = repo_locks (fst st2) ->
            ready (url wk) (mkShared m' w' L1 (queue g) (issued g)) /\
            (forall u2, ready u2 g -> ready u2 (mkShared m' w' L1 (queue g) (issued g))) /\
            (free g -> free (mkShared m' w' L1 (queue g) (issued g)))).
  { intros m' w' Hl' Hr'.
    assert (Hl1 : lock m' = lock m1) by (rewrite Hl', Hlock2, Hlock1; reflexivity).
    assert (Hr1 : repo_locks m' = repo_locks m1) by (rewrite Hr', Hrl2, Hrl1; reflexivity).
    split; [|split].
    - apply (ready_table _ (mkShared m1 (world g) L1 (queue g) (issued g))); assumption.
    - intros u2 H2.
      apply (ready_table _ (mkShared m1 (world g) L1 (queue g) (issued g))); auto.
    - intros Hf.
      apply (free_table (mkShared m1 (world g) L1 (queue g) (issued g))); auto. }
  destruct (outcome (body wk)) as [[e|e]|] eqn:Hout; cbn [caught].
  - (* the task raises an exception that is caught *)
    rewrite Hget2. cbn [mbind option_bind].
    rewrite (locked_update_spec t (id job2) (handle wk));
      [| cbn [mgr locks]; rewrite Hlock2, Hlock1; exact HL2
       | eapply ids_consistent_get; eassumption].
    unfold with_table, with_locks.
    cbn [mbind option_bind mgr world locks queue issued].
    destruct (_update_manager (handle wk) (finish_kwargs (Some e)) (clock n)
                              (fst st2) (snd st2)) as (Hlock3 & Hrl3 & _).
    eexists _, _, _. split; [reflexivity|].
    cbn [with_locks mgr locks queue]. rewrite Hrel2.
    destruct (Hend _ (snd (_update (handle wk) (finish_kwargs (Some e)) (clock n)
                             (fst st2) (snd st2))) Hlock3 Hrl3) as (E1 & E2 & E3).
    split; [exact E1|]. split; [exact E2|]. split; [exact E3|]. split; [exact Hsame|].
    split; [apply _update_ids_consistent; [cbn; not_in_list | exact Hc2]|].
    split; [reflexivity|].
    rewrite _update_get, decide_True by reflexivity. rewrite Hget2.
    cbn [fmap option_fmap option_map]. split; [reflexivity|].
    split; [discriminate|]. intros _. split; [reflexivity|].
    destruct (finish_fields job2 (Some e) (clock n)) as (F1 & F2 & F3).
    split; [exact F1|]. split; [intros e' [= <-]; apply F2; reflexivity | discriminate].
  - (* the task raises an exception that is let through *)
    eexists _, _, _. split; [reflexivity|].
    cbn [with_locks mgr locks queue world issued]. rewrite Hrel2.
    destruct (Hend (fst st2) (snd st2) eq_refl eq_refl) as (E1 & E2 & E3).
    split; [exact E1|]. split; [exact E2|]. split; [exact E3|]. split; [exact Hsame|].
    split; [exact Hc2|]. split; [reflexivity|]. split; [exact Hget2|].
    split; [intros m [= <-]; reflexivity|].
    intros Hno. exfalso. apply (Hno e). reflexivity.
  - (* the task returns *)
    rewrite Hget2. cbn [mbind option_bind].
    rewrite (locked_update_spec t (id job2) (handle wk));
      [| cbn [mgr locks]; rewrite Hlock2, Hlock1; exact HL2
       | eapply ids_consistent_get; eassumption].
    unfold with_table, with_locks.
    cbn [mbind option_bind mgr world locks queue issued].
    destruct (_update_manager (handle wk) (finish_kwargs None) (clock n)
                              (fst st2) (snd st2)) as (Hlock3 & Hrl3 & _).
    eexists _, _, _. split; [reflexivity|].
    cbn [with_locks mgr locks queue]. rewrite Hrel2.
    destruct (Hend _ (snd (_update (handle wk) (finish_kwargs None) (clock n)
                             (fst st2) (snd st2))) Hlock3 Hrl3) as (E1 & E2 & E3).
    split; [exact E1|]. split; [exact E2|]. split; [exact E3|]. split; [exact Hsame|].
    split; [apply _update_ids_consistent; [cbn; not_in_list | exact Hc2]|].
    split; [reflexivity|].
    rewrite _update_get, decide_True by reflexivity. rewrite Hget2.
    cbn [fmap option_fmap option_map]. split; [reflexivity|].
    split; [discriminate|]. intros _. split; [reflexivity|].
    destruct (finish_fields job2 None (clock n)) as (F1 & F2 & F3).
    split; [exact F1|]. split; [discriminate | intros _; apply F3; reflexivity].
Qed.

Lemma _run_spec t wk clock g job :
  free g -> ids_consistent (jobs (mgr g)) ->
  dict_get (handle wk) (jobs (mgr g)) = Some job ->
  keeps_id (body wk) ->
  (forall m, outcome (body wk) <> Some (BaseException m)) ->
  exists g' job',
    _run t wk clock g = Some (None, g') /\
    free g' /\ ids_consistent (jobs (mgr g')) /\ queue g' = queue g /\
    dict_get (handle wk) (jobs (mgr g')) = Some job' /\
    status job' = terminal (caught (outcome (body wk))) /\
    (forall e, outcome (body wk) = Some (Exception e) ->
       error job' = VStr e /\ progress job' = VStr "error") /\
    (outcome (body wk) = None -> progress job' = VStr "done").
Proof.
  intros Hfree Hc Hget Hk Hno.
  destruct (_run_ready t wk clock g job (free_ready _ _ Hfree) Hc Hget Hk)
    as (exc & g' & job' & Hrun & _ & _ & Hfree' & _ & Hc' & Hq & Hget' & _ & Hend).
  destruct (Hend Hno) as (-> & Hst & Herr & Hdone).
  exists g', job'. repeat (split; [auto; fail|]). exact Hdone.
Qed.

Lemma create_job_spec t new_id now u ty me b g :
  free g -> ids_consistent (jobs (mgr g)) ->
  exists g2,
    create_job t new_id now u ty me b g
      = Some (Job_init new_id now (VStr u) (VStr ty) me, g2) /\
    free g2 /\ ids_consistent (jobs (mgr g2)) /\
    dict_get (KStr new_id) (jobs (mgr g2))
      = Some (Job_init new_id now (VStr u) (VStr ty) me) /\
    queue g2 = (queue g ++ [mkWork (KStr new_id) u b])%list.
Proof.
  intros (Hlt & Hall & Hreg) Hc. unfold create_job, table_mutex.
  destruct (acquire_release _ _ t (Hall _ Hlt)) as [-> Hrel]. cbn [mbind option_bind].
  rewrite Hrel. eexists. split; [reflexivity|].
  split; [split; [|split]; cbn [mgr locks]; assumption|].
  cbn [mgr queue]. split; [apply insert_job_ids_consistent, Hc|].
  split; [|reflexivity]. unfold insert_job. cbn [fst jobs set_jobs]. apply dict_get_set_eq.
Qed.

(** ** An uninterrupted call is a run of the thread *)

Lemma local_steps_lift t (x y : thread * Shared) :
  rtc (local_step t) x y ->
  forall s, threads s !! t = Some (fst x) -> shared s = snd x ->
  rtc step s (mkSys (snd y) (<[t := fst y]> (threads s))).
Proof.
  induction 1 as [[th g]|[th g] [th1 g1] z Hxy _ IH]; intros s Ht Hs; cbn [fst snd] in *.
  - rewrite list_insert_id by exact Ht. rewrite <- Hs. destruct s. apply rtc_refl.
  - unfold local_step in Hxy. cbn [fst snd] in Hxy. rewrite <- Hs in Hxy.
    eapply rtc_l; [eapply step_thread; eassumption|].
    specialize (IH (mkSys g1 (<[t := th1]> (threads s)))).
    cbn [threads shared] in IH. rewrite list_insert_insert_eq in IH.
    apply IH; [|reflexivity].
    apply list_lookup_insert_eq. eapply lookup_lt_Some, Ht.
Qed.

Lemma local_step_one t th g th' g' (z : thread * Shared) :
  tstep t th g th' g' -> rtc (local_step t) (th', g') z -> rtc (local_step t) (th, g) z.
Proof.
  intros Hstep Hrest. apply (rtc_l _ _ (th', g')); [exact Hstep | exact Hrest].
Qed.

Lemma run_calls_steps t wk l todo clock : forall n g g',
  run_calls t (handle wk) todo clock n g = Some g' ->
  rtc (local_step t) (TWorker wk (WTask l todo), g) (TWorker wk (WTask l []), g').
Proof.
  induction todo as [|[k kw|a v] r IH]; intros n g g' Hrun; cbn [run_calls] in Hrun.
  - injection Hrun as <-. apply rtc_refl.
  - destruct (acquire (table_mutex (mgr g)) t (locks g)) as [h|] eqn:Ha; [|discriminate].
    cbn [mbind option_bind] in Hrun.
    eapply local_step_one; [apply w_task_call; exact Ha|].
    eapply local_step_one; [apply (w_task_in t wk _ l k kw r (clock n))|].
    eapply IH. exact Hrun.
  - eapply local_step_one; [apply w_task_assign|].
    eapply IH. exact Hrun.
Qed.

Ltac bind_case H name :=
  match type of H with
  | context [mbind _ ?c] =>
      destruct c as [name|] eqn:?; [|discriminate H]; cbn [mbind option_bind] in H
  end.

Lemma finish_steps t wk l res (clock : nat -> Z) (n : nat) g exc g' :
  (job ← dict_get (handle wk) (jobs (mgr g));
   r ← locked_update t (id job) (finish_kwargs res) (clock n) g;
   Some (fst r, with_locks (snd r) (release l (locks (snd r))))) = Some (exc, g') ->
  (exc = None \/ res <> None) ->
  rtc (local_step t) (TWorker wk (WFinishId l res), g) (TWorker wk (WDone exc), g').
Proof.
  intros H Hexc. bind_case H job. unfold locked_update in H.
  destruct (acquire (table_mutex (mgr g)) t (locks g)) as [h|] eqn:Ha; [|discriminate H].
  cbn [mbind option_bind fst snd] in H.
  eapply local_step_one; [eapply w_finish_id; eassumption|].
  eapply local_step_one; [eapply w_finish_lock; eassumption|].
  destruct (update_by_value (id job) (finish_kwargs res) (clock n) (mgr g) (world g))
    as [st|e] eqn:Hu; cbn [fst snd] in H; injection H as <- <-.
  - eapply local_step_one; [eapply w_finish_in; exact Hu|].
    eapply local_step_one; [apply w_release|]. apply rtc_refl.
  - destruct Hexc as [Hexc|Hres]; [discriminate|].
    destruct res as [e0|]; [|congruence].
    eapply local_step_one; [eapply w_finish_raise; exact Hu|].
    eapply local_step_one; [apply w_release|]. apply rtc_refl.
Qed.

Lemma locked_update_cases t v kw now g r :
  locked_update t v kw now g = Some r ->
  exists h, acquire (table_mutex (mgr g)) t (locks g) = Some h /\
    ((exists st, update_by_value v kw now (mgr g) (world g) = Ok st /\
                 r = (None, with_table g st (release (table_mutex (mgr g)) h))) \/
     (exists e, update_by_value v kw now (mgr g) (world g) = Raise e /\
                r = (Some e, with_locks g (release (table_mutex (mgr g)) h)))).
Proof.
  unfold locked_update.
  destruct (acquire (table_mutex (mgr g)) t (locks g)) as [h|]; [|discriminate].
  cbn [mbind option_bind]. intros [= <-]. exists h. split; [reflexivity|].
  destruct (update_by_value v kw now (mgr g) (world g)) as [st|e]; eauto.
Qed.

(** [_run] computes a run of the worker thread. *)
Lemma _run_local t wk clock g exc g' :
  _run t wk clock g = Some (exc, g') ->
  rtc (local_step t) (TWorker wk WRegistry, g) (TWorker wk (WDone exc), g').
Proof.
  unfold _run. intros H.
  destruct (acquire (registry_mutex (mgr g)) t (locks g)) as [h1|] eqn:Ha1; [|discriminate H].
  cbn [mbind option_bind] in H.
  destruct (_get_repo_lock (url wk) (mgr g) h1) as [[l m1] h2] eqn:Hg.
  eapply local_step_one; [apply w_registry; exact Ha1|].
  eapply local_step_one; [eapply w_registry_in; exact Hg|].
  cbn [with_locks world queue issued] in *.
  set (g1 := mkShared m1 (world g) (release (registry_mutex m1) h2) (queue g) (issued g)) in *.
  destruct (acquire l t (locks g1)) as [h3|] eqn:Ha3; [|discriminate H].
  cbn [mbind option_bind] in H.
  eapply local_step_one; [apply w_wait; exact Ha3|].
  set (g2 := with_locks g1 h3) in *.
  destruct (dict_get (handle wk) (jobs (mgr g2))) as [job|] eqn:Hjob; [|discriminate H].
  cbn [mbind option_bind] in H.
  eapply local_step_one; [eapply w_running_id; exact Hjob|].
  destruct (locked_update t (id job) running_kwargs (clock 0%nat) g2) as [r1|] eqn:Hl1;
    [|discriminate H].
  cbn [mbind option_bind] in H.
  apply locked_update_cases in Hl1 as (h4 & Ha4 & [(st1 & Hu1 & ->)|(e1 & Hu1 & ->)]).
  - (* the first update went through *)
    eapply local_step_one; [apply w_running_lock; exact Ha4|].
    eapply local_step_one; [eapply w_running_in; exact Hu1|].
    match type of H with context [run_calls t ?hd ?c clock 1 ?g3] =>
      destruct (run_calls t hd c clock 1 g3) as [g4|] eqn:Hcalls; [|discriminate H] end.
    cbn [mbind option_bind] in H.
    eapply rtc_trans; [eapply run_calls_steps; exact Hcalls|].
    assert (Hrest : forall res,
      outcome (body wk) = Exception <$> res ->
      (job' ← dict_get (handle wk) (jobs (mgr g4));
       r2 ← locked_update t (id job') (finish_kwargs res)
              (clock (S (List.length (actions (body wk))))) g4;
       match r2, res with
       | (None, g5), _ => Some (None, with_locks g5 (release l (locks g5)))
       | (Some e, g5), None =>
           job'' ← dict_get (handle wk) (jobs (mgr g5));
           r3 ← locked_update t (id job'') (finish_kwargs (Some e))
                  (clock (S (S (List.length (actions (body wk)))))) g5;
           Some (fst r3, with_locks (snd r3) (release l (locks (snd r3))))
       | (Some e, g5), Some _ => Some (Some e, with_locks g5 (release l (locks g5)))
       end) = Some (exc, g') ->
      rtc (local_step t) (TWorker wk (WTask l []), g4) (TWorker wk (WDone exc), g')).
    { intros res Hout H'.
      eapply local_step_one; [apply (w_task_end t wk g4 l res Hout)|].
      destruct (dict_get (handle wk) (jobs (mgr g4))) as [job'|] eqn:Hjob'; [|discriminate H'].
      cbn [mbind option_bind] in H'.
      eapply local_step_one; [eapply w_finish_id; exact Hjob'|].
      match type of H' with context [locked_update t (id job') ?kw ?now g4] =>
        destruct (locked_update t (id job') kw now g4) as [r2|] eqn:Hl2; [|discriminate H'] end.
      cbn [mbind option_bind] in H'.
      apply locked_update_cases in Hl2 as (h5 & Ha5 & [(st2 & Hu2 & ->)|(e2 & Hu2 & ->)]).
      + injection H' as <- <-.
        eapply local_step_one; [apply w_finish_lock; exact Ha5|].
        eapply local_step_one; [eapply w_finish_in; exact Hu2|].
        eapply local_step_one; [apply w_release|]. apply rtc_refl.
      + eapply local_step_one; [apply w_finish_lock; exact Ha5|].
        destruct res as [e0|].
        * injection H' as <- <-.
          eapply local_step_one; [eapply w_finish_raise; exact Hu2|].
          eapply local_step_one; [apply w_release|]. apply rtc_refl.
        * eapply local_step_one; [eapply w_finish_caught; exact Hu2|].
          eapply finish_steps; [exact H' | right; discriminate]. }
    destruct (outcome (body wk)) as [[e0|e0]|] eqn:Hout; cbn [caught] in H.
    + apply (Hrest (Some e0) eq_refl H).
    + injection H as <- <-.
      eapply local_step_one; [apply (w_task_escape t wk g4 l e0 Hout)|].
      eapply local_step_one; [apply w_release|]. apply rtc_refl.
    + apply (Hrest None eq_refl H).
  - (* the first update raised *)
    injection H as <- <-.
    eapply local_step_one; [apply w_running_lock; exact Ha4|].
    eapply local_step_one; [eapply w_running_raise; exact Hu1|].
    eapply local_step_one; [apply w_release|]. apply rtc_refl.
Qed.

Lemma _run_steps s t wk clock exc g' :
  threads s !! t = Some (TWorker wk WRegistry) ->
  _run t wk clock (shared s) = Some (exc, g') ->
  rtc step s (mkSys g' (<[t := TWorker wk (WDone exc)]> (threads s))).
Proof.
  intros Ht Hrun.
  exact (local_steps_lift t (TWorker wk WRegistry, shared s) (TWorker wk (WDone exc), g')
           (_run_local t wk clock (shared s) exc g' Hrun) s Ht eq_refl).
Qed.

Lemma create_job_local t new_id now u ty me b g job g' :
  new_id ∉ issued g -> dict_get (KStr new_id) (jobs (mgr g)) = None ->
  create_job t new_id now u ty me b g = Some (job, g') ->
  rtc (local_step t) (TCreate u ty me b CNew, g) (TCreate u ty me b (CReturned new_id), g').
Proof.
  intros Hnew Habs. unfold create_job.
  destruct (acquire (table_mutex (mgr g)) t (locks g)) as [h|] eqn:Ha; [|discriminate].
  cbn [mbind option_bind]. intros [= <- <-].
  eapply local_step_one; [apply (c_new t u ty me b g new_id now); assumption|].
  eapply local_step_one; [apply c_lock; exact Ha|].
  eapply local_step_one; [apply c_insert|].
  eapply local_step_one; [apply c_submit|].
  apply rtc_refl.
Qed.

Lemma submitted_free b : free (submitted b) /\ ids_consistent (jobs (mgr (submitted b))).
Proof.
  split; [split; [|split]|].
  - cbn. lia.
  - intros [|l] Hl; [reflexivity | cbn in Hl; lia].
  - intros u l Hget. discriminate Hget.
  - repeat constructor.
Qed.

(** C3 as stated fails.  A task that assigns the [id] of its job, through
    [update_job] or by [job.id = ...], and then raises leaves the record
    running, without error: the handler updates the record of the new id,
    which does not exist.  When the new id is unhashable, the [TypeError] of
    the handler's update leaves [_run].  An exception that does not derive
    from [Exception], as the [SystemExit] of [sys.exit], is not caught: it
    leaves [_run] and the record stays running. *)
Lemma failure_lost_after_id_reassigned :
  match _run 1 (mkWork (KStr "job-c") "repo2" (renaming_task (VStr "other")))
             (fun _ => 11) (submitted (renaming_task (VStr "other"))) with
  | Some (exc, g') =>
      exc = None /\
      (status <$> dict_get (KStr "job-c") (jobs (mgr g'))) = Some (VStr "running") /\
      (error <$> dict_get (KStr "job-c") (jobs (mgr g'))) = Some VNone /\
      (progress <$> dict_get (KStr "job-c") (jobs (mgr g'))) = Some (VStr "starting") /\
      dict_get (KStr "other") (jobs (mgr g')) = None
  | None => False
  end /\
  match _run 1 (mkWork (KStr "job-c") "repo2" (renaming_task (VList [])))
             (fun _ => 11) (submitted (renaming_task (VList []))) with
  | Some (exc, g') =>
      exc = Some "unhashable type: 'list'" /\
      (status <$> dict_get (KStr "job-c") (jobs (mgr g'))) = Some (VStr "running")
  | None => False
  end /\
  match _run 1 (mkWork (KStr "job-c") "repo2" assigning_task)
             (fun _ => 11) (submitted assigning_task) with
  | Some (exc, g') =>
      exc = None /\
      (id <$> dict_get (KStr "job-c") (jobs (mgr g'))) = Some (VStr "other") /\
      (status <$> dict_get (KStr "job-c") (jobs (mgr g'))) = Some (VStr "running") /\
      (error <$> dict_get (KStr "job-c") (jobs (mgr g'))) = Some VNone
  | None => False
  end /\
  match _run 1 (mkWork (KStr "job-c") "repo2" exiting_task)
             (fun _ => 11) (submitted exiting_task) with
  | Some (exc, g') =>
      exc = Some "bye" /\
      (status <$> dict_get (KStr "job-c") (jobs (mgr g'))) = Some (VStr "running") /\
      (error <$> dict_get (KStr "job-c") (jobs (mgr g'))) = Some VNone
  | None => False
  end.
Proof. repeat split; vm_compute; repeat split; reflexivity. Qed.

(** * Further properties of the job manager *)

(** ** Insertion and lookup *)

Lemma dict_set_present_keys {K V} `{EqDecision K} (k : K) (v : V) (d : list (K * V)) :
  is_Some (dict_get k d) -> map fst (dict_set k v d) = map fst d.
Proof.
  induction d as [|[k0 v0] r IH]; simpl; intros Hk.
  - destruct Hk as [x Hx]. discriminate Hx.
  - destruct (decide (k0 = k)) as [->|Hne]; simpl; [reflexivity|].
    rewrite IH; [reflexivity|]. exact Hk.
Qed.

(** X1.  [create_job] with an identifier that is not yet in the table adds
    its record after all the others: [list_jobs] grows by the new record at
    its end, [get_job] returns that record for the new identifier and what
    it returned before for every other one. *)
Theorem create_job_appends (st : JobManager * World) (new_id : string) (now : Z)
    (u ty : string) (me : pyval) :
  dict_get (KStr new_id) (jobs (fst st)) = None ->
  let job := Job_init new_id now (VStr u) (VStr ty) me in
  let st' := exec (Create new_id now u ty me) st in
  list_jobs (fst st') = (list_jobs (fst st) ++ [to_dict job])%list /\
  get_job (KStr new_id) (fst st') = Some (to_dict job) /\
  (forall k, k <> KStr new_id -> get_job k (fst st') = get_job k (fst st)).
Proof.
  intros Hnew job st'. destruct st as [m w]. unfold st'. cbn [exec fst snd] in *.
  unfold insert_job, list_jobs, get_job. cbn [fst jobs set_jobs].
  apply dict_get_None in Hnew.
  split; [|split].
  - rewrite (dict_set_fresh _ _ _ Hnew), map_app. reflexivity.
  - rewrite dict_get_set_eq. reflexivity.
  - intros k Hk. rewrite dict_get_set_ne by congruence. reflexivity.
Qed.

Lemma create_job_appends_witness :
  let st' := exec (Create "job-b" 11 "repo2" "github" (VDict [])) one_job in
  List.length (list_jobs (fst st')) = 2%nat /\
  get_job (KStr "job-b") (fst st')
    = Some (to_dict (Job_init "job-b" 11 (VStr "repo2") (VStr "github") (VDict []))).
Proof.
  intros st'.
  destruct (create_job_appends one_job "job-b" 11 "repo2" "github" (VDict []) eq_refl)
    as (Hlist & Hget & _).
  split; [|exact Hget]. fold st' in Hlist. rewrite Hlist. reflexivity.
Defined.

(** ** What an update changes *)

Lemma getattr_apply_kwargs_in job kw a v :
  NoDup (map fst kw) -> (a, v) ∈ kw -> hasattr a = true ->
  getattr (apply_kwargs job kw) a = Some v.
Proof.
  revert job. induction kw as [|[k0 v0] r IH]; intros job Hnd Hin Ha.
  - apply elem_of_nil in Hin. contradiction.
  - cbn [map fst] in Hnd. apply NoDup_cons in Hnd as [Hk0 Hr]. cbn [apply_kwargs].
    apply elem_of_cons in Hin as [[= <- <-]|Hin].
    + rewrite getattr_apply_kwargs by exact Hk0. rewrite Ha.
      apply getattr_setattr_eq, Ha.
    + apply IH; assumption.
Qed.

(** X2.  After [update_job] on a record of the table, [get_job] shows every
    keyword that names an attribute with the value passed, except that
    [updated_at] is the reading of the clock whatever was passed for it; the
    attributes that were not named are as before. *)
Theorem update_job_reads_back (job_id : tkey) (kwargs : list (string * pyval))
    (now : Z) (m : JobManager) (w : World) (job : Job) :
  dict_get job_id (jobs m) = Some job ->
  NoDup (map fst kwargs) ->
  instance_level kwargs ->
  let m' := fst (update_job job_id kwargs now m w) in
  (forall a v, (a, v) ∈ kwargs -> hasattr a = true -> a <> "updated_at" ->
     (get_job job_id m' ≫= dict_get a) = Some v) /\
  (get_job job_id m' ≫= dict_get "updated_at") = Some (VNum now) /\
  (forall a, a ∉ map fst kwargs -> a <> "updated_at" ->
     (get_job job_id m' ≫= dict_get a) = (get_job job_id m ≫= dict_get a)).
Proof.
  intros Hget Hnd _ m'.
  assert (Hget' : get_job job_id m'
                  = Some (to_dict (setattr (apply_kwargs job kwargs) "updated_at" (VNum now)))).
  { unfold m', get_job, update_job. rewrite _update_get, decide_True by reflexivity.
    rewrite Hget. reflexivity. }
  rewrite Hget'. cbn [mbind option_bind].
  split; [|split].
  - intros a v Hin Ha Hne.
    change (getattr (setattr (apply_kwargs job kwargs) "updated_at" (VNum now)) a = Some v).
    rewrite getattr_setattr_ne by exact Hne. apply getattr_apply_kwargs_in; assumption.
  - reflexivity.
  - intros a Hnin Hne. unfold get_job. rewrite Hget. cbn [fmap option_fmap option_map mbind option_bind].
    change (getattr (setattr (apply_kwargs job kwargs) "updated_at" (VNum now)) a = getattr job a).
    apply updated_attr; assumption.
Qed.

Lemma update_job_reads_back_witness :
  let m' := fst (update_job (KStr "job-a")
                   [("progress", VStr "half"); ("updated_at", VNum 0)] 12
                   (fst one_job) (snd one_job)) in
  (get_job (KStr "job-a") m' ≫= dict_get "progress") = Some (VStr "half") /\
  (get_job (KStr "job-a") m' ≫= dict_get "updated_at") = Some (VNum 12).
Proof.
  intros m'.
  destruct (update_job_reads_back (KStr "job-a")
              [("progress", VStr "half"); ("updated_at", VNum 0)] 12
              (fst one_job) (snd one_job)
              (Job_init "job-a" 10 (VStr "repo1") (VStr "github") (VDict []))
              eq_refl) as (Hnamed & Hup & _).
  - apply NoDup_cons. split; [not_in_list|].
    apply NoDup_cons. split; [apply not_elem_of_nil | apply NoDup_nil_2].
  - repeat constructor.
  - split; [|exact Hup].
    apply Hnamed; [apply list_elem_of_here | reflexivity | discriminate].
Defined.

(** X3.  [update_job] never adds, removes or reorders records, whatever the
    identifier and whatever keywords it is given that name instance
    attributes or unknown names: the keys of the table are the same,
    [list_jobs] has as many entries as before and the records under the
    other keys are untouched. *)
Theorem update_job_keeps_other_records (job_id : tkey) (kwargs : list (string * pyval))
    (now : Z) (m : JobManager) (w : World) :
  instance_level kwargs ->
  let m' := fst (update_job job_id kwargs now m w) in
  map fst (jobs m') = map fst (jobs m) /\
  List.length (list_jobs m') = List.length (list_jobs m) /\
  (forall k, k <> job_id -> dict_get k (jobs m') = dict_get k (jobs m)).
Proof.
  intros _ m'.
  assert (Hkeys : map fst (jobs m') = map fst (jobs m)).
  { unfold m', update_job, _update.
    destruct (dict_get job_id (jobs m)) as [job|] eqn:Hget; [|reflexivity].
    cbn [fst jobs set_jobs]. apply dict_set_present_keys. rewrite Hget. eexists. reflexivity. }
  split; [exact Hkeys|]. split.
  - unfold list_jobs. rewrite !length_map.
    rewrite <- (length_map fst (jobs m')), Hkeys, length_map. reflexivity.
  - intros k Hk. unfold m', update_job. rewrite _update_get.
    rewrite decide_False by congruence. reflexivity.
Qed.

Lemma update_job_keeps_other_records_witness :
  let m' := fst (update_job (KStr "job-a") [("status", VStr "running"); ("stage", VNum 2)] 12
                            (fst one_job) (snd one_job)) in
  map fst (jobs m') = [KStr "job-a"] /\ List.length (list_jobs m') = 1%nat.
Proof.
  intros m'.
  destruct (update_job_keeps_other_records (KStr "job-a")
              [("status", VStr "running"); ("stage", VNum 2)] 12
              (fst one_job) (snd one_job) ltac:(repeat constructor)) as (Hkeys & Hlen & _).
  split; [exact Hkeys | exact Hlen].
Defined.

Lemma apply_kwargs_unknown job kw :
  Forall (fun kv => hasattr (fst kv) = false) kw -> apply_kwargs job kw = job.
Proof.
  revert job. induction kw as [|[k v] r IH]; intros job Hkw; [reflexivity|].
  apply Forall_cons in Hkw as [Hk Hr]. cbn [fst] in Hk. cbn [apply_kwargs].
  rewrite Hk. apply IH, Hr.
Qed.

(** X4.  Keywords that name no attribute of the job are dropped without an
    error: the record keeps every attribute except [updated_at], which is
    still refreshed, the other records are untouched, and the table with
    the refreshed record is written: when it is made of values JSON carries
    unchanged and the store takes the write, a manager constructed on the
    store afterwards holds it. *)
Theorem update_job_ignores_unknown_keywords (job_id : tkey)
    (kwargs : list (string * pyval)) (now : Z) (m : JobManager) (w : World) (job : Job) :
  dict_get job_id (jobs m) = Some job ->
  Forall (fun kv => hasattr (fst kv) = false) kwargs ->
  instance_level kwargs -> reaches_kwargs kwargs ->
  let st' := update_job job_id kwargs now m w in
  dict_get job_id (jobs (fst st')) = Some (setattr job "updated_at" (VNum now)) /\
  (forall k, k <> job_id -> dict_get k (jobs (fst st')) = dict_get k (jobs m)) /\
  (table_native (jobs (fst st')) -> store_writable (fst st') w -> mkdir_ok w = true ->
   in_sync st').
Proof.
  intros Hget Hkw _ _ st'.
  assert (Hst : st' = (set_jobs m (dict_set job_id (setattr job "updated_at" (VNum now))
                                            (jobs m)),
                       _persist (set_jobs m (dict_set job_id
                                               (setattr job "updated_at" (VNum now))
                                               (jobs m))) w)).
  { unfold st', update_job, _update. rewrite Hget.
    rewrite (apply_kwargs_unknown _ _ Hkw). reflexivity. }
  rewrite Hst. cbn [fst snd jobs set_jobs].
  split; [apply dict_get_set_eq|]. split.
  - intros k Hk. apply dict_get_set_ne. congruence.
  - intros Hnat Hwr Hmk fr m0 H0 Hrs. cbn [fst snd] in *.
    apply persist_then_load; assumption.
Qed.

Lemma update_job_ignores_unknown_keywords_witness :
  let st' := update_job (KStr "job-a") [("stage", VStr "clone"); ("percent", VNum 40)] 12
                        (fst one_job) (snd one_job) in
  (get_job (KStr "job-a") (fst st') ≫= dict_get "progress") = Some VNone /\
  (get_job (KStr "job-a") (fst st') ≫= dict_get "updated_at") = Some (VNum 12) /\
  jobs (_load_store sample_fresh (mkJobManager [] 0 4 [] false) (snd st')) = jobs (fst st').
Proof.
  intros st'.
  destruct (update_job_ignores_unknown_keywords (KStr "job-a")
              [("stage", VStr "clone"); ("percent", VNum 40)] 12
              (fst one_job) (snd one_job)
              (Job_init "job-a" 10 (VStr "repo1") (VStr "github") (VDict []))
              eq_refl ltac:(repeat constructor) ltac:(repeat constructor)
              ltac:(repeat constructor; discriminate)) as (Hget & _ & Hsync).
  fold st' in Hget, Hsync. unfold get_job. rewrite Hget.
  split; [reflexivity|]. split; [reflexivity|].
  apply Hsync; try reflexivity.
  split; [|split]; cbn; repeat constructor. cbn; not_in_list.
Defined.

(** ** When the table cannot be written *)






(** ** Loading the store *)

Lemma load_data_stored fr m w :
  load_data fr m w =
  if mkdir_ok w
  then data ← stored_data m w; items ← iterate data; load_items fr 0 items (jobs m)
  else None.
Proof. reflexivity. Qed.

Lemma load_items_bad fr items : forall n acc,
  Exists (fun v => bad_item v = true) items -> load_items fr n items acc = None.
Proof.
  induction items as [|x r IH]; intros n acc Hbad.
  - apply Exists_nil in Hbad. contradiction.
  - apply Exists_cons in Hbad as [Hx|Hr].
    + destruct x as [| | | | | |item|]; try reflexivity.
      cbn [load_items bad_item] in *. unfold job_of_item, item_get. cbn [id Job_init].
      destruct (dict_get "id" item) as [i|]; [|discriminate Hx].
      destruct (key_of i); [discriminate Hx | reflexivity].
    + destruct x as [| | | | | |item|]; try reflexivity.
      cbn [load_items]. destruct (key_of _); [apply IH, Hr | reflexivity].
Qed.

(** X6.  Loading is all or nothing.  When the stored list holds one element
    that is not a dictionary, or a dictionary whose id is a list or an
    object, the manager starts with an empty table: the valid records of the
    same list are dropped with it.  The same holds when the directory of the
    store cannot be created or the file cannot be read or parsed. *)
Theorem load_is_all_or_nothing (fr : nat -> fresh) (m : JobManager) (w : World) :
  (mkdir_ok w = false \/
   stored_data m w = None \/
   exists items, stored_data m w = Some (VList items) /\
                 Exists (fun v => bad_item v = true) items) ->
  jobs (_load_store fr m w) = [].
Proof.
  intros Hbad. unfold _load_store. rewrite load_data_stored.
  destruct Hbad as [-> | [Hs | (items & Hs & Hex)]]; [reflexivity | |].
  - rewrite Hs. destruct (mkdir_ok w); reflexivity.
  - rewrite Hs. cbn [mbind option_bind iterate].
    rewrite (load_items_bad fr items 0 (jobs m) Hex). destruct (mkdir_ok w); reflexivity.
Qed.

Lemma load_is_all_or_nothing_witness :
  let good := JObj [("id", JStr "job-a"); ("status", JStr "success")] in
  let w := mkWorld true true (FDoc (JArr [good; JStr "oops"])) REmpty in
  jobs (_load_store sample_fresh (mkJobManager [] 0 4 [] false) w) = [] /\
  List.length (jobs (_load_store sample_fresh (mkJobManager [] 0 4 [] false)
                       (mkWorld true true (FDoc (JArr [good])) REmpty))) = 1%nat.
Proof.
  intros good w. split; [|reflexivity].
  apply load_is_all_or_nothing. right. right.
  eexists. split; [reflexivity|].
  apply Exists_cons_tl, Exists_cons_hd. reflexivity.
Defined.

(** X7.  A record is rebuilt from a stored item without any check: every
    attribute the item has a key for takes the stored value as it is, null
    included.  A missing id is a new uuid, a missing status is queued, a
    missing [created_at] is the reading of the clock taken for that default,
    and a missing [updated_at] is the record's [created_at]. *)
Theorem loaded_record_attributes (f : fresh) (item : list (string * pyval)) :
  (forall a v, hasattr a = true -> dict_get a item = Some v ->
     getattr (job_of_item f item) a = Some v) /\
  (dict_get "id" item = None -> id (job_of_item f item) = VStr (uuid4 f)) /\
  (dict_get "status" item = None -> status (job_of_item f item) = VStr JobStatus.QUEUED) /\
  (dict_get "created_at" item = None ->
     created_at (job_of_item f item) = VNum (time_default f)) /\
  (dict_get "updated_at" item = None ->
     updated_at (job_of_item f item) = created_at (job_of_item f item)).
Proof.
  split; [|repeat split].
  - intros a v Ha Hv. unfold hasattr, job_attributes in Ha.
    apply bool_decide_eq_true in Ha.
    repeat (apply elem_of_cons in Ha as [->|Ha];
            [unfold getattr, job_of_item, to_dict, item_get;
             cbn [dict_get decide id repo_url repo_type status error progress created_at
                  updated_at metadata Job_init];
             rewrite Hv; reflexivity|]).
    apply elem_of_nil in Ha. contradiction.
  - intros H. unfold job_of_item, item_get. cbn [id]. rewrite H. reflexivity.
  - intros H. unfold job_of_item, item_get. cbn [status]. rewrite H. reflexivity.
  - intros H. unfold job_of_item, item_get. cbn [created_at]. rewrite H. reflexivity.
  - intros H. unfold job_of_item, item_get. cbn [updated_at created_at]. rewrite H. reflexivity.
Qed.

Lemma loaded_record_attributes_witness :
  let item := [("status", VNone); ("created_at", VNum 5)] in
  let job := job_of_item (sample_fresh 0) item in
  status job = VNone /\ created_at job = VNum 5 /\ updated_at job = VNum 5 /\
  id job = VStr (uuid4 (sample_fresh 0)).
Proof.
  intros item job.
  destruct (loaded_record_attributes (sample_fresh 0) item) as (Hkey & Hid & _ & _ & Hup).
  pose proof (Hkey "status" VNone eq_refl eq_refl) as Hs.
  pose proof (Hkey "created_at" (VNum 5) eq_refl eq_refl) as Hc.
  rewrite getattr_status in Hs. rewrite getattr_created_at in Hc.
  apply (f_equal (fun o => match o with Some x => x | None => VNone end)) in Hs, Hc.
  split; [exact Hs|]. split; [exact Hc|]. split; [|exact (Hid eq_refl)].
  unfold job. rewrite (Hup eq_refl). exact Hc.
Defined.

Lemma dict_of_pairs_native (l acc : list (string * pyval)) :
  NoDup (map fst acc) -> Forall (fun kv => json_native (snd kv) = true) acc ->
  Forall (fun kv => json_native (snd kv) = true) l ->
  let d := fold_left (fun d kv => dict_set (fst kv) (snd kv) d) l acc in
  NoDup (map fst d) /\ Forall (fun kv => json_native (snd kv) = true) d.
Proof.
  revert acc. induction l as [|[k v] r IH]; intros acc Hnd Hacc Hl; cbn [fold_left fst snd].
  - split; assumption.
  - apply Forall_cons in Hl as [Hv Hr]. apply IH; [|apply Forall_dict_set|]; try assumption.
    apply dict_set_NoDup, Hnd.
Qed.

(** [json.loads] only builds values that survive the round trip. *)
Lemma loads_native (j : json) : json_native (loads j) = true.
Proof.
  revert j. fix loads_native 1. intros j.
  destruct j as [|b|z|s|l|l]; cbn [loads json_native]; try reflexivity.
  - induction l as [|x r IH]; [reflexivity|].
    cbn [map forallb]. rewrite (loads_native x), IH. reflexivity.
  - assert (Hl : Forall (fun kv : string * pyval => json_native (snd kv) = true)
                        (map (fun p => (fst p, loads (snd p))) l)).
    { induction l as [|[k x] r IH]; [constructor|].
      cbn [map fst snd]. constructor; [apply loads_native | exact IH]. }
    destruct (dict_of_pairs_native _ [] (NoDup_nil_2 (A:=string)) (Forall_nil_2 _) Hl)
      as [Hnd Hall].
    unfold dict_of_pairs. apply andb_true_iff. split.
    + apply bool_decide_eq_true. exact Hnd.
    + apply forallb_forall. intros kv Hin. rewrite Forall_forall in Hall.
      apply Hall. apply list_elem_of_In. exact Hin.
Qed.

Lemma item_get_native item a d :
  Forall (fun kv : string * pyval => json_native (snd kv) = true) item ->
  json_native d = true -> json_native (item_get item a d) = true.
Proof.
  intros Hitem Hd. unfold item_get. destruct (dict_get a item) as [v|] eqn:Hget; [|exact Hd].
  apply dict_get_Some_elem in Hget. rewrite Forall_forall in Hitem.
  exact (Hitem _ Hget).
Qed.

Lemma job_of_item_native f item :
  Forall (fun kv : string * pyval => json_native (snd kv) = true) item ->
  job_native (job_of_item f item) = true.
Proof.
  intros Hitem. unfold job_native, job_of_item, to_dict.
  cbn [forallb snd id repo_url repo_type status error progress created_at updated_at
       metadata Job_init].
  rewrite !item_get_native; try reflexivity; try assumption.
  apply item_get_native; [assumption | reflexivity].
Qed.

Lemma load_items_native fr items : forall n acc js,
  Forall (fun v => json_native v = true) items ->
  table_native acc ->
  load_items fr n items acc = Some js -> table_native js.
Proof.
  induction items as [|x r IH]; intros n acc js Hitems Hacc.
  - intros [= <-]. exact Hacc.
  - apply Forall_cons in Hitems as [Hx Hr].
    destruct x as [| | | | | |item|]; try discriminate.
    cbn [load_items]. destruct (key_of (id (job_of_item (fr n) item))) as [k|] eqn:Hk;
      [|discriminate].
    apply IH; [exact Hr|]. destruct Hacc as (Hc & Hnd & Hnat).
    split; [|split].
    + apply Forall_dict_set; [exact Hc | exact Hk].
    + apply dict_set_NoDup, Hnd.
    + apply Forall_dict_set; [exact Hnat|]. cbn [snd]. apply job_of_item_native.
      cbn [json_native] in Hx. apply andb_true_iff in Hx as [_ Hx].
      apply Forall_forall. intros kv Hin. rewrite forallb_forall in Hx.
      apply Hx. apply list_elem_of_In. exact Hin.
Qed.

Lemma table_native_nil : table_native [].
Proof. split; [constructor|]. split; [apply NoDup_nil_2 | constructor]. Qed.

Lemma stored_data_native m w data :
  stored_data m w = Some data -> json_native data = true.
Proof.
  unfold stored_data, RedisStore.load.
  destruct (redis_store m).
  - destruct (redis w); intros [= <-]; try reflexivity. apply loads_native.
  - destruct (file w); intros [= <-]; try reflexivity. apply loads_native.
Qed.

Lemma iterate_native data items :
  json_native data = true -> iterate data = Some items ->
  Forall (fun v => json_native v = true) items.
Proof.
  destruct data as [| | |s|l|l|d|]; cbn [iterate json_native]; try discriminate.
  - intros _ [= <-]. apply Forall_forall. intros v Hin.
    apply list_elem_of_fmap in Hin as (c & -> & _). reflexivity.
  - intros Hl [= <-]. apply Forall_forall. intros v Hin.
    rewrite forallb_forall in Hl. apply Hl, list_elem_of_In, Hin.
  - intros _ [= <-]. apply Forall_forall. intros v Hin.
    apply list_elem_of_fmap in Hin as (kv & -> & _). reflexivity.
Qed.

Lemma _load_store_native fr m w :
  jobs m = [] -> table_native (jobs (_load_store fr m w)).
Proof.
  intros H0. unfold _load_store. rewrite load_data_stored.
  destruct (mkdir_ok w); [|apply table_native_nil].
  destruct (stored_data m w) as [data|] eqn:Hs; [|apply table_native_nil].
  cbn [mbind option_bind].
  destruct (iterate data) as [items|] eqn:Hit; [|apply table_native_nil].
  cbn [mbind option_bind]. rewrite H0.
  destruct (load_items fr 0 items []) as [js|] eqn:Hl; [|apply table_native_nil].
  cbn [jobs set_jobs].
  eapply load_items_native; [|apply table_native_nil | exact Hl].
  eapply iterate_native; [|exact Hit]. eapply stored_data_native, Hs.
Qed.

(** X8.  Whatever the store holds, the table of a manager that has just
    been constructed is well formed: every record sits under the key of its
    own id, no two records share a key (of two stored items with one id the
    later one is kept), and every attribute is a value that JSON carries
    unchanged. *)
Theorem construction_table_native (h h' : heap) (fr : nat -> fresh) (workers : Z)
    (redis_url : option string) (imported ok : bool) (w : World) (m : JobManager) :
  JobManager_init h fr workers redis_url imported ok w = Ok (m, h') ->
  table_native (jobs m).
Proof.
  unfold JobManager_init. cbn [new_lock]. destruct (Z.leb workers 0); [discriminate|].
  intros [= <- _]. apply _load_store_native. reflexivity.
Qed.

Lemma construction_table_native_witness :
  let item k s := JObj [("id", JStr k); ("status", JStr s)] in
  let w := mkWorld true true
             (FDoc (JArr [item "a" "queued"; item "b" "running"; item "a" "success"]))
             REmpty in
  match JobManager_init [] sample_fresh 4 None true true w with
  | Ok (m, _) => table_native (jobs m) /\ map fst (jobs m) = [KStr "a"; KStr "b"] /\
                 (status <$> dict_get (KStr "a") (jobs m)) = Some (VStr "success")
  | Raise _ => False
  end.
Proof.
  intros item w.
  destruct (JobManager_init [] sample_fresh 4 None true true w) as [[m h']|e] eqn:Hinit;
    [|discriminate Hinit].
  split; [exact (construction_table_native _ _ _ _ _ _ _ _ _ Hinit)|].
  injection Hinit as <- _. split; reflexivity.
Defined.

(** ** Restarting after operations *)

Lemma setattr_native job k v :
  job_native job = true -> json_native v = true -> job_native (setattr job k v) = true.
Proof.
  unfold job_native, to_dict, setattr. cbn [forallb snd].
  rewrite !andb_true_iff. intros (H1 & H2 & H3 & H4 & H5 & H6 & H7 & H8 & H9 & _) Hv.
  repeat match goal with
         | |- context [String.eqb k ?s] =>
             destruct (String.eqb k s);
             [cbn [id repo_url repo_type status error progress created_at updated_at metadata];
              rewrite ?andb_true_iff; repeat split; assumption|]
         end.
  rewrite ?andb_true_iff. repeat split; assumption.
Qed.

Lemma apply_kwargs_native job kw :
  job_native job = true ->
  Forall (fun kv : string * pyval => json_native (snd kv) = true) kw ->
  job_native (apply_kwargs job kw) = true.
Proof.
  revert job. induction kw as [|[k v] r IH]; intros job Hjob Hkw; [exact Hjob|].
  apply Forall_cons in Hkw as [Hv Hr]. cbn [apply_kwargs]. apply IH; [|exact Hr].
  destruct (hasattr k); [apply setattr_native; assumption | exact Hjob].
Qed.

Lemma _update_table_native k kw now m w :
  "id" ∉ map fst kw ->
  Forall (fun kv : string * pyval => json_native (snd kv) = true) kw ->
  table_native (jobs m) -> table_native (jobs (fst (_update k kw now m w))).
Proof.
  intros Hid Hkw (Hc & Hnd & Hnat). split; [|split].
  - apply _update_ids_consistent; assumption.
  - unfold _update. destruct (dict_get k (jobs m)); [|exact Hnd].
    cbn [fst jobs set_jobs]. apply dict_set_NoDup, Hnd.
  - unfold _update. destruct (dict_get k (jobs m)) as [job|] eqn:Hget; [|exact Hnat].
    cbn [fst jobs set_jobs]. apply Forall_dict_set; [exact Hnat|]. cbn [snd].
    apply setattr_native; [|reflexivity]. apply apply_kwargs_native; [|exact Hkw].
    apply dict_get_Some_elem in Hget. rewrite Forall_forall in Hnat. exact (Hnat _ Hget).
Qed.

Lemma exec_table_native o st :
  native_op o -> table_native (jobs (fst st)) -> table_native (jobs (fst (exec o st))).
Proof.
  destruct st as [m w]. cbn [fst]. intros Hn Hnat.
  assert (Hworker : forall h kw now,
            "id" ∉ map fst kw ->
            Forall (fun kv : string * pyval => json_native (snd kv) = true) kw ->
            table_native (jobs (fst match worker_update h kw now m w with
                                    | Ok st' => st'
                                    | Raise _ => (m, w)
                                    end))).
  { intros h kw now Hid Hkw. unfold worker_update, update_by_value.
    destruct (dict_get h (jobs m)) as [jh|]; [|exact Hnat].
    destruct (key_of (id jh)); [|exact Hnat].
    apply _update_table_native; assumption. }
  destruct o as [new_id now u ty me|k kw now|h now|h res now]; cbn [exec fst snd].
  - destruct Hnat as (Hc & Hnd & Hall). unfold insert_job. cbn [fst jobs set_jobs].
    split; [|split].
    + apply Forall_dict_set; [exact Hc | reflexivity].
    + apply dict_set_NoDup, Hnd.
    + apply Forall_dict_set; [exact Hall|]. cbn [snd]. cbn in Hn.
      unfold job_native, to_dict, Job_init. cbn. rewrite Hn. reflexivity.
  - destruct Hn as (_ & Hid & Hkw). apply _update_table_native; assumption.
  - apply Hworker; [cbn; not_in_list | repeat constructor].
  - apply Hworker; destruct res; solve [cbn; not_in_list | repeat constructor].
Qed.

Lemma _persist_world m w :
  mkdir_ok (_persist m w) = mkdir_ok w /\ write_ok (_persist m w) = write_ok w /\
  (redis w <> RDown -> redis (_persist m w) <> RDown).
Proof.
  unfold _persist, RedisStore.save.
  destruct (redis_store m);
    [destruct (dumps (payload m)), (redis w) eqn:Hr
    |destruct (dumps (payload m)); [destruct (write_ok w) eqn:Hw|]];
    cbn; (split; [reflexivity|split; [first [reflexivity | exact Hw | symmetry; exact Hw]|]]);
    intros H; cbn; try exact H; try discriminate; try congruence.
Qed.

(** A block that writes the table leaves the store in sync with it. *)
Lemma persist_in_sync m w :
  table_native (jobs m) -> store_writable m w -> mkdir_ok w = true ->
  in_sync (m, _persist m w).
Proof.
  intros Hnat Hwr Hmk fr m0 H0 Hrs. cbn [fst snd] in *.
  apply persist_then_load; assumption.
Qed.

Lemma exec_in_sync o st :
  native_op o -> table_native (jobs (fst st)) ->
  store_writable (fst st) (snd st) -> mkdir_ok (snd st) = true ->
  in_sync st ->
  in_sync (exec o st) /\
  store_writable (fst (exec o st)) (snd (exec o st)) /\
  mkdir_ok (snd (exec o st)) = true.
Proof.
  intros Hn Hnat Hwr Hmk Hsync.
  pose proof (exec_table_native o st Hn Hnat) as Hnat'.
  destruct st as [m w]. cbn [fst snd] in *.
  assert (Hwritten : forall m', redis_store m' = redis_store m ->
            table_native (jobs m') ->
            in_sync (m', _persist m' w) /\
            store_writable m' (_persist m' w) /\ mkdir_ok (_persist m' w) = true).
  { intros m' Hrs Hn'. destruct (_persist_world m' w) as (Hm & Hw & Hr).
    assert (Hwr' : store_writable m' w) by (unfold store_writable in *; rewrite Hrs; exact Hwr).
    split; [apply persist_in_sync; assumption|]. split; [|congruence].
    unfold store_writable in *. rewrite Hrs in *.
    destruct (redis_store m); [apply Hr, Hwr | congruence]. }
  assert (Hup : forall k kw now,
            table_native (jobs (fst (_update k kw now m w))) ->
            in_sync (_update k kw now m w) /\
            store_writable (fst (_update k kw now m w)) (snd (_update k kw now m w)) /\
            mkdir_ok (snd (_update k kw now m w)) = true).
  { intros k kw now. unfold _update. destruct (dict_get k (jobs m)); [|auto].
    cbn [fst snd]. intros Hn'. apply Hwritten; [reflexivity | exact Hn']. }
  destruct o as [new_id now u ty me|k kw now|h now|h res now]; cbn [exec fst snd] in *.
  - unfold insert_job in *. cbn [fst snd] in *. apply Hwritten; [reflexivity | exact Hnat'].
  - apply Hup, Hnat'.
  - unfold worker_update, update_by_value in *.
    destruct (dict_get h (jobs m)) as [jh|]; [|auto].
    destruct (key_of (id jh)); [|auto]. apply Hup, Hnat'.
  - unfold worker_update, update_by_value in *.
    destruct (dict_get h (jobs m)) as [jh|]; [|auto].
    destruct (key_of (id jh)); [|auto]. apply Hup, Hnat'.
Qed.

Lemma run_in_sync ops : forall st,
  Forall native_op ops -> table_native (jobs (fst st)) ->
  store_writable (fst st) (snd st) -> mkdir_ok (snd st) = true ->
  in_sync st ->
  in_sync (run ops st) /\ redis_store (fst (run ops st)) = redis_store (fst st).
Proof.
  induction ops as [|o r IH]; intros st Hops Hnat Hwr Hmk Hsync; [split; [exact Hsync | reflexivity]|].
  apply Forall_cons in Hops as [Ho Hr].
  destruct (exec_in_sync o st Ho Hnat Hwr Hmk Hsync) as (Hs' & Hw' & Hm').
  destruct (IH (exec o st) Hr (exec_table_native o st Ho Hnat) Hw' Hm' Hs') as [Hfin Hrs].
  split; [exact Hfin|]. change (run (o :: r) st) with (run r (exec o st)). rewrite Hrs.
  clear. destruct st as [m w], o as [new_id now u ty me|k kw now|h now|h res now];
    cbn [exec fst snd]; try reflexivity.
  - unfold update_job, _update. destruct (dict_get k (jobs m)); reflexivity.
  - unfold worker_update, update_by_value, _update.
    destruct (dict_get h (jobs m)) as [jh|]; [|reflexivity].
    destruct (key_of (id jh)) as [k'|]; [|reflexivity].
    destruct (dict_get k' (jobs m)); reflexivity.
  - unfold worker_update, update_by_value, _update.
    destruct (dict_get h (jobs m)) as [jh|]; [|reflexivity].
    destruct (key_of (id jh)) as [k'|]; [|reflexivity].
    destruct (dict_get k' (jobs m)); reflexivity.
Qed.

(** X9.  Every operation is durable.  Start from a well-formed table that
    the store mirrors, on a store that takes writes.  After any sequence of
    submissions and updates whose arguments are values JSON carries
    unchanged and which leave [id] alone, a manager constructed on the same
    backend holds exactly the table that was in memory. *)
Theorem restart_recovers_table (st : JobManager * World) (ops : list op)
    (h h' : heap) (fr : nat -> fresh) (workers : Z) (redis_url : option string)
    (imported ok : bool) (m' : JobManager) :
  table_native (jobs (fst st)) -> in_sync st ->
  store_writable (fst st) (snd st) -> mkdir_ok (snd st) = true ->
  Forall native_op ops ->
  JobManager_init h fr workers redis_url imported ok (snd (run ops st)) = Ok (m', h') ->
  redis_store m' = redis_store (fst st) ->
  jobs m' = jobs (fst (run ops st)).
Proof.
  intros Hnat Hsync Hwr Hmk Hops Hinit Hrs.
  destruct (run_in_sync ops st Hops Hnat Hwr Hmk Hsync) as [Hfin Hrs'].
  unfold JobManager_init in Hinit. cbn [new_lock] in Hinit.
  destruct (Z.leb workers 0); [discriminate|]. injection Hinit as <- _.
  apply Hfin; [reflexivity|].
  rewrite Hrs'. rewrite <- Hrs. unfold _load_store. destruct (load_data _ _ _); reflexivity.
Qed.

Lemma restart_recovers_table_witness :
  let ops := [ Create "job-a" 10 "repo1" "github" (VDict [("lang", VStr "en")]);
               WorkerRunning (KStr "job-a") 11;
               UpdateJob (KStr "job-a") [("progress", VStr "half")] 12;
               WorkerFinish (KStr "job-a") (Some "boom") 13 ] in
  let st := run ops (sample_manager, clean_world) in
  match JobManager_init [] sample_fresh 2 None true true (snd st) with
  | Ok (m', _) => jobs m' = jobs (fst st)
  | Raise _ => False
  end.
Proof.
  intros ops st.
  destruct (JobManager_init [] sample_fresh 2 None true true (snd st))
    as [[m' h']|e] eqn:Hinit; [|discriminate Hinit].
  refine (restart_recovers_table (sample_manager, clean_world) ops [] h' sample_fresh 2
            None true true m' table_native_nil _ eq_refl eq_refl _ Hinit _).
  - intros fr m0 H0 Hrs. cbn [fst snd] in *. unfold _load_store, load_data.
    cbn [mkdir_ok clean_world file]. replace (redis_store m0) with false by exact (eq_sym Hrs).
    cbn. rewrite H0. reflexivity.
  - apply Forall_cons. split; [reflexivity|].
    apply Forall_cons. split; [exact I|].
    apply Forall_cons. split; [|apply Forall_cons; split; [exact I | constructor]].
    split; [repeat constructor|]. split; [not_in_list | repeat constructor].
  - injection Hinit as <- _. reflexivity.
Defined.

(** ** The size of the pool of the module-level manager *)

(** X10.  [os.cpu_count()] being [None] or a count of processors:
    - a [MAX_JOB_WORKERS] that parses to a number other than zero is the
      size of the pool, as it is;
    - unset, empty, not a number, or zero, it is ignored and the size is
      [min(8, 2 * cpus)], between 2 and 8;
    - the construction of the module-level manager raises exactly when
      [MAX_JOB_WORKERS] parses to a negative number. *)
Theorem default_workers_cases (int_of : string -> option Z) (workers_env : option string)
    (cpu_count : option Z) (fr : nat -> fresh) (redis_url : option string)
    (imported ok : bool) (w : World) :
  (forall c, cpu_count = Some c -> 0 <= c) ->
  let override := match workers_env with
                  | Some s => if String.eqb s "" then None else int_of s
                  | None => None
                  end in
  let d := default_workers int_of workers_env cpu_count in
  (forall z, override = Some z -> z <> 0 -> d = z) /\
  (override = None \/ override = Some 0 -> 2 <= d <= 8) /\
  ((exists e, job_manager int_of workers_env cpu_count fr redis_url imported ok w = Raise e)
   <-> exists z, override = Some z /\ z < 0).
Proof.
  intros Hcpu override d.
  assert (Hdflt : 2 <= Z.min 8 (match cpu_count with
                                 | Some c => if Z.eqb c 0 then 4 else c
                                 | None => 4
                                 end * 2) <= 8).
  { destruct cpu_count as [c|]; [|lia]. specialize (Hcpu c eq_refl).
    destruct (Z.eqb_spec c 0); lia. }
  assert (Hd : d = match override with
                   | Some z => if Z.eqb z 0
                               then Z.min 8 (match cpu_count with
                                             | Some c => if Z.eqb c 0 then 4 else c
                                             | None => 4
                                             end * 2)
                               else z
                   | None => Z.min 8 (match cpu_count with
                                      | Some c => if Z.eqb c 0 then 4 else c
                                      | None => 4
                                      end * 2)
                   end) by reflexivity.
  split; [|split].
  - intros z Hz Hne. rewrite Hd, Hz. destruct (Z.eqb_spec z 0); [contradiction | reflexivity].
  - intros [Hz|Hz]; rewrite Hd, Hz; [exact Hdflt | exact Hdflt].
  - unfold job_manager, JobManager_init. cbn [new_lock]. fold d.
    destruct (Z.leb_spec d 0) as [Hle|Hgt].
    + split; [intros _ | intros _; eexists; reflexivity].
      rewrite Hd in Hle. destruct override as [z|]; [|lia].
      destruct (Z.eqb_spec z 0); [lia|]. exists z. split; [reflexivity | lia].
    + split; [intros [e He]; discriminate He|].
      intros (z & Hz & Hneg). rewrite Hd, Hz in Hgt.
      destruct (Z.eqb_spec z 0); lia.
Qed.

Lemma default_workers_cases_witness :
  let int_of (s : string) := if String.eqb s "-1" then Some (-1) else None in
  default_workers int_of (Some "many") (Some 2) = 4 /\
  default_workers int_of None None = 8 /\
  exists e, job_manager int_of (Some "-1") (Some 2) sample_fresh None true true clean_world
            = Raise e.
Proof.
  intros int_of. split; [reflexivity|]. split; [reflexivity|].
  apply (proj2 (proj2 (default_workers_cases int_of (Some "-1") (Some 2) sample_fresh None
                         true true clean_world
                         ltac:(intros c [= <-]; lia)))).
  exists (-1). split; [reflexivity | lia].
Defined.

(** ** The Redis store *)

(** X11.  [RedisStore.save] followed by [RedisStore.load] gives the data
    back when the server answers and the data is made of values JSON carries
    unchanged.  When the server is down, or the data cannot be serialized,
    [save] changes nothing and raises nothing; a [load] from a server that
    is down, from a missing entry or from an entry that does not parse is
    the empty list. *)
Theorem redis_store_round_trip (data : pyval) (w : World) :
  (json_native data = true -> redis w <> RDown ->
     RedisStore.load (RedisStore.save data w) = data) /\
  (redis w = RDown \/ dumps data = None -> RedisStore.save data w = w) /\
  (redis w = RDown \/ redis w = REmpty \/ redis w = RGarbled ->
     RedisStore.load w = VList []).
Proof.
  split; [|split].
  - intros Hn Hup. destruct (dumps_loads data Hn) as (j & Hj & Hlj).
    unfold RedisStore.save, RedisStore.load. rewrite Hj.
    destruct (redis w); try contradiction; cbn; exact Hlj.
  - intros [Hdown|Hnone]; unfold RedisStore.save.
    + rewrite Hdown. destruct (dumps data); reflexivity.
    + rewrite Hnone. reflexivity.
  - intros [H|[H|H]]; unfold RedisStore.load; rewrite H; reflexivity.
Qed.

Lemma redis_store_round_trip_witness :
  let data := VList [VDict [("id", VStr "job-a"); ("error", VNone)]] in
  RedisStore.load (RedisStore.save data (mkWorld true true FAbsent RGarbled)) = data.
Proof.
  intros data.
  apply (proj1 (redis_store_round_trip data (mkWorld true true FAbsent RGarbled)));
    [reflexivity | discriminate].
Defined.

(** * Further properties of the threads *)

(** ** Who holds the locks *)

Lemma tstep_owned s t th th' g' l :
  Inv s -> Owners s -> threads s !! t = Some th ->
  tstep t th (shared s) th' g' ->
  locks g' !! l = Some (Some t) ->
  l = lock (mgr g') \/ exists u, in_repo_section th' = Some (u, l).
Proof.
  intros HI HO Ht Hstep Hown.
  pose proof (frame_lock _ _ _ (tstep_frame s t th th' g' HI Ht Hstep)) as Hlock.
  rewrite Hlock.
  assert (Hold : locks (shared s) !! l = Some (Some t) ->
            l = lock (mgr (shared s)) \/ exists u, in_repo_section th = Some (u, l)).
  { intros Ho. destruct (own_repo s HO l t Ho) as [->|(th0 & u & Ht0 & Hin)]; [left; reflexivity|].
    right. exists u. congruence. }
  destruct (decide (l = lock (mgr (shared s)))) as [->|Hne]; [left; reflexivity|].
  right.
  inversion Hstep; subst; cbn [with_locks with_table locks mgr in_repo_section] in *;
    unfold table_mutex, registry_mutex in *;
    try (destruct (Hold Hown) as [?|[u0 Hu]]; [contradiction | eexists; exact Hu]);
    try (erewrite lookup_acquire_ne in Hown by (eassumption || congruence);
         destruct (Hold Hown) as [?|[u0 Hu]]; [contradiction | eexists; exact Hu]);
    try (rewrite lookup_release_ne in Hown by congruence;
         destruct (Hold Hown) as [?|[u0 Hu]]; [contradiction | eexists; exact Hu]).
  - (* w_registry_in *)
    match goal with H : _get_repo_lock _ _ _ = _ |- _ =>
      destruct (_get_repo_lock_spec _ _ _ _ _ _ H) as (Hl & _ & _ & _ & _ & _ & Hh) end.
    rewrite Hl in Hown. rewrite lookup_release_ne in Hown by congruence.
    destruct Hh as [-> | ->].
    + destruct (Hold Hown) as [?|[u0 Hu]]; [contradiction | discriminate Hu].
    + apply (others_same_alloc (S t)) in Hown; [|lia].
      destruct (Hold Hown) as [?|[u0 Hu]]; [contradiction | discriminate Hu].
  - (* w_wait *)
    destruct (decide (l0 = l)) as [->|Hl]; [eexists; reflexivity|].
    erewrite lookup_acquire_ne in Hown by eassumption.
    destruct (Hold Hown) as [?|[u0 Hu]]; [contradiction | discriminate Hu].
  - (* w_release *)
    destruct (decide (l0 = l)) as [->|Hl].
    + pose proof (lookup_lt_Some _ _ _ Hown) as Hlt. unfold release in Hlt.
      rewrite length_insert in Hlt. rewrite lookup_release_eq in Hown by exact Hlt.
      discriminate Hown.
    + rewrite lookup_release_ne in Hown by exact Hl.
      destruct (Hold Hown) as [?|[u0 Hu]]; [contradiction|]. congruence.
Qed.

Lemma _get_repo_lock_cases u m (h : list (option nat)) l m' h' :
  _get_repo_lock u m h = (l, m', h') ->
  (dict_get u (repo_locks m) = Some l /\ m' = m /\ h' = h) \/
  (dict_get u (repo_locks m) = None /\ l = List.length h /\
   m' = set_repo_locks m (dict_set u l (repo_locks m)) /\ h' = (h ++ [None])%list).
Proof.
  unfold _get_repo_lock. destruct (dict_get u (repo_locks m)) as [l0|].
  - intros [= <- <- <-]. left. repeat split.
  - cbn [new_lock]. intros [= <- <- <-]. right. repeat split.
Qed.

(** A step leaves the registry and the number of locks as they are, or it
    registers a new lock for a repository that had none. *)
Lemma tstep_registry_cases t th g th' g' :
  tstep t th g th' g' ->
  (repo_locks (mgr g') = repo_locks (mgr g) /\
   List.length (locks g') = List.length (locks g)) \/
  (exists u, dict_get u (repo_locks (mgr g)) = None /\
             repo_locks (mgr g') = dict_set u (List.length (locks g)) (repo_locks (mgr g)) /\
             List.length (locks g') = S (List.length (locks g))).
Proof.
  intros Hstep.
  inversion Hstep; subst; cbn [with_locks with_table locks mgr];
    unfold release;
    try (match goal with H : update_by_value _ _ _ _ _ = Ok _ |- _ =>
           apply update_by_value_Ok in H as [k0 ->] end);
    try (match goal with H : acquire _ _ _ = Some _ |- _ =>
           apply acquire_Some in H as [_ ->] end);
    rewrite ?length_insert;
    try (left; split; reflexivity);
    try (left; split; [unfold update_job; apply _update_manager | reflexivity]);
    try (left; split; [apply assign_manager | reflexivity]).
  match goal with H : _get_repo_lock _ _ _ = _ |- _ =>
    apply _get_repo_lock_cases in H as [(_ & -> & ->)|(Hnone & -> & -> & ->)] end.
  - left. split; reflexivity.
  - right. exists (url wk). rewrite length_app. cbn. split; [exact Hnone|].
    split; [reflexivity | lia].
Qed.

Lemma Owners_step_thread s t th th' g' :
  Inv s -> Owners s -> threads s !! t = Some th ->
  tstep t th (shared s) th' g' ->
  Owners (mkSys g' (<[t := th']> (threads s))).
Proof.
  intros HI HO Ht Hstep.
  pose proof (tstep_frame s t th th' g' HI Ht Hstep) as Hframe.
  pose proof (frame_lock _ _ _ Hframe) as Hlock.
  assert (Hnew : <[t := th']> (threads s) !! t = Some th')
    by (apply list_lookup_insert_eq; eapply lookup_lt_Some, Ht).
  split; cbn [shared threads].
  - intros l t0 Hown. destruct (decide (t0 = t)) as [->|Hne].
    + destruct (tstep_owned s t th th' g' l HI HO Ht Hstep Hown) as [Hl|[u Hu]];
        [left; exact Hl | right; eauto].
    + rewrite Hlock. apply (frame_locks _ _ _ Hframe _ _ Hne) in Hown.
      destruct (own_repo s HO l t0 Hown) as [Hl|(th0 & u & Ht0 & Hin)]; [left; exact Hl|].
      right. exists th0, u. split; [|exact Hin].
      rewrite list_lookup_insert_ne by congruence. exact Ht0.
  - intros l Hl. rewrite Hlock.
    destruct (tstep_registry_cases _ _ _ _ _ Hstep) as [[Hreg Hlen]|(u & Hnone & Hreg & Hlen)].
    + rewrite Hreg. apply (own_registered s HO). lia.
    + rewrite Hreg. destruct (decide (l = List.length (locks (shared s)))) as [->|Hne].
      * right. exists u. apply dict_get_set_eq.
      * destruct (own_registered s HO l ltac:(lia)) as [Hl'|[u' Hu']]; [left; exact Hl'|].
        right. exists u'. rewrite dict_get_set_ne; [exact Hu'|]. congruence.
  - intros u1 u2 l.
    destruct (tstep_registry_cases _ _ _ _ _ Hstep) as [[Hreg Hlen]|(u & Hnone & Hreg & Hlen)];
      rewrite Hreg; [apply (own_injective s HO)|].
    rewrite !dict_get_set.
    destruct (decide (u = u1)) as [<-|H1], (decide (u = u2)) as [<-|H2];
      intros E1 E2; try reflexivity.
    + injection E1 as <-. apply (inv_registry s HI) in E2 as [Hlt _]. lia.
    + injection E2 as <-. apply (inv_registry s HI) in E1 as [Hlt _]. lia.
    + eapply (own_injective s HO); eassumption.
Qed.

Lemma Owners_join s q th :
  Owners s ->
  Owners (mkSys (mkShared (mgr (shared s)) (world (shared s)) (locks (shared s)) q
                          (issued (shared s)))
                (threads s ++ [th])).
Proof.
  intros HO. split; cbn [shared threads mgr locks].
  - intros l t Hown. destruct (own_repo s HO l t Hown) as [Hl|(th0 & u & Ht0 & Hin)];
      [left; exact Hl|].
    right. exists th0, u. split; [apply lookup_app_l_Some, Ht0 | exact Hin].
  - apply (own_registered s HO).
  - apply (own_injective s HO).
Qed.

Lemma Owners_step s s' : Inv s -> Owners s -> step s s' -> Owners s'.
Proof.
  intros HI HO Hstep.
  destruct Hstep as [s t th th' g' Ht Hts|s th Hent|s wk q Hq Hcap|s w'].
  - eapply Owners_step_thread; eassumption.
  - destruct s as [[m w L qu iss] T]. apply (Owners_join (mkSys (mkShared m w L qu iss) T) qu th HO).
  - apply (Owners_join s q _ HO).
  - destruct HO as [H1 H2 H3]. split; assumption.
Qed.

Lemma Owners_initial s : initial s -> Owners s.
Proof.
  intros (fr & workers & redis_url & imported & ok & w & m & h & Hinit & ->).
  apply JobManager_init_fresh in Hinit as (Hl & -> & Hr & _).
  split; cbn [shared threads mgr locks]; rewrite ?Hl, ?Hr.
  - intros [|l] t H; discriminate H.
  - intros l Hlt. cbn in Hlt. left. lia.
  - intros u1 u2 l H. discriminate H.
Qed.

Lemma Owners_reachable s : reachable s -> Owners s.
Proof.
  intros (s0 & H0 & Hrtc).
  assert (Hboth : Inv s /\ Owners s).
  { pose proof (Inv_initial s0 H0) as HI. pose proof (Owners_initial s0 H0) as HO.
    clear H0. induction Hrtc as [|x y z Hxy _ IH]; [split; assumption|].
    apply IH; [eapply Inv_step | eapply Owners_step]; eassumption. }
  apply Hboth.
Qed.

Lemma registry_stable_step s s' u l :
  Inv s -> step s s' ->
  dict_get u (repo_locks (mgr (shared s))) = Some l ->
  dict_get u (repo_locks (mgr (shared s'))) = Some l.
Proof.
  intros HI Hstep Hreg.
  destruct Hstep as [s t th th' g' Ht Hts|s th Hent|s wk q Hq Hcap|s w']; cbn [shared mgr];
    try exact Hreg.
  apply (frame_registry _ _ _ (tstep_frame s t th th' g' HI Ht Hts)). exact Hreg.
Qed.

Lemma registry_stable s s' u l :
  Inv s -> rtc step s s' ->
  dict_get u (repo_locks (mgr (shared s))) = Some l ->
  dict_get u (repo_locks (mgr (shared s'))) = Some l.
Proof.
  intros HI Hrtc. induction Hrtc as [|x y z Hxy _ IH]; [auto|].
  intros Hreg. apply IH; [eapply Inv_step; eassumption|].
  eapply registry_stable_step; eassumption.
Qed.

(** X12.  Each repository has a lock of its own.  In every reachable state
    two different [repo_url]s are registered with different locks, neither
    of which is [self.lock]; and the lock registered for a [repo_url] is the
    lock every later state has for it: [_get_repo_lock] never replaces or
    removes an entry. *)
Theorem repositories_have_own_locks (s : Sys) (u1 u2 : string) (l1 l2 : nat) :
  reachable s ->
  dict_get u1 (repo_locks (mgr (shared s))) = Some l1 ->
  dict_get u2 (repo_locks (mgr (shared s))) = Some l2 ->
  u1 <> u2 ->
  l1 <> l2 /\ l1 <> lock (mgr (shared s)) /\ l2 <> lock (mgr (shared s)) /\
  forall s', rtc step s s' ->
    dict_get u1 (repo_locks (mgr (shared s'))) = Some l1 /\
    dict_get u2 (repo_locks (mgr (shared s'))) = Some l2.
Proof.
  intros Hreach H1 H2 Hne.
  pose proof (Inv_reachable s Hreach) as HI. pose proof (Owners_reachable s Hreach) as HO.
  split; [|split; [|split]].
  - intros <-. apply Hne. eapply (own_injective s HO); eassumption.
  - apply (inv_registry s HI) in H1 as [_ H]. exact H.
  - apply (inv_registry s HI) in H2 as [_ H]. exact H.
  - intros s' Hrtc. split; eapply registry_stable; eassumption.
Qed.

Lemma repositories_have_own_locks_witness :
  dict_get "repo1" (repo_locks (mgr (shared both_in_task))) = Some 1%nat /\
  dict_get "repo2" (repo_locks (mgr (shared both_in_task))) = Some 2%nat /\
  1%nat <> 2%nat.
Proof.
  split; [reflexivity|]. split; [reflexivity|].
  exact (proj1 (repositories_have_own_locks both_in_task "repo1" "repo2" 1 2
                  both_in_task_reachable eq_refl eq_refl ltac:(discriminate))).
Defined.

Lemma in_section_unfinished th :
  in_table_section th = true \/ in_repo_section th <> None -> unfinished th = true.
Proof.
  destruct th as [u ty me b []|wk []|k kw []|k []]; cbn; intros [H|H];
    try reflexivity; try discriminate H; exfalso; apply H; reflexivity.
Qed.

(** X13.  No lock outlives the call that took it.  In every reachable state
    a thread whose call has returned, or whose [_run] has ended with or
    without an exception, owns no lock: neither [self.lock] nor the lock of
    any repository. *)
Theorem finished_thread_holds_no_lock (s : Sys) (t : nat) (th : thread) (l : nat) :
  reachable s -> threads s !! t = Some th -> unfinished th = false ->
  locks (shared s) !! l <> Some (Some t).
Proof.
  intros Hreach Ht Hdone Hown.
  pose proof (Inv_reachable s Hreach) as HI. pose proof (Owners_reachable s Hreach) as HO.
  destruct (own_repo s HO l t Hown) as [->|(th0 & u & Ht0 & Hin)].
  - apply (inv_table_owner s HI) in Hown as (th0 & Ht0 & Hin).
    assert (th0 = th) as -> by congruence.
    rewrite in_section_unfinished in Hdone by (left; exact Hin). discriminate.
  - assert (th0 = th) as -> by congruence.
    rewrite in_section_unfinished in Hdone by (right; congruence). discriminate.
Qed.

Lemma finished_thread_holds_no_lock_witness :
  locks (shared both_in_task) !! 0%nat <> Some (Some 0%nat) /\
  locks (shared both_in_task) !! 1%nat <> Some (Some 0%nat).
Proof.
  split;
    apply (finished_thread_holds_no_lock both_in_task 0
             (TCreate "repo1" "github" (VDict []) (reporting_task (KStr "job-a"))
                      (CReturned "job-a")) _ both_in_task_reachable eq_refl eq_refl).
Defined.

(** X14.  A task that returns is recorded as a success.  When [_run] starts
    with no lock held, on a job of the table whose task does not reassign
    [id] and returns, it ends without an exception, the record of the job
    has status "success" and progress "done", and every lock is free again.
    The call is a run of the worker thread. *)
Theorem task_success_recorded (t : nat) (wk : work) (clock : nat -> Z) (g : Shared)
    (job : Job) :
  free g -> ids_consistent (jobs (mgr g)) ->
  dict_get (handle wk) (jobs (mgr g)) = Some job ->
  keeps_id (body wk) ->
  outcome (body wk) = None ->
  exists g' job',
    _run t wk clock g = Some (None, g') /\
    rtc (local_step t) (TWorker wk WRegistry, g) (TWorker wk (WDone None), g') /\
    dict_get (handle wk) (jobs (mgr g')) = Some job' /\
    status job' = VStr JobStatus.SUCCESS /\ progress job' = VStr "done" /\
    free g' /\ queue g' = queue g.
Proof.
  intros Hfree Hc Hget Hk Hout.
  destruct (_run_spec t wk clock g job Hfree Hc Hget Hk)
    as (g' & job' & Hrun & Hfree' & _ & Hq & Hget' & Hst & _ & Hdone);
    [rewrite Hout; discriminate|].
  rewrite Hout in Hst.
  exists g', job'. split; [exact Hrun|]. split; [apply (_run_local _ _ clock), Hrun|].
  split; [exact Hget'|]. split; [exact Hst|]. split; [apply Hdone, Hout|].
  split; [exact Hfree' | exact Hq].
Qed.

Lemma task_success_recorded_witness :
  exists g' job',
    _run 1 (mkWork (KStr "job-c") "repo2" (reporting_task (KStr "job-c"))) (fun _ => 11)
         (submitted (reporting_task (KStr "job-c"))) = Some (None, g') /\
    dict_get (KStr "job-c") (jobs (mgr g')) = Some job' /\
    status job' = VStr "success" /\ progress job' = VStr "done".
Proof.
  destruct (task_success_recorded 1 (mkWork (KStr "job-c") "repo2" (reporting_task (KStr "job-c")))
              (fun _ => 11) (submitted (reporting_task (KStr "job-c")))
              (Job_init "job-c" 10 (VStr "repo2") (VStr "github") (VDict []))
              (proj1 (submitted_free _)) (proj2 (submitted_free _))
              eq_refl)
    as (g' & job' & Hrun & _ & Hget & Hst & Hprog & _).
  - cbn. repeat constructor; cbn; not_in_list.
  - reflexivity.
  - exists g', job'. repeat split; assumption.
Defined.

(** ** No deadlock *)

(** [uuid4] can always return an identifier that is new. *)
Lemma fresh_id (used : list string) (d : list (tkey * Job)) :
  exists new_id, (new_id ∉ used) /\ dict_get (KStr new_id) d = None.
Proof.
  set (keys := omap (fun kv : tkey * Job =>
                       match fst kv with KStr x => Some x | _ => None end) d).
  exists (base.fresh (used ++ keys)%list).
  pose proof (infinite_is_fresh (used ++ keys)%list) as Hfresh.
  rewrite not_elem_of_app in Hfresh. destruct Hfresh as [Hu Hk].
  split; [exact Hu|]. apply dict_get_None. intros Hin. apply Hk.
  apply list_elem_of_fmap in Hin as ([k j] & Hk' & Hin). cbn in Hk'.
  apply list_elem_of_omap. exists (k, j). split; [exact Hin|]. cbn. rewrite <- Hk'. reflexivity.
Qed.

Lemma update_by_value_cases v kw now m w :
  (exists st, update_by_value v kw now m w = Ok st) \/
  (exists e, update_by_value v kw now m w = Raise e).
Proof.
  unfold update_by_value. destruct (key_of v); [left|right]; eexists; reflexivity.
Qed.

(** A thread inside [with self.lock] waits for nothing. *)
Lemma table_thread_steps t th g :
  in_table_section th = true -> exists th' g', tstep t th g th' g'.
Proof.
  destruct th as [u ty me b []|wk []|k kw []|k []]; cbn; intros H; try discriminate H.
  - eexists _, _. apply c_insert.
  - destruct (_get_repo_lock (url wk) (mgr g) (locks g)) as [[l m] h] eqn:Hg.
    eexists _, _. eapply w_registry_in. exact Hg.
  - destruct (update_by_value_cases v running_kwargs 0 (mgr g) (world g)) as [[st Hu]|[e Hu]];
      eexists _, _; [eapply w_running_in | eapply w_running_raise]; exact Hu.
  - eexists _, _. apply (w_task_in t wk g l k kwargs todo 0).
  - destruct (update_by_value_cases v (finish_kwargs res) 0 (mgr g) (world g))
      as [[st Hu]|[e Hu]].
    + eexists _, _. eapply w_finish_in. exact Hu.
    + destruct res as [e0|]; eexists _, _; [eapply w_finish_raise | eapply w_finish_caught];
        exact Hu.
  - eexists _, _. apply (u_body t k kw g 0).
  - eexists _, _. apply g_body.
Qed.

(** With [self.lock] free, a thread that has not finished steps, unless it
    waits for the lock of a repository that another thread holds. *)
Lemma outside_thread_steps s t th :
  Inv s ->
  locks (shared s) !! lock (mgr (shared s)) = Some None ->
  threads s !! t = Some th -> unfinished th = true ->
  (forall wk l, th = TWorker wk (WWait l) -> locks (shared s) !! l = Some None) ->
  exists th' g', tstep t th (shared s) th' g'.
Proof.
  intros HI Hfree Ht Hun Hwait.
  assert (Hacq : acquire (lock (mgr (shared s))) t (locks (shared s))
                 = Some (<[lock (mgr (shared s)) := Some t]> (locks (shared s)))).
  { unfold acquire. rewrite Hfree. reflexivity. }
  destruct (decide (in_table_section th = true)) as [Hin|Hout];
    [apply table_thread_steps; exact Hin|].
  destruct th as [u ty me b []|wk []|k kw []|k []]; cbn in Hun, Hout;
    try discriminate Hun; try (exfalso; apply Hout; reflexivity).
  - destruct (fresh_id (issued (shared s)) (jobs (mgr (shared s)))) as (new_id & Hi & Hd).
    eexists _, _. apply (c_new t u ty me b (shared s) new_id 0 Hi Hd).
  - eexists _, _. apply c_lock. exact Hacq.
  - eexists _, _. apply c_submit.
  - eexists _, _. apply w_registry. exact Hacq.
  - eexists _, _. apply w_wait. unfold acquire. rewrite (Hwait wk l eq_refl). reflexivity.
  - destruct (inv_records s HI t _ (handle wk) Ht eq_refl) as [job Hjob].
    eexists _, _. eapply w_running_id. exact Hjob.
  - eexists _, _. apply w_running_lock. exact Hacq.
  - destruct todo as [|[k kw|a v] todo].
    + destruct (outcome (body wk)) as [[m|m]|] eqn:Hend.
      * eexists _, _. apply (w_task_end t wk _ l (Some m)). exact Hend.
      * eexists _, _. apply (w_task_escape t wk _ l m). exact Hend.
      * eexists _, _. apply (w_task_end t wk _ l None). exact Hend.
    + eexists _, _. apply w_task_call. exact Hacq.
    + eexists _, _. apply w_task_assign.
  - destruct (inv_records s HI t _ (handle wk) Ht eq_refl) as [job Hjob].
    eexists _, _. eapply w_finish_id. exact Hjob.
  - eexists _, _. apply w_finish_lock. exact Hacq.
  - eexists _, _. apply w_release.
  - eexists _, _. apply u_lock. exact Hacq.
  - eexists _, _. apply g_lock. exact Hacq.
Qed.

(** X15.  The manager cannot deadlock.  In every reachable state in which
    some call or work item has not finished, some thread that has not
    finished can take a step: a thread holding [self.lock] never waits, and
    a thread holding the lock of a repository only ever waits for
    [self.lock]. *)
Theorem no_deadlock (s : Sys) (t : nat) (th : thread) :
  reachable s -> threads s !! t = Some th -> unfinished th = true ->
  exists t1 th1 th1' g',
    threads s !! t1 = Some th1 /\ unfinished th1 = true /\
    tstep t1 th1 (shared s) th1' g'.
Proof.
  intros Hreach Ht Hun.
  pose proof (Inv_reachable s Hreach) as HI. pose proof (Owners_reachable s Hreach) as HO.
  pose proof (inv_lock s HI) as Hlt. apply lookup_lt_is_Some in Hlt as [o Ho].
  destruct o as [t0|].
  { (* self.lock is held *)
    apply (inv_table_owner s HI) in Ho as (th0 & Ht0 & Hin).
    destruct (table_thread_steps t0 th0 (shared s) Hin) as (th' & g' & Hstep).
    exists t0, th0, th', g'. split; [exact Ht0|]. split; [|exact Hstep].
    apply in_section_unfinished. left. exact Hin. }
  assert (Hcase : (exists wk l t2, th = TWorker wk (WWait l) /\
                                   locks (shared s) !! l = Some (Some t2)) \/
                  (forall wk l, th = TWorker wk (WWait l) ->
                                locks (shared s) !! l = Some None)).
  { destruct th as [u ty me b pc|wk pc|k kw pc|k pc]; try (right; discriminate).
    destruct pc; try (right; discriminate).
    pose proof (inv_waiting s HI t wk l Ht) as Hreg.
    apply (inv_registry s HI) in Hreg as [Hl _].
    apply lookup_lt_is_Some in Hl as [[t2|] Hl].
    - left. exists wk, l, t2. auto.
    - right. intros wk' l' [= <- <-]. exact Hl. }
  destruct Hcase as [(wk & l & t2 & -> & Hheld)|Hwait].
  - (* the thread waits for a repository lock: its holder steps *)
    destruct (own_repo s HO l t2 Hheld) as [->|(th2 & u & Ht2 & Hin2)]; [congruence|].
    assert (Hun2 : unfinished th2 = true)
      by (apply in_section_unfinished; right; congruence).
    destruct (outside_thread_steps s t2 th2 HI Ho Ht2 Hun2) as (th' & g' & Hstep).
    { intros wk2 l2 ->. discriminate Hin2. }
    exists t2, th2, th', g'. auto.
  - destruct (outside_thread_steps s t th HI Ho Ht Hun Hwait) as (th' & g' & Hstep).
    exists t, th, th', g'. auto.
Qed.

Lemma no_deadlock_witness :
  exists t1 th1 th1' g',
    threads both_in_task !! t1 = Some th1 /\ unfinished th1 = true /\
    tstep t1 th1 (shared both_in_task) th1' g'.
Proof.
  exact (no_deadlock both_in_task 2 _ both_in_task_reachable eq_refl eq_refl).
Defined.

(** X16.  [create_job] waits for [self.lock] only.  Whenever [self.lock] is
    free, whoever holds the locks of the repositories and however many work
    items are queued, the call runs to its end by steps of the calling
    thread alone: it returns the new job with status queued, the job is in
    the table, its work item is the last of the queue, and every lock and
    the registry are as before. *)
Theorem create_job_does_not_wait (t : nat) (new_id : string) (now : Z) (u ty : string)
    (me : pyval) (b : task) (g : Shared) :
  locks g !! lock (mgr g) = Some None ->
  (new_id ∉ issued g) -> dict_get (KStr new_id) (jobs (mgr g)) = None ->
  exists job g',
    create_job t new_id now u ty me b g = Some (job, g') /\
    rtc (local_step t) (TCreate u ty me b CNew, g)
                       (TCreate u ty me b (CReturned new_id), g') /\
    status job = VStr JobStatus.QUEUED /\
    dict_get (KStr new_id) (jobs (mgr g')) = Some job /\
    queue g' = (queue g ++ [mkWork (KStr new_id) u b])%list /\
    locks g' = locks g /\ repo_locks (mgr g') = repo_locks (mgr g).
Proof.
  intros Hfree Hnew Habs.
  destruct (acquire_release (locks g) (lock (mgr g)) t Hfree) as [Hacq Hrel].
  assert (Hc : create_job t new_id now u ty me b g
               = Some (Job_init new_id now (VStr u) (VStr ty) me,
                       mkShared (fst (insert_job (KStr new_id)
                                        (Job_init new_id now (VStr u) (VStr ty) me)
                                        (mgr g) (world g)))
                                (snd (insert_job (KStr new_id)
                                        (Job_init new_id now (VStr u) (VStr ty) me)
                                        (mgr g) (world g)))
                                (locks g)
                                (queue g ++ [mkWork (KStr new_id) u b])%list
                                (new_id :: issued g))).
  { unfold create_job, table_mutex. rewrite Hacq. cbn [mbind option_bind].
    rewrite Hrel. reflexivity. }
  eexists _, _. split; [exact Hc|]. split; [eapply create_job_local; eassumption|].
  split; [reflexivity|]. split; [|repeat split].
  unfold insert_job. cbn [mgr fst jobs set_jobs]. apply dict_get_set_eq.
Qed.

Lemma create_job_does_not_wait_witness :
  exists job g',
    create_job 4 "job-c" 14 "repo1" "github" (VDict []) (reporting_task (KStr "job-c"))
               (shared both_in_task) = Some (job, g') /\
    locks g' = [None; Some 2%nat; Some 3%nat].
Proof.
  destruct (create_job_does_not_wait 4 "job-c" 14 "repo1" "github" (VDict [])
              (reporting_task (KStr "job-c")) (shared both_in_task) eq_refl)
    as (job & g' & Hc & _ & _ & _ & _ & Hl & _).
  - cbn. not_in_list.
  - reflexivity.
  - exists job, g'. split; [exact Hc | exact Hl].
Defined.

(** * Failing tasks among the other threads (C3) *)

(** ** Records under their ids *)

Lemma load_items_ids_consistent fr items : forall n acc js,
  ids_consistent acc -> load_items fr n items acc = Some js -> ids_consistent js.
Proof.
  induction items as [|x r IH]; intros n acc js Hacc.
  - intros [= <-]. exact Hacc.
  - destruct x as [| | | | | |item|]; try discriminate.
    cbn [load_items]. destruct (key_of (id (job_of_item (fr n) item))) as [k|] eqn:Hk;
      [|discriminate].
    apply IH. apply Forall_dict_set; [exact Hacc | exact Hk].
Qed.

Lemma _load_store_ids_consistent fr m w :
  jobs m = [] -> ids_consistent (jobs (_load_store fr m w)).
Proof.
  intros H0. unfold _load_store.
  destruct (load_data fr m w) as [js|] eqn:Hl; cbn [jobs set_jobs]; [|constructor].
  unfold load_data in Hl. destruct (mkdir_ok w); [|discriminate].
  match type of Hl with context [mbind _ ?c] => destruct c as [data|]; [|discriminate] end.
  cbn [mbind option_bind] in Hl. destruct (iterate data) as [items|]; [|discriminate].
  cbn [mbind option_bind] in Hl. rewrite H0 in Hl.
  eapply load_items_ids_consistent; [|exact Hl]. constructor.
Qed.

(** ** Careful threads *)

Lemma tstep_static t th g th' g' :
  tstep t th g th' g' -> careful_thread th' -> careful_thread th.
Proof. intros Hstep. inversion Hstep; subst; cbn [careful_thread]; auto. Qed.

Lemma tstep_queue t th g th' g' :
  tstep t th g th' g' -> forall wk, wk ∈ queue g -> wk ∈ queue g'.
Proof.
  intros Hstep wk Hwk.
  inversion Hstep; subst; cbn [with_locks with_table queue]; try exact Hwk.
  apply elem_of_app. left. exact Hwk.
Qed.

(** The threads of a careful state were careful all along. *)
Lemma careful_back s s' : step s s' -> careful s' -> careful s.
Proof.
  intros Hstep [HT HQ]. rewrite Forall_forall in HQ.
  destruct Hstep as [s t th th' g' Ht Hts|s th Hent|s wk q Hq Hcap|s w'];
    cbn [shared threads queue] in *.
  - split.
    + apply Forall_lookup. intros i x Hx.
      destruct (decide (i = t)) as [->|Hne].
      * assert (x = th) as -> by congruence.
        apply (tstep_static _ _ _ _ _ Hts).
        apply (proj1 (Forall_lookup _ _) HT t).
        apply list_lookup_insert_eq. eapply lookup_lt_Some, Ht.
      * apply (proj1 (Forall_lookup _ _) HT i).
        rewrite list_lookup_insert_ne by congruence. exact Hx.
    + apply Forall_forall. intros wk Hwk. apply HQ. eapply tstep_queue; eassumption.
  - split; [|apply Forall_forall; exact HQ].
    apply Forall_app in HT as [HT _]. exact HT.
  - apply Forall_app in HT as [HT Hw]. split; [exact HT|].
    rewrite Hq. constructor; [|apply Forall_forall; exact HQ].
    apply Forall_cons in Hw as [Hw _]. exact Hw.
  - split; [exact HT | apply Forall_forall; exact HQ].
Qed.

Lemma update_by_value_key v k kw now m w :
  key_of v = Some k -> update_by_value v kw now m w = Ok (_update k kw now m w).
Proof. intros Hk. unfold update_by_value. rewrite Hk. reflexivity. Qed.

Lemma keeps_id_finish res : "id" ∉ map fst (finish_kwargs res).
Proof. destruct res; cbn; not_in_list. Qed.

Lemma keeps_id_running : "id" ∉ map fst running_kwargs.
Proof. cbn; not_in_list. Qed.

Ltac worker_facts := repeat split; intros; try discriminate; auto.

(** A step of a careful thread keeps the records under their ids and the
    worker on its job. *)
Lemma tstep_ids s t th th' g' :
  Inv s -> Ids s -> threads s !! t = Some th -> careful_thread th ->
  tstep t th (shared s) th' g' ->
  ids_consistent (jobs (mgr g')) /\ worker_ok th'.
Proof.
  intros HI HK Ht Hcare Hstep.
  pose proof (ids_table s HK) as Hc. pose proof (ids_workers s HK t th Ht) as Hw.
  inversion Hstep; subst;
    cbn [worker_ok read_id pending handler_of escaped careful_thread
         with_locks with_table mgr jobs] in *.
  all: try (split; [exact Hc | exact I]).
  all: try (destruct Hw as (Hr & Hp & Hh & He)).
  all: try (match goal with H : update_by_value ?v _ _ _ _ = _ |- _ =>
              rewrite (update_by_value_key v (handle wk)) in H by (apply Hr; reflexivity);
              first [discriminate H | injection H as <-] end).
  all: try (split; [exact Hc | worker_facts; fail]).
  all: try (split; [apply _update_ids_consistent;
                      [first [apply keeps_id_running | apply keeps_id_finish] | exact Hc]
                   | worker_facts; fail]).
  - (* c_insert *)
    destruct (inv_pending s HI t u ty me b _ new_id job Ht eq_refl) as [now ->].
    split; [apply insert_job_ids_consistent, Hc | exact I].
  - (* w_registry_in *)
    match goal with H : _get_repo_lock _ _ _ = _ |- _ =>
      destruct (_get_repo_lock_spec _ _ _ _ _ _ H) as (_ & Hj & _) end.
    rewrite Hj. split; [exact Hc | worker_facts].
  - (* w_running_id *)
    split; [exact Hc|]. worker_facts.
    match goal with H : Some _ = Some _ |- _ => injection H as <- end.
    eapply ids_consistent_get; eassumption.
  - (* w_task_in *)
    apply Forall_cons in Hp as [[_ Hid] Hp].
    split; [apply _update_ids_consistent; assumption | worker_facts].
  - (* w_task_assign *)
    apply Forall_cons in Hp as [[_ Hid] Hp].
    split; [apply assign_ids_consistent; assumption | worker_facts].
  - (* w_task_end *)
    split; [exact Hc|]. worker_facts.
    match goal with H : Some _ = Some _ |- _ => injection H as <- end. assumption.
  - (* w_task_escape *)
    split; [exact Hc|]. worker_facts.
    match goal with H : Some _ = Some _ |- _ => injection H as <- end. assumption.
  - (* w_finish_id *)
    split; [exact Hc|]. worker_facts.
    match goal with H : Some _ = Some _ |- _ => injection H as <- end.
    eapply ids_consistent_get; eassumption.
  - (* u_body *)
    split; [apply _update_ids_consistent; assumption | exact I].
Qed.

Lemma Ids_step s s' : Inv s -> Ids s -> careful s -> step s s' -> Ids s'.
Proof.
  intros HI HK [HT HQ] Hstep.
  destruct Hstep as [s t th th' g' Ht Hts|s th Hent|s wk q Hq Hcap|s w'].
  - destruct (tstep_ids s t th th' g' HI HK Ht
                (proj1 (Forall_lookup _ _) HT t th Ht) Hts) as [Hc Hw].
    split; cbn [shared threads]; [exact Hc|].
    intros t0 th0 Ht0.
    destruct (threads_insert_cases _ _ _ _ _ _ Ht Ht0) as [[-> ->]|[Hne Hold]];
      [exact Hw | eapply (ids_workers s HK); exact Hold].
  - split; cbn [shared threads]; [apply (ids_table s HK)|].
    intros t0 th0 Ht0. apply lookup_snoc_cases in Ht0 as [Ht0| ->];
      [eapply (ids_workers s HK); exact Ht0|].
    destruct th as [u ty me b []|wk pc|k kw []|k []]; try discriminate Hent; exact I.
  - split; cbn [shared threads mgr]; [apply (ids_table s HK)|].
    intros t0 th0 Ht0. apply lookup_snoc_cases in Ht0 as [Ht0| ->];
      [eapply (ids_workers s HK); exact Ht0|].
    cbn. worker_facts.
  - split; cbn [shared threads mgr]; [apply (ids_table s HK) | apply (ids_workers s HK)].
Qed.

Lemma Ids_initial s : initial s -> Ids s.
Proof.
  intros (fr & workers & redis_url & imported & ok & w & m & h & Hinit & ->).
  split; cbn [shared threads mgr].
  - unfold JobManager_init in Hinit. cbn [new_lock] in Hinit.
    destruct (Z.leb workers 0); [discriminate|]. injection Hinit as <- _.
    apply _load_store_ids_consistent. reflexivity.
  - intros t th Ht. rewrite lookup_nil in Ht. discriminate.
Qed.

(** In a reachable state whose threads are careful the records sit under
    their ids and every worker is on its job. *)
Lemma Ids_reachable s : reachable s -> careful s -> Ids s.
Proof.
  intros (s0 & H0 & Hrtc).
  apply (rtc_ind_r (R:=step) (fun s => careful s -> Ids s) s0); [| |exact Hrtc].
  - intros _. apply Ids_initial, H0.
  - intros y z Hxy Hyz IH Hcare.
    pose proof (careful_back _ _ Hyz Hcare) as Hcare'.
    eapply Ids_step; [| apply IH; exact Hcare' | exact Hcare' | exact Hyz].
    eapply Inv_rtc; [apply Inv_initial, H0 | exact Hxy].
Qed.

(** ** The failure is recorded *)

Lemma create_job_ready t new_id now u ty me b g u2 :
  ready u2 g -> ids_consistent (jobs (mgr g)) ->
  exists g2,
    create_job t new_id now u ty me b g
      = Some (Job_init new_id now (VStr u) (VStr ty) me, g2) /\
    ready u2 g2 /\ ids_consistent (jobs (mgr g2)) /\
    dict_get (KStr new_id) (jobs (mgr g2))
      = Some (Job_init new_id now (VStr u) (VStr ty) me).
Proof.
  intros Hready Hc. pose proof Hready as (_ & _ & Hlock & _).
  unfold create_job, table_mutex.
  destruct (acquire_release _ _ t Hlock) as [-> Hrel]. cbn [mbind option_bind].
  rewrite Hrel. eexists. split; [reflexivity|].
  split; [apply ready_table; [reflexivity | reflexivity | exact Hready]|].
  cbn [mgr]. split; [apply insert_job_ids_consistent, Hc|].
  unfold insert_job. cbn [fst jobs set_jobs]. apply dict_get_set_eq.
Qed.

Lemma boom_beside_running_reachable : reachable boom_beside_running.
Proof.
  exists pool_of_two. split; [apply pool_of_two_initial|].
  unfold pool_of_two. cbn.
  new_call (TCreate "repo1" "github" (VDict []) (reporting_task (KStr "job-a")) CNew).
  eapply rtc_l; [eapply (step_thread _ 0%nat); [reflexivity|
    eapply (c_new _ _ _ _ _ _ "job-a" 10); [apply not_elem_of_nil | reflexivity]] | cbn].
  thread_step 0%nat. thread_step 0%nat. thread_step 0%nat.
  pool_step.
  thread_step 1%nat. thread_step 1%nat. thread_step 1%nat. thread_step 1%nat.
  thread_step 1%nat.
  eapply rtc_l; [eapply (step_thread _ 1%nat); [reflexivity|
    eapply (w_running_in _ _ _ _ _ 12); reflexivity] | cbn].
  new_call (TCreate "repo2" "github" (VDict []) boom_task CNew).
  eapply rtc_l; [eapply (step_thread _ 2%nat); [reflexivity|
    eapply (c_new _ _ _ _ _ _ "job-c" 13); [cbn; not_in_list | reflexivity]] | cbn].
  thread_step 2%nat. thread_step 2%nat. thread_step 2%nat.
  pool_step.
  apply rtc_refl.
Qed.

Lemma boom_beside_running_careful : careful boom_beside_running.
Proof.
  split; cbn; repeat constructor; cbn; not_in_list.
Qed.

(** C3, as the code has it.  Let no caller and no task assign the [id] of a
    job: the keywords of every [update_job] call and the attributes a task
    assigns on its job are instance attributes other than [id], or unknown
    names.  Let the task of a worker raise an exception that derives from
    [Exception], with message [e].  Then in every reachable state,
    whatever the other threads do:
    - no exception has left [_run];
    - the handler of [_run] holds the message [e];
    - the update of the handler sets status failed, error [e] and progress
      "error" on the record of the job, after which the worker only releases
      the lock of the repository;
    - once [_run] has ended the worker holds no lock;
    - when the worker has just been started and [self.lock] and the lock of
      its repository are free, jobs of other repositories being in their
      tasks or not, [_run] goes through by steps of the worker alone and ends
      so; a submission made afterwards, for any repository whose lock is
      free, is accepted and its [_run] ends with the status of its own
      outcome. *)
Theorem task_failure_recorded (s : Sys) (t : nat) (wk : work) (pc : wpc) (e : string) :
  reachable s -> careful s ->
  threads s !! t = Some (TWorker wk pc) ->
  outcome (body wk) = Some (Exception e) ->
  escaped pc = None /\
  (forall res, handler_of pc = Some res -> res = Some e) /\
  (forall l res v th' g',
     pc = WFinishIn l res v ->
     tstep t (TWorker wk pc) (shared s) th' g' ->
     th' = TWorker wk (WRelease l None) /\
     exists job',
       dict_get (handle wk) (jobs (mgr g')) = Some job' /\
       status job' = VStr JobStatus.FAILED /\
       error job' = VStr e /\ progress job' = VStr "error") /\
  (forall exc l, pc = WDone exc -> locks (shared s) !! l <> Some (Some t)) /\
  (pc = WRegistry -> ready (url wk) (shared s) ->
   forall clock, exists g' job',
     _run t wk clock (shared s) = Some (None, g') /\
     rtc (local_step t) (TWorker wk WRegistry, shared s) (TWorker wk (WDone None), g') /\
     dict_get (handle wk) (jobs (mgr g')) = Some job' /\
     status job' = VStr JobStatus.FAILED /\
     error job' = VStr e /\ progress job' = VStr "error" /\
     ready (url wk) g' /\
     (forall l t', locks g' !! l = Some (Some t') <->
                   locks (shared s) !! l = Some (Some t')) /\
     forall t2 new_id now u2 ty2 me2 b2 clock2,
       keeps_id b2 -> (forall m, outcome b2 <> Some (BaseException m)) ->
       ready u2 g' ->
       exists job2 g2 g3 job3,
         create_job t2 new_id now u2 ty2 me2 b2 g' = Some (job2, g2) /\
         _run t2 (mkWork (KStr new_id) u2 b2) clock2 g2 = Some (None, g3) /\
         dict_get (KStr new_id) (jobs (mgr g3)) = Some job3 /\
         status job3 = terminal (caught (outcome b2))).
Proof.
  intros Hreach Hcare Ht Hout.
  pose proof (Inv_reachable s Hreach) as HI.
  pose proof (Owners_reachable s Hreach) as HO.
  pose proof (Ids_reachable s Hreach Hcare) as HK.
  pose proof (ids_workers s HK t _ Ht) as (Hr & Hp & Hh & He).
  assert (Hres : forall res, handler_of pc = Some res -> res = Some e).
  { intros res Hres. apply Hh in Hres. rewrite Hout in Hres.
    destruct res as [e'|]; [injection Hres as ->; reflexivity | discriminate Hres]. }
  split; [|split; [exact Hres|split; [|split]]].
  - destruct (escaped pc) as [m|] eqn:Hesc; [|reflexivity].
    specialize (He m eq_refl). congruence.
  - intros l res v th' g' -> Hstep.
    pose proof (Hres res eq_refl) as ->. pose proof (Hr v eq_refl) as Hkey.
    destruct (inv_records s HI t _ (handle wk) Ht eq_refl) as [job Hjob].
    inversion Hstep; subst;
      match goal with H : update_by_value _ _ _ _ _ = _ |- _ =>
        rewrite (update_by_value_key _ _ _ _ _ _ Hkey) in H;
        first [discriminate H | injection H as <-] end.
    split; [reflexivity|]. cbn [with_table mgr].
    rewrite _update_get, decide_True by reflexivity. rewrite Hjob.
    cbn [fmap option_fmap option_map]. eexists. split; [reflexivity|].
    destruct (finish_fields job (Some e) now) as (F1 & F2 & _).
    split; [exact F1 | apply F2; reflexivity].
  - intros exc l -> Hown.
    destruct (own_repo s HO l t Hown) as [->|(th0 & u & Ht0 & Hin)].
    + apply (inv_table_owner s HI) in Hown as (th0 & Ht0 & Hin).
      assert (th0 = TWorker wk (WDone exc)) as -> by congruence. discriminate Hin.
    + assert (th0 = TWorker wk (WDone exc)) as -> by congruence. discriminate Hin.
  - intros -> Hready clock.
    destruct (inv_records s HI t _ (handle wk) Ht eq_refl) as [job Hjob].
    pose proof (proj1 (Forall_lookup _ _) (proj1 Hcare) t _ Ht) as Hk.
    cbn [careful_thread] in Hk.
    destruct (_run_ready t wk clock (shared s) job Hready (ids_table s HK) Hjob Hk)
      as (exc & g' & job' & Hrun & Hready' & Hothers & _ & Hsame & Hc' & _ & Hget' & _
          & Hend).
    destruct Hend as (-> & Hst & Herr & _); [rewrite Hout; discriminate|].
    rewrite Hout in Hst. destruct (Herr e Hout) as [Herror Hprog].
    exists g', job'. split; [exact Hrun|]. split; [apply (_run_local _ _ clock), Hrun|].
    split; [exact Hget'|]. split; [exact Hst|]. split; [exact Herror|].
    split; [exact Hprog|]. split; [exact Hready'|]. split; [exact Hsame|].
    intros t2 new_id now u2 ty2 me2 b2 clock2 Hk2 Hno2 Hready2.
    destruct (create_job_ready t2 new_id now u2 ty2 me2 b2 g' u2 Hready2 Hc')
      as (g2 & Hcreate & Hready3 & Hc2 & Hget2).
    destruct (_run_ready t2 (mkWork (KStr new_id) u2 b2) clock2 g2 _ Hready3 Hc2 Hget2 Hk2)
      as (exc3 & g3 & job3 & Hrun3 & _ & _ & _ & _ & _ & _ & Hget3 & _ & Hend3).
    destruct (Hend3 Hno2) as (-> & Hst3 & _).
    eexists _, g2, g3, job3. repeat split; eassumption.
Qed.

Lemma task_failure_recorded_witness :
  locks (shared boom_beside_running) !! 1%nat = Some (Some 1%nat) /\
  exists g' job',
    _run 3 (mkWork (KStr "job-c") "repo2" boom_task) (fun _ => 14)
         (shared boom_beside_running) = Some (None, g') /\
    dict_get (KStr "job-c") (jobs (mgr g')) = Some job' /\
    status job' = VStr "failed" /\ error job' = VStr "boom" /\
    progress job' = VStr "error".
Proof.
  split; [reflexivity|].
  destruct (proj2 (proj2 (proj2 (proj2
              (task_failure_recorded boom_beside_running 3
                 (mkWork (KStr "job-c") "repo2" boom_task) WRegistry "boom"
                 boom_beside_running_reachable boom_beside_running_careful
                 eq_refl eq_refl)))) eq_refl) with (clock := fun _ : nat => 14)
    as (g' & job' & Hrun & _ & Hget & Hst & Herr & Hprog & _).
  - split; [apply Nat.ltb_lt; reflexivity|]. split; [|split; [reflexivity|]].
    + intros u' l Hl.
      change (repo_locks (mgr (shared boom_beside_running))) with [("repo1", 1%nat)] in Hl.
      cbn [dict_get] in Hl. destruct (decide ("repo1" = u')); [|discriminate Hl].
      injection Hl as <-. split; [apply Nat.ltb_lt; reflexivity | discriminate].
    + intros l Hl. discriminate Hl.
  - exists g', job'. repeat split; assumption.
Defined.

(** * Insertion before submission (C10) *)





(** * Properties of the embeddings client *)

(** ** Parsing a response *)

Lemma _append_embeddings_elem idx source e :
  e ∈ GoogleEmbedderClient._append_embeddings idx source <->
  exists i item,
    source !! i = Some item /\
    GoogleEmbedderClient.index e = (idx + i)%nat /\
    GoogleEmbedderClient.embedding e = GoogleEmbedderClient._extract_embedding item /\
    GoogleEmbedderClient.is_none (GoogleEmbedderClient._extract_embedding item) = false.
Proof.
  revert idx. induction source as [|item r IH]; intros idx; cbn [GoogleEmbedderClient._append_embeddings].
  - split; [intros H; inversion H | intros (i & it & H & _); discriminate H].
  - destruct (GoogleEmbedderClient.is_none (GoogleEmbedderClient._extract_embedding item)) eqn:Hn.
    + rewrite IH. split.
      * intros (i & it & Hi & Hidx & He & Hv). exists (S i), it.
        repeat split; try assumption. lia.
      * intros ([|i] & it & Hi & Hidx & He & Hv).
        -- injection Hi as <-. congruence.
        -- exists i, it. repeat split; try assumption. lia.
    + rewrite elem_of_cons, IH. split.
      * intros [->|(i & it & Hi & Hidx & He & Hv)].
        -- exists 0%nat, item. cbn. repeat split; [lia | exact Hn].
        -- exists (S i), it. repeat split; try assumption. lia.
      * intros ([|i] & it & Hi & Hidx & He & Hv).
        -- injection Hi as <-. left. destruct e as [v n]. cbn in *. subst.
           f_equal. lia.
        -- right. exists i, it. repeat split; try assumption. lia.
Qed.

Lemma _append_embeddings_bound idx source :
  Forall (fun e => (idx <= GoogleEmbedderClient.index e)%nat)
         (GoogleEmbedderClient._append_embeddings idx source).
Proof.
  apply Forall_forall. intros e He. apply _append_embeddings_elem in He as (i & _ & _ & -> & _).
  lia.
Qed.

Lemma _append_embeddings_sorted idx source :
  StronglySorted (fun e1 e2 => (GoogleEmbedderClient.index e1 < GoogleEmbedderClient.index e2)%nat)
                 (GoogleEmbedderClient._append_embeddings idx source).
Proof.
  revert idx. induction source as [|item r IH]; intros idx;
    cbn [GoogleEmbedderClient._append_embeddings]; [constructor|].
  destruct (GoogleEmbedderClient.is_none (GoogleEmbedderClient._extract_embedding item));
    [apply IH|].
  constructor; [apply IH|].
  eapply Forall_impl; [apply (_append_embeddings_bound (S idx))|].
  cbn. intros e He. lia.
Qed.

(** X17.  The index of a parsed embedding is the position of its item in the
    response.  For a response that is a list of items, an embedding with
    index [i] is in the output exactly when the item at position [i] holds
    a vector, and it carries that vector: skipped items leave gaps in the
    indices instead of shifting them.  The indices of the output strictly
    increase and no error is reported. *)
Theorem parsed_indices_are_positions (source : list pyval) :
  let out := GoogleEmbedderClient.parse_embedding_response (VList source) in
  (forall vec i,
     GoogleEmbedderClient.mkEmbedding vec i ∈ GoogleEmbedderClient.data out <->
     exists item, source !! i = Some item /\
                  GoogleEmbedderClient._extract_embedding item = vec /\ vec <> VNone) /\
  StronglySorted (fun e1 e2 => (GoogleEmbedderClient.index e1 < GoogleEmbedderClient.index e2)%nat)
                 (GoogleEmbedderClient.data out) /\
  GoogleEmbedderClient.error out = None /\
  GoogleEmbedderClient.raw_response out = VList source.
Proof.
  cbn. split; [|split; [apply _append_embeddings_sorted | split; reflexivity]].
  intros vec i. rewrite _append_embeddings_elem. cbn. split.
  - intros (i' & item & Hi & -> & -> & Hn). exists item. repeat split; [exact Hi|].
    intros Heq. rewrite Heq in Hn. discriminate Hn.
  - intros (item & Hi & <- & Hn). exists i, item. repeat split; [exact Hi|].
    destruct (GoogleEmbedderClient._extract_embedding item); try reflexivity.
    exfalso. apply Hn. reflexivity.
Qed.

(** ** The local embedding *)

Lemma chunks_range buf :
  Forall (fun k => 0 <= k < 1000) (GoogleEmbedderClient.chunks buf).
Proof.
  assert (H : forall n buf, (List.length buf <= n)%nat ->
                Forall (fun k => 0 <= k < 1000) (GoogleEmbedderClient.chunks buf)).
  { clear buf. induction n as [|n IH]; intros buf Hlen.
    - destruct buf; [constructor | cbn in Hlen; lia].
    - destruct buf as [|b0 [|b1 [|b2 [|b3 r]]]]; cbn [GoogleEmbedderClient.chunks];
        repeat constructor; try (apply Z.mod_pos_bound; lia).
      apply IH. cbn in Hlen. lia. }
  apply (H (List.length buf)). lia.
Qed.

Lemma chunks_app a b k :
  List.length a = (4 * k)%nat ->
  GoogleEmbedderClient.chunks (a ++ b)
  = (GoogleEmbedderClient.chunks a ++ GoogleEmbedderClient.chunks b)%list.
Proof.
  revert a. induction k as [|k IH]; intros a Hlen.
  - destruct a; [reflexivity | cbn in Hlen; lia].
  - destruct a as [|b0 [|b1 [|b2 [|b3 r]]]]; cbn in Hlen; try lia.
    cbn [app GoogleEmbedderClient.chunks]. f_equal. apply IH. lia.
Qed.

Lemma chunks_length a k :
  List.length a = (4 * k)%nat -> List.length (GoogleEmbedderClient.chunks a) = k.
Proof.
  revert a. induction k as [|k IH]; intros a Hlen.
  - destruct a; [reflexivity | cbn in Hlen; lia].
  - destruct a as [|b0 [|b1 [|b2 [|b3 r]]]]; cbn in Hlen; try lia.
    cbn [GoogleEmbedderClient.chunks List.length]. f_equal. apply IH. lia.
Qed.

Lemma chunks_repeat h n k :
  List.length h = (4 * k)%nat ->
  GoogleEmbedderClient.chunks (concat (repeat h n))
  = concat (repeat (GoogleEmbedderClient.chunks h) n).
Proof.
  intros Hlen. induction n as [|n IH]; [reflexivity|].
  cbn [repeat concat]. rewrite (chunks_app _ _ k Hlen), IH. reflexivity.
Qed.

Lemma length_concat_repeat {A} (c : list A) n :
  List.length (concat (repeat c n)) = (n * List.length c)%nat.
Proof.
  induction n as [|n IH]; [reflexivity|].
  cbn [repeat concat]. rewrite length_app, IH. lia.
Qed.

Lemma lookup_concat_repeat {A} (c : list A) n i :
  (i < n * List.length c)%nat ->
  concat (repeat c n) !! i = c !! (i mod List.length c)%nat.
Proof.
  revert i. induction n as [|n IH]; intros i Hi; [lia|].
  cbn [repeat concat].
  destruct (decide (i < List.length c)%nat) as [Hlt|Hge].
  - rewrite lookup_app_l by exact Hlt. rewrite Nat.mod_small by exact Hlt. reflexivity.
  - rewrite lookup_app_r by lia. rewrite IH by lia. f_equal.
    rewrite <- (Nat.Div0.mod_add (i - List.length c) 1 (List.length c)).
    f_equal. lia.
Qed.

(** X18.  The local embedding of the fallback has eight components.  For a
    32-byte digest [_make_vec] returns 256 entries; entry [i] is
    [k / 1000.0] for an integer [0 <= k < 1000], and it is the entry at
    [i mod 8]: the vector repeats the eight numbers read from the digest,
    the 4-byte big-endian words of the digest modulo 1000. *)
Theorem local_embedding_repeats_eight_entries (h : list Z) :
  List.length h = 32%nat ->
  exists vec,
    GoogleEmbedderClient._make_vec h 256 = Ok vec /\
    List.length vec = 256%nat /\
    Forall (fun k => 0 <= k < 1000) vec /\
    take 8 vec = GoogleEmbedderClient.chunks h /\
    forall i, (i < 256)%nat -> vec !! i = vec !! (i mod 8)%nat.
Proof.
  intros Hlen.
  assert (Hc : List.length (GoogleEmbedderClient.chunks h) = 8%nat)
    by (apply chunks_length; rewrite Hlen; reflexivity).
  assert (Hvec : GoogleEmbedderClient._make_vec h 256
                 = Ok (concat (repeat (GoogleEmbedderClient.chunks h) 32))).
  { unfold GoogleEmbedderClient._make_vec. rewrite Hlen.
    change ((256 * 4 + 31) / 32)%nat with 32%nat.
    cbv zeta.
    rewrite (take_ge (concat (repeat h 32)))
      by (rewrite length_concat_repeat, Hlen; apply Nat.le_refl).
    rewrite (chunks_repeat h 32 8) by (rewrite Hlen; reflexivity).
    rewrite take_ge by (rewrite length_concat_repeat, Hc; apply Nat.le_refl).
    reflexivity. }
  exists (concat (repeat (GoogleEmbedderClient.chunks h) 32)).
  split; [exact Hvec|]. split; [rewrite length_concat_repeat, Hc; reflexivity|].
  split; [|split].
  - rewrite <- (chunks_repeat h 32 8) by (rewrite Hlen; reflexivity). apply chunks_range.
  - change (repeat (GoogleEmbedderClient.chunks h) 32)
      with (GoogleEmbedderClient.chunks h :: repeat (GoogleEmbedderClient.chunks h) 31).
    cbn [concat]. rewrite take_app_length' by (symmetry; exact Hc). reflexivity.
  - intros i Hi.
    rewrite !lookup_concat_repeat; rewrite Hc; try lia.
    + rewrite Nat.Div0.mod_mod. reflexivity.
    + pose proof (Nat.mod_upper_bound i 8). lia.
Qed.

Lemma local_embedding_repeats_eight_entries_witness :
  exists vec,
    GoogleEmbedderClient._make_vec (map Z.of_nat (seq 0 32)) 256 = Ok vec /\
    vec !! 9%nat = Some (87 : Z).
Proof.
  destruct (local_embedding_repeats_eight_entries (map Z.of_nat (seq 0 32)) eq_refl)
    as (vec & Hv & _ & _ & Ht & Hp).
  exists vec. split; [exact Hv|].
  rewrite (Hp 9%nat) by lia. change (9 mod 8)%nat with 1%nat.
  rewrite <- (lookup_take_lt vec 8 1) by lia. rewrite Ht. reflexivity.
Defined.

(** ** Calling the API *)

Lemma dict_get_pop_eq k (d : list (string * pyval)) :
  dict_get k (GoogleEmbedderClient.dict_pop k d) = None.
Proof.
  unfold GoogleEmbedderClient.dict_pop. induction d as [|[k' v] r IH]; [reflexivity|].
  destruct (decide (k' = k)) as [->|Hne].
  - rewrite filter_cons_False by (intros H; apply H; reflexivity). exact IH.
  - rewrite filter_cons_True by exact Hne. cbn [dict_get].
    destruct (decide (k' = k)); [contradiction | exact IH].
Qed.

Lemma dict_get_pop_ne k k' (d : list (string * pyval)) :
  k' <> k -> dict_get k' (GoogleEmbedderClient.dict_pop k d) = dict_get k' d.
Proof.
  intros Hkk. unfold GoogleEmbedderClient.dict_pop. induction d as [|[k0 v] r IH]; [reflexivity|].
  destruct (decide (k0 = k)) as [->|Hne].
  - rewrite filter_cons_False by (intros H; apply H; reflexivity). cbn [dict_get].
    destruct (decide (k = k')) as [->|_]; [contradiction | exact IH].
  - rewrite filter_cons_True by exact Hne. cbn [dict_get].
    destruct (decide (k0 = k')); [reflexivity | exact IH].
Qed.

(** The loop over a batch stops at the first call that raises. *)
Lemma embed_each_raise embed n kw cs i c e :
  cs !! i = Some c ->
  embed (n + i)%nat (dict_set "content" c kw) = Raise e ->
  (forall j c', (j < i)%nat -> cs !! j = Some c' ->
     exists r, embed (n + j)%nat (dict_set "content" c' kw) = Ok r) ->
  GoogleEmbedderClient.embed_each embed n kw cs = Raise e.
Proof.
  revert n i. induction cs as [|c0 r IH]; intros n i Hi He Hbefore; [discriminate Hi|].
  cbn [GoogleEmbedderClient.embed_each]. destruct i as [|i].
  - injection Hi as ->. rewrite Nat.add_0_r in He. rewrite He. reflexivity.
  - destruct (Hbefore 0%nat c0 ltac:(lia) eq_refl) as [r0 Hr0].
    rewrite Nat.add_0_r in Hr0. rewrite Hr0.
    rewrite (IH (S n) i Hi).
    + reflexivity.
    + rewrite <- He. f_equal. lia.
    + intros j c' Hj Hc'. destruct (Hbefore (S j) c' ltac:(lia) Hc') as [r' Hr'].
      exists r'. rewrite <- Hr'. f_equal. lia.
Qed.

(** X19.  A batch that fails yields one empty embedding.  Let [api_kwargs]
    hold a batch under [contents] and no [content], and let the API raise
    for one of the texts after answering the ones before it.  Then [call]
    returns [{"embedding": []}], whatever the texts are: [contents] has been
    popped before the failure, so the handler computes no local embedding.
    The caller's [api_kwargs] has lost [contents], and the parsed output is
    a single embedding with an empty vector. *)
Theorem failed_batch_yields_one_empty_embedding
    (embed_content : nat -> list (string * pyval) -> result pyval)
    (sha256 : pyval -> result (list Z)) (float_of : Z -> pyval)
    (api_kwargs : list (string * pyval)) (contents : pyval) (cs : list pyval)
    (i : nat) (c : pyval) (e : string) :
  dict_get "contents" api_kwargs = Some contents ->
  dict_get "content" api_kwargs = None ->
  iterate contents = Some cs ->
  cs !! i = Some c ->
  embed_content i (dict_set "content" c (GoogleEmbedderClient.dict_pop "contents" api_kwargs))
    = Raise e ->
  (forall j c', (j < i)%nat -> cs !! j = Some c' ->
     exists r, embed_content j
                 (dict_set "content" c' (GoogleEmbedderClient.dict_pop "contents" api_kwargs))
               = Ok r) ->
  GoogleEmbedderClient.call embed_content sha256 float_of api_kwargs
                            GoogleEmbedderClient.EMBEDDER
  = (Ok (VDict [("embedding", VList [])]),
     GoogleEmbedderClient.dict_pop "contents" api_kwargs) /\
  GoogleEmbedderClient.data
    (GoogleEmbedderClient.parse_embedding_response (VDict [("embedding", VList [])]))
  = [GoogleEmbedderClient.mkEmbedding (VList []) 0].
Proof.
  intros Hcs Hc Hit Hi He Hbefore. split; [|reflexivity].
  unfold GoogleEmbedderClient.call, GoogleEmbedderClient.call_api.
  rewrite Hcs, Hit.
  rewrite (embed_each_raise embed_content 0 _ cs i c e Hi He Hbefore).
  unfold GoogleEmbedderClient.fallback.
  rewrite dict_get_pop_ne by discriminate. rewrite Hc, dict_get_pop_eq. reflexivity.
Qed.

Lemma failed_batch_yields_one_empty_embedding_witness :
  GoogleEmbedderClient.call (fun _ _ => Raise "offline") (fun _ => Ok (repeat 7 32))
    (fun k => VNum k)
    [("contents", VList [VStr "a"; VStr "b"]); ("model", VStr "text-embedding-004")]
    GoogleEmbedderClient.EMBEDDER
  = (Ok (VDict [("embedding", VList [])]), [("model", VStr "text-embedding-004")]).
Proof.
  exact (proj1 (failed_batch_yields_one_empty_embedding
                  (fun _ _ => Raise "offline") (fun _ => Ok (repeat 7 32)) (fun k => VNum k)
                  [("contents", VList [VStr "a"; VStr "b"]);
                   ("model", VStr "text-embedding-004")]
                  (VList [VStr "a"; VStr "b"]) [VStr "a"; VStr "b"] 0 (VStr "a") "offline"
                  eq_refl eq_refl eq_refl eq_refl eq_refl
                  ltac:(intros j c' Hj; lia))).
Defined.

(** ** Building a request *)

(** The texts of an input: a string is one text, a sequence holds them. *)
Lemma convert_inputs_cases sq input mk mt kw :
  GoogleEmbedderClient.convert_inputs_to_api_kwargs sq input mk mt = Ok kw ->
  mt = GoogleEmbedderClient.EMBEDDER /\
  exists content,
    ((exists s, input = VStr s /\ content = [input]) \/
     input = VList content \/ input = VTuple content \/
     (exists n, input = VObject n /\ sq n = Some content)) /\
    forall k,
      dict_get k kw =
      if decide (k = "content") then
        match content with [c] => Some c | _ => dict_get k mk end
      else if decide (k = "contents") then
        match content with [c] => dict_get k mk | _ => Some (VList content) end
      else if decide (k = "task_type") then
        Some (default (VStr "RETRIEVAL_DOCUMENT") (dict_get k mk))
      else if decide (k = "model") then
        Some (default (VStr "text-embedding-004") (dict_get k mk))
      else dict_get k mk.
Proof.
  unfold GoogleEmbedderClient.convert_inputs_to_api_kwargs.
  destruct mt; try discriminate. intros H. split; [reflexivity|].
  assert (Hgen : forall content,
    Ok (let f := match content with
                 | [c] => dict_set "content" c mk
                 | _ => dict_set "contents" (VList content) mk
                 end in
        let f := if GoogleEmbedderClient.has_key "task_type" f then f
                 else dict_set "task_type" (VStr "RETRIEVAL_DOCUMENT") f in
        if GoogleEmbedderClient.has_key "model" f then f
        else dict_set "model" (VStr "text-embedding-004") f) = Ok kw ->
    forall k,
      dict_get k kw =
      if decide (k = "content") then
        match content with [c] => Some c | _ => dict_get k mk end
      else if decide (k = "contents") then
        match content with [c] => dict_get k mk | _ => Some (VList content) end
      else if decide (k = "task_type") then
        Some (default (VStr "RETRIEVAL_DOCUMENT") (dict_get k mk))
      else if decide (k = "model") then
        Some (default (VStr "text-embedding-004") (dict_get k mk))
      else dict_get k mk).
  { clear H. intros content [= <-] k. cbv zeta. unfold GoogleEmbedderClient.has_key.
    set (f0 := match content with
               | [c] => dict_set "content" c mk
               | _ => dict_set "contents" (VList content) mk
               end).
    assert (Hf0 : forall k',
      dict_get k' f0 =
      if decide (k' = "content") then
        match content with [c] => Some c | _ => dict_get k' mk end
      else if decide (k' = "contents") then
        match content with [c] => dict_get k' mk | _ => Some (VList content) end
      else dict_get k' mk).
    { intros k'. unfold f0. destruct content as [|c [|c' r]];
        rewrite dict_get_set;
        repeat (destruct (decide _) as [?|?]; subst; try congruence). }
    clearbody f0.
    set (f1 := match dict_get "task_type" f0 with
               | Some _ => f0
               | None => dict_set "task_type" (VStr "RETRIEVAL_DOCUMENT") f0
               end).
    assert (Hf1 : forall k',
      dict_get k' f1 =
      if decide (k' = "task_type") then
        Some (default (VStr "RETRIEVAL_DOCUMENT") (dict_get k' f0))
      else dict_get k' f0).
    { intros k'. unfold f1. destruct (dict_get "task_type" f0) as [v|] eqn:Ht.
      - destruct (decide (k' = "task_type")) as [->|_]; [rewrite Ht|]; reflexivity.
      - rewrite dict_get_set.
        destruct (decide ("task_type" = k')) as [<-|Hne];
          destruct (decide _) as [?|?]; subst; try congruence.
        rewrite Ht. reflexivity. }
    assert (Hk : dict_get k
                   (if match dict_get "model" f1 with Some _ => true | None => false end
                    then f1 else dict_set "model" (VStr "text-embedding-004") f1)
                 = if decide (k = "model") then
                     Some (default (VStr "text-embedding-004") (dict_get k f1))
                   else dict_get k f1).
    { destruct (dict_get "model" f1) as [v|] eqn:Hm.
      - destruct (decide (k = "model")) as [->|_]; [rewrite Hm|]; reflexivity.
      - rewrite dict_get_set.
        destruct (decide ("model" = k)) as [<-|Hne];
          destruct (decide _) as [?|?]; subst; try congruence.
        rewrite Hm. reflexivity. }
    assert (Hshape :
      (if match dict_get "task_type" f0 with Some _ => true | None => false end
       then f0 else dict_set "task_type" (VStr "RETRIEVAL_DOCUMENT") f0) = f1).
    { unfold f1. destruct (dict_get "task_type" f0); reflexivity. }
    rewrite Hshape, Hk, Hf1, Hf0.
    repeat (destruct (decide _) as [?|?]; subst; try congruence). }
  destruct input as [| | |s|l|l| |n]; try discriminate H.
  - exists [VStr s]. split; [left; eauto|]. exact (Hgen [VStr s] H).
  - exists l. split; [right; left; reflexivity|]. exact (Hgen l H).
  - exists l. split; [right; right; left; reflexivity|]. exact (Hgen l H).
  - destruct (sq n) as [l|] eqn:Hsq; [|discriminate H].
    exists l. split; [right; right; right; eauto|]. exact (Hgen l H).
Qed.

Lemma convert_inputs_Ok sq input mk :
  (exists s, input = VStr s) \/ (exists l, input = VList l) \/ (exists l, input = VTuple l) ->
  exists kw,
    GoogleEmbedderClient.convert_inputs_to_api_kwargs sq input mk GoogleEmbedderClient.EMBEDDER
    = Ok kw.
Proof.
  intros [[s ->]|[[l ->]|[l ->]]]; eexists; reflexivity.
Qed.

(** ** From the texts to the embeddings *)

Lemma embed_each_Ok embed n kw cs (vec_of : nat -> list pyval) :
  (forall i c, cs !! i = Some c ->
     exists d, embed (n + i)%nat (dict_set "content" c kw) = Ok (VDict d) /\
               dict_get "embedding" d = Some (VList (vec_of (n + i)%nat))) ->
  GoogleEmbedderClient.embed_each embed n kw cs
  = Ok (map (fun i => VList (vec_of i)) (seq n (List.length cs))).
Proof.
  revert n. induction cs as [|c r IH]; intros n H; [reflexivity|].
  cbn [GoogleEmbedderClient.embed_each List.length seq map].
  destruct (H 0%nat c eq_refl) as (d & He & Hd). rewrite Nat.add_0_r in He, Hd.
  rewrite He, Hd. rewrite (IH (S n)); [reflexivity|].
  intros i c' Hi. destruct (H (S i) c' Hi) as (d' & He' & Hd').
  exists d'. replace (S n + i)%nat with (n + S i)%nat by lia. auto.
Qed.

Lemma _append_embeddings_wrapped n len (vec_of : nat -> list pyval) :
  GoogleEmbedderClient._append_embeddings n
    (map (fun emb => VDict [("embedding", emb)])
         (map (fun i => VList (vec_of i)) (seq n len)))
  = map (fun i => GoogleEmbedderClient.mkEmbedding (VList (vec_of i)) i) (seq n len).
Proof.
  revert n. induction len as [|len IH]; intros n; [reflexivity|].
  cbn [seq map GoogleEmbedderClient._append_embeddings].
  change (GoogleEmbedderClient._extract_embedding (VDict [("embedding", VList (vec_of n))]))
    with (VList (vec_of n)).
  cbn [GoogleEmbedderClient.is_none]. rewrite IH. reflexivity.
Qed.

(** X20.  A batch comes back in order.  For a list of texts that is not a
    single text, with no [content] among the model keywords, and an API
    that answers every request with a dictionary holding a vector under
    [embedding]: the request built by [convert_inputs_to_api_kwargs] is
    served by [call] with one API call per text, each carrying its text
    under [content] together with a model and a task type and no
    [contents], and [parse_embedding_response] returns one embedding per
    text, the [i]-th with index [i] and the vector of the [i]-th call. *)
Theorem batch_embeddings_in_order (sequence_of : nat -> option (list pyval))
    (embed_content : nat -> list (string * pyval) -> result pyval)
    (sha256 : pyval -> result (list Z)) (float_of : Z -> pyval)
    (model_kwargs : list (string * pyval)) (cs : list pyval)
    (vec_of : nat -> list pyval) :
  List.length cs <> 1%nat ->
  dict_get "content" model_kwargs = None ->
  (forall i c kw,
     cs !! i = Some c ->
     dict_get "content" kw = Some c -> dict_get "contents" kw = None ->
     is_Some (dict_get "model" kw) -> is_Some (dict_get "task_type" kw) ->
     exists d, embed_content i kw = Ok (VDict d) /\
               dict_get "embedding" d = Some (VList (vec_of i))) ->
  exists kw response,
    GoogleEmbedderClient.convert_inputs_to_api_kwargs sequence_of (VList cs) model_kwargs
      GoogleEmbedderClient.EMBEDDER = Ok kw /\
    GoogleEmbedderClient.call embed_content sha256 float_of kw GoogleEmbedderClient.EMBEDDER
    = (Ok response, GoogleEmbedderClient.dict_pop "contents" kw) /\
    GoogleEmbedderClient.parse_embedding_response response
    = GoogleEmbedderClient.mkEmbedderOutput
        (map (fun i => GoogleEmbedderClient.mkEmbedding (VList (vec_of i)) i)
             (seq 0 (List.length cs)))
        None response.
Proof.
  intros Hlen Hcontent Hapi.
  destruct (convert_inputs_Ok sequence_of (VList cs) model_kwargs) as [kw Hkw];
    [right; left; eauto|].
  destruct (convert_inputs_cases _ _ _ _ _ Hkw) as (_ & content & Hin & Hget).
  assert (content = cs) as ->.
  { destruct Hin as [(s & Hs & _)|[Hl|[Hl|(n & Hl & _)]]];
      [discriminate Hs | congruence | discriminate Hl | discriminate Hl]. }
  assert (Hcs : dict_get "contents" kw = Some (VList cs)).
  { rewrite Hget. cbn. destruct cs as [|c [|c' r]]; try reflexivity.
    exfalso. apply Hlen. reflexivity. }
  assert (Hc : dict_get "content" kw = None).
  { rewrite Hget. cbn. destruct cs as [|c [|c' r]]; try exact Hcontent.
    exfalso. apply Hlen. reflexivity. }
  assert (Hm : is_Some (dict_get "model" kw)) by (rewrite Hget; cbn; eauto).
  assert (Ht : is_Some (dict_get "task_type" kw)) by (rewrite Hget; cbn; eauto).
  eexists kw, _. split; [exact Hkw|].
  unfold GoogleEmbedderClient.call, GoogleEmbedderClient.call_api. rewrite Hcs.
  cbn [iterate].
  rewrite (embed_each_Ok embed_content 0 _ cs vec_of).
  - split; [reflexivity|].
    unfold GoogleEmbedderClient.parse_embedding_response.
    change (GoogleEmbedderClient.has_key "embedding" [("embeddings", ?v)]) with false.
    cbn [dict_get GoogleEmbedderClient.has_key orb app].
    rewrite decide_True by reflexivity.
    rewrite _append_embeddings_wrapped. reflexivity.
  - intros i c Hi. cbn [Nat.add]. apply (Hapi i c _ Hi); [apply dict_get_set_eq | | |].
    + rewrite dict_get_set_ne by discriminate. apply dict_get_pop_eq.
    + rewrite dict_get_set_ne by discriminate.
      rewrite dict_get_pop_ne by discriminate. exact Hm.
    + rewrite dict_get_set_ne by discriminate.
      rewrite dict_get_pop_ne by discriminate. exact Ht.
Qed.

Lemma batch_embeddings_in_order_witness :
  exists kw response,
    GoogleEmbedderClient.convert_inputs_to_api_kwargs (fun _ => None)
      (VList [VStr "a"; VStr "b"]) [] GoogleEmbedderClient.EMBEDDER = Ok kw /\
    GoogleEmbedderClient.call
      (fun i _ => Ok (VDict [("embedding", VList [VNum (Z.of_nat i)])]))
      (fun _ => Ok (repeat 7 32)) (fun k => VNum k) kw GoogleEmbedderClient.EMBEDDER
    = (Ok response, GoogleEmbedderClient.dict_pop "contents" kw) /\
    GoogleEmbedderClient.parse_embedding_response response
    = GoogleEmbedderClient.mkEmbedderOutput
        [GoogleEmbedderClient.mkEmbedding (VList [VNum 0]) 0;
         GoogleEmbedderClient.mkEmbedding (VList [VNum 1]) 1]
        None response.
Proof.
  exact (batch_embeddings_in_order (fun _ => None)
           (fun i _ => Ok (VDict [("embedding", VList [VNum (Z.of_nat i)])]))
           (fun _ => Ok (repeat 7 32)) (fun k => VNum k) [] [VStr "a"; VStr "b"]
           (fun i => [VNum (Z.of_nat i)])
           ltac:(discriminate) eq_refl
           ltac:(intros; eexists; split; reflexivity)).
Defined.

Lemma _make_vec_digest h :
  List.length h = 32%nat ->
  GoogleEmbedderClient._make_vec h 256
  = Ok (concat (repeat (GoogleEmbedderClient.chunks h) 32)).
Proof.
  intros Hlen.
  assert (Hc : List.length (GoogleEmbedderClient.chunks h) = 8%nat)
    by (apply chunks_length; rewrite Hlen; reflexivity).
  unfold GoogleEmbedderClient._make_vec. rewrite Hlen.
  change ((256 * 4 + 31) / 32)%nat with 32%nat. cbv zeta.
  rewrite (take_ge (concat (repeat h 32)))
    by (rewrite length_concat_repeat, Hlen; apply Nat.le_refl).
  rewrite (chunks_repeat h 32 8) by (rewrite Hlen; reflexivity).
  rewrite take_ge by (rewrite length_concat_repeat, Hc; apply Nat.le_refl).
  reflexivity.
Qed.

(** X21.  A single text that the API fails on gets a local embedding.  For
    one text, with neither [content] nor [contents] among the model
    keywords, an API call that raises and a 32-byte digest of the text:
    [call] returns [{"embedding": vec}] with the 256 entries of [_make_vec],
    leaves [api_kwargs] as it was, and the parsed output is that one vector
    with index 0. *)
Theorem single_text_falls_back_locally (sequence_of : nat -> option (list pyval))
    (embed_content : nat -> list (string * pyval) -> result pyval)
    (sha256 : pyval -> result (list Z)) (float_of : Z -> pyval)
    (model_kwargs : list (string * pyval)) (s e : string) (h : list Z) :
  dict_get "content" model_kwargs = None ->
  dict_get "contents" model_kwargs = None ->
  (forall kw, dict_get "content" kw = Some (VStr s) -> embed_content 0%nat kw = Raise e) ->
  sha256 (VStr s) = Ok h -> List.length h = 32%nat ->
  exists kw vec,
    GoogleEmbedderClient.convert_inputs_to_api_kwargs sequence_of (VStr s) model_kwargs
      GoogleEmbedderClient.EMBEDDER = Ok kw /\
    GoogleEmbedderClient._make_vec h 256 = Ok vec /\
    List.length vec = 256%nat /\
    GoogleEmbedderClient.call embed_content sha256 float_of kw GoogleEmbedderClient.EMBEDDER
    = (Ok (VDict [("embedding", VList (map float_of vec))]), kw) /\
    GoogleEmbedderClient.data
      (GoogleEmbedderClient.parse_embedding_response
         (VDict [("embedding", VList (map float_of vec))]))
    = [GoogleEmbedderClient.mkEmbedding (VList (map float_of vec)) 0].
Proof.
  intros Hcontent Hcontents Hapi Hsha Hlen.
  destruct (convert_inputs_Ok sequence_of (VStr s) model_kwargs) as [kw Hkw]; [left; eauto|].
  destruct (convert_inputs_cases _ _ _ _ _ Hkw) as (_ & content & Hin & Hget).
  assert (content = [VStr s]) as ->.
  { destruct Hin as [(s' & _ & ->)|[Hl|[Hl|(n & Hl & _)]]];
      [reflexivity | discriminate Hl | discriminate Hl | discriminate Hl]. }
  assert (Hc : dict_get "content" kw = Some (VStr s)) by (rewrite Hget; reflexivity).
  assert (Hcs : dict_get "contents" kw = None) by (rewrite Hget; exact Hcontents).
  assert (Hc8 : List.length (GoogleEmbedderClient.chunks h) = 8%nat)
    by (apply chunks_length; rewrite Hlen; reflexivity).
  exists kw, (concat (repeat (GoogleEmbedderClient.chunks h) 32)).
  split; [exact Hkw|]. split; [apply _make_vec_digest, Hlen|].
  split; [rewrite length_concat_repeat, Hc8; reflexivity|]. split; [|reflexivity].
  unfold GoogleEmbedderClient.call, GoogleEmbedderClient.call_api,
    GoogleEmbedderClient.has_key.
  rewrite Hcs, Hc, (Hapi kw Hc).
  unfold GoogleEmbedderClient.fallback, GoogleEmbedderClient.local_embedding.
  rewrite Hc, Hsha, (_make_vec_digest h Hlen). reflexivity.
Qed.

Lemma single_text_falls_back_locally_witness :
  exists kw vec,
    GoogleEmbedderClient.convert_inputs_to_api_kwargs (fun _ => None) (VStr "a") []
      GoogleEmbedderClient.EMBEDDER = Ok kw /\
    GoogleEmbedderClient._make_vec (repeat 7 32) 256 = Ok vec /\
    List.length vec = 256%nat.
Proof.
  destruct (single_text_falls_back_locally (fun _ => None)
              (fun _ _ => Raise "offline") (fun _ => Ok (repeat 7 32)) (fun k => VNum k)
              [] "a" "offline" (repeat 7 32) eq_refl eq_refl
              ltac:(reflexivity) eq_refl eq_refl)
    as (kw & vec & Hkw & Hvec & Hlen & _).
  exists kw, vec. auto.
Defined.

(** X22.  What a request holds.  When [convert_inputs_to_api_kwargs]
    returns, the model type is [EMBEDDER] and the input is a string or a
    sequence: a list, a tuple, or an object that is a
    [collections.abc.Sequence]; the request has a task type and a model,
    which are the caller's when the model keywords give them and
    "RETRIEVAL_DOCUMENT" and "text-embedding-004" otherwise; it holds a
    text under [content] or the texts under [contents], which is what
    [call] asks for; every other model keyword is passed on unchanged, and
    no other keyword is added. *)
Theorem request_keeps_model_kwargs (sequence_of : nat -> option (list pyval))
    (input : pyval) (model_kwargs : list (string * pyval))
    (model_type : GoogleEmbedderClient.ModelType) (kw : list (string * pyval)) :
  GoogleEmbedderClient.convert_inputs_to_api_kwargs sequence_of input model_kwargs model_type
  = Ok kw ->
  model_type = GoogleEmbedderClient.EMBEDDER /\
  ((exists s, input = VStr s) \/ (exists l, input = VList l \/ input = VTuple l) \/
   (exists n l, input = VObject n /\ sequence_of n = Some l)) /\
  dict_get "task_type" kw
    = Some (default (VStr "RETRIEVAL_DOCUMENT") (dict_get "task_type" model_kwargs)) /\
  dict_get "model" kw
    = Some (default (VStr "text-embedding-004") (dict_get "model" model_kwargs)) /\
  (is_Some (dict_get "content" kw) \/ is_Some (dict_get "contents" kw)) /\
  (forall k, k ∉ ["content"; "contents"; "task_type"; "model"] ->
     dict_get k kw = dict_get k model_kwargs).
Proof.
  intros Hkw.
  destruct (convert_inputs_cases _ _ _ _ _ Hkw) as (Hmt & content & Hin & Hget).
  split; [exact Hmt|]. split; [|split; [|split; [|split]]].
  - destruct Hin as [(s & -> & _)|[->|[->|(n & -> & Hn)]]]; eauto 6.
  - rewrite Hget. reflexivity.
  - rewrite Hget. reflexivity.
  - rewrite !Hget. cbn. destruct content as [|c [|c' r]]; eauto.
  - intros k Hk. rewrite Hget.
    rewrite !not_elem_of_cons in Hk. destruct Hk as (H1 & H2 & H3 & H4 & _).
    repeat (destruct (decide _) as [?|?]; try contradiction). reflexivity.
Qed.

Lemma request_keeps_model_kwargs_witness :
  dict_get "task_type"
    [("task_type", VStr "SEMANTIC_SIMILARITY"); ("contents", VList [VNum 97; VNum 98]);
     ("model", VStr "text-embedding-004")]
  = Some (VStr "SEMANTIC_SIMILARITY").
Proof.
  exact (proj1 (proj2 (proj2 (request_keeps_model_kwargs
                  (fun n => if Nat.eqb n 0 then Some [VNum 97; VNum 98] else None)
                  (VObject 0) [("task_type", VStr "SEMANTIC_SIMILARITY")]
                  GoogleEmbedderClient.EMBEDDER _ eq_refl)))).
Defined.
